(** * env-mage: the .env parser, validator and key-set operations

    A shallow embedding of [src/utils/envParser.ts], the regular expressions of
    [src/utils/constants.ts] it uses, the [preserve] branch of
    [src/commands/sync.ts] and the collection loop of [src/commands/lint.ts],
    then of the commands [diff], [sync], [lint], [init] and [validate] between
    the reading of their files and their results and of the replacement of
    line endings in [src/utils/fileUtils.ts], followed by the properties of
    the embedding.

    JavaScript strings are sequences of UTF-16 code units; a code unit is a
    number of type [N].  JavaScript objects used as string maps are lists of
    their own properties in property order, looked up through
    [Object.prototype] where the source does so. *)

From Stdlib Require Import NArith ZArith List String Ascii Lia.
From Stdlib Require Import Decimal DecimalNat DecimalFacts.
From stdpp Require Import base option list gmap sorting.

Local Open Scope N_scope.

(** ** Strings *)

Module JS.

Abbreviation jsstring := (list N).

(** The code unit of an ASCII character, and the string of an ASCII literal. *)
Definition ch (a : ascii) : N := N_of_ascii a.
Definition js (s : string) : jsstring := map ch (list_ascii_of_string s).

Definition LF : N := 10.
Definition CR : N := 13.
Definition BSL : N := 92.   (* backslash *)
Definition DQ : N := 34.    (* double quote *)
Definition SQ : N := 39.    (* single quote *)

(** ECMAScript LineTerminator: LF, CR, U+2028, U+2029. *)
Definition is_line_terminator (c : N) : bool :=
  (c =? 10) || (c =? 13) || (c =? 8232) || (c =? 8233).

(** ECMAScript WhiteSpace or LineTerminator: the set of [\s] and of [trim]. *)
Definition is_space (c : N) : bool :=
  (c =? 9) || (c =? 11) || (c =? 12) || (c =? 32) || (c =? 160)
  || (c =? 5760) || ((8192 <=? c) && (c <=? 8202))
  || (c =? 8239) || (c =? 8287) || (c =? 12288) || (c =? 65279)
  || is_line_terminator c.

(** The longest prefix of [s] whose code units satisfy [p], and what follows. *)
Fixpoint run (p : N -> bool) (s : jsstring) : jsstring :=
  match s with
  | c :: s' => if p c then c :: run p s' else []
  | [] => []
  end.

Fixpoint skip (p : N -> bool) (s : jsstring) : jsstring :=
  match s with
  | c :: s' => if p c then skip p s' else s
  | [] => []
  end.

Definition trimStart (s : jsstring) : jsstring := skip is_space s.

Definition trimEnd (s : jsstring) : jsstring := rev (trimStart (rev s)).

Definition trim (s : jsstring) : jsstring := trimEnd (trimStart s).

(** [s.split('\n')]: never empty, [''.split('\n')] is [['']]. *)
Fixpoint split_lf (s : jsstring) : list jsstring :=
  match s with
  | [] => [[]]
  | c :: s' =>
      if c =? LF then [] :: split_lf s'
      else match split_lf s' with
           | l :: ls => (c :: l) :: ls
           | [] => [[c]]
           end
  end.

(** [parts.join(sep)]. *)
Fixpoint join (sep : jsstring) (parts : list jsstring) : jsstring :=
  match parts with
  | [] => []
  | [p] => p
  | p :: ps => p ++ sep ++ join sep ps
  end.

Definition startsWith (s t : jsstring) : bool :=
  bool_decide (take (length t) s = t).

Definition endsWith (s t : jsstring) : bool :=
  bool_decide (drop (length s - length t) s = t).

(** [s.slice(b, e)] with the relative (negative) indices of the language. *)
Definition slice (s : jsstring) (b e : Z) : jsstring :=
  let len := Z.of_nat (length s) in
  let from := if (b <? 0)%Z then Z.max (len + b) 0 else Z.min b len in
  let to := if (e <? 0)%Z then Z.max (len + e) 0 else Z.min e len in
  take (Z.to_nat (to - from)) (drop (Z.to_nat from) s).

(** A string in a boolean position: the empty string is falsy. *)
Definition truthy (s : jsstring) : bool :=
  match s with [] => false | _ => true end.

(** Number to string, for the non-negative integers that line numbers are. *)
Fixpoint uint_units (d : Decimal.uint) : jsstring :=
  match d with
  | Nil => []
  | D0 d => 48 :: uint_units d
  | D1 d => 49 :: uint_units d
  | D2 d => 50 :: uint_units d
  | D3 d => 51 :: uint_units d
  | D4 d => 52 :: uint_units d
  | D5 d => 53 :: uint_units d
  | D6 d => 54 :: uint_units d
  | D7 d => 55 :: uint_units d
  | D8 d => 56 :: uint_units d
  | D9 d => 57 :: uint_units d
  end.

Definition numToString (n : nat) : jsstring := uint_units (Nat.to_uint n).

(** [parseInt] on a string of decimal digits, as lint applies it to the
    capture of [\d+]. *)
Fixpoint units_uint (s : jsstring) : Decimal.uint :=
  match s with
  | [] => Nil
  | c :: s' =>
      let d := units_uint s' in
      if c =? 48 then D0 d else if c =? 49 then D1 d
      else if c =? 50 then D2 d else if c =? 51 then D3 d
      else if c =? 52 then D4 d else if c =? 53 then D5 d
      else if c =? 54 then D6 d else if c =? 55 then D7 d
      else if c =? 56 then D8 d else if c =? 57 then D9 d
      else Nil
  end.

Definition parseInt (s : jsstring) : nat := Nat.of_uint (units_uint s).

End JS.
Export JS.

(** ** Regular expressions

    The fragment of the language's backtracking matcher that the patterns of
    the program use: character classes, [.], greedy [*] and [+] over one
    atom, capturing groups over a sequence, [^] and [$] without the [m] flag,
    and the [i] flag. *)

Module Regex.

Inductive cset :=
| CChar (c : N)            (* a literal member *)
| CRange (lo hi : N)       (* lo-hi *)
| CSpace                   (* \s *)
| CDigit.                  (* \d *)

Inductive atom :=
| ADot                                 (* . *)
| ASet (neg : bool) (ms : list cset).  (* [...] and [^...]; a literal or an
                                          escape is the class of itself *)

Inductive item :=
| IBol | IEol                   (* ^ and $ *)
| IAtom (a : atom)
| IStar (a : atom)              (* a* *)
| IPlus (a : atom).             (* a+ *)

Inductive node :=
| NItem (i : item)
| NGroup (body : list item).    (* ( ... ) *)

Record RegExp := { source : list node; ignoreCase : bool }.

(** Canonicalize of a non-unicode pattern maps a code unit to its upper case;
    every member of every class below is ASCII, and a non-ASCII code unit
    never canonicalizes to an ASCII one, so only the ASCII letters matter. *)
Definition toUpper (c : N) : N := if (97 <=? c) && (c <=? 122) then c - 32 else c.
Definition toLower (c : N) : N := if (65 <=? c) && (c <=? 90) then c + 32 else c.

Definition cset_has (m : cset) (c : N) : bool :=
  match m with
  | CChar x => c =? x
  | CRange lo hi => (lo <=? c) && (c <=? hi)
  | CSpace => is_space c
  | CDigit => (48 <=? c) && (c <=? 57)
  end.

Definition cset_has_ic (ic : bool) (m : cset) (c : N) : bool :=
  if ic then cset_has m c || cset_has m (toUpper c) || cset_has m (toLower c)
  else cset_has m c.

Definition atom_ok (ic : bool) (a : atom) (c : N) : bool :=
  match a with
  | ADot => negb (is_line_terminator c)
  | ASet neg ms => xorb neg (existsb (fun m => cset_has_ic ic m c) ms)
  end.

Section Matcher.
Context {R : Type} (ic : bool).

(** Greedy repetition: the longest run first, then shorter ones. *)
Fixpoint star (a : atom) (s : jsstring) (k : jsstring -> option R) : option R :=
  match s with
  | c :: s' =>
      if atom_ok ic a c then
        match star a s' k with
        | Some r => Some r
        | None => k s
        end
      else k s
  | [] => k []
  end.

(** [n] is the length of the whole input: [^] holds where nothing has been
    consumed. *)
Fixpoint m_items (n : nat) (body : list item) (s : jsstring)
    (k : jsstring -> option R) : option R :=
  match body with
  | [] => k s
  | i :: body' =>
      match i with
      | IBol => if Nat.eqb (length s) n then m_items n body' s k else None
      | IEol => match s with [] => m_items n body' s k | _ => None end
      | IAtom a =>
          match s with
          | c :: s' => if atom_ok ic a c then m_items n body' s' k else None
          | [] => None
          end
      | IStar a => star a s (fun s' => m_items n body' s' k)
      | IPlus a =>
          match s with
          | c :: s' =>
              if atom_ok ic a c then star a s' (fun s' => m_items n body' s' k)
              else None
          | [] => None
          end
      end
  end.

Fixpoint m_nodes (n : nat) (ns : list node) (s : jsstring)
    (caps : list jsstring) (k : jsstring -> list jsstring -> option R)
    : option R :=
  match ns with
  | [] => k s caps
  | NItem i :: ns' => m_items n [i] s (fun s' => m_nodes n ns' s' caps k)
  | NGroup body :: ns' =>
      m_items n body s (fun s' =>
        m_nodes n ns' s' (caps ++ [take (length s - length s') s]) k)
  end.
End Matcher.

(** The result of a successful match: the array [[whole, group1, ...]], its
    [index], and the input after the match. *)
Record RegExpMatch := { groups : list jsstring; index : nat; after : jsstring }.

Definition match_at (re : RegExp) (n i : nat) (s : jsstring) : option RegExpMatch :=
  m_nodes (ignoreCase re) n (source re) s []
    (fun s' caps =>
       Some {| groups := take (length s - length s') s :: caps;
               index := i; after := s' |}).

Fixpoint exec_from (re : RegExp) (n i : nat) (s : jsstring) : option RegExpMatch :=
  match match_at re n i s with
  | Some m => Some m
  | None =>
      match s with
      | [] => None
      | _ :: s' => exec_from re n (S i) s'
      end
  end.

(** [re.exec(s)] and [s.match(re)] for a pattern without the [g] flag. *)
Definition exec (re : RegExp) (s : jsstring) : option RegExpMatch :=
  exec_from re (length s) 0 s.

(** [re.test(s)]. *)
Definition test (re : RegExp) (s : jsstring) : bool :=
  match exec re s with Some _ => true | None => false end.

(** [s.replace(re, '')] for a pattern without the [g] flag. *)
Definition replace_empty (re : RegExp) (s : jsstring) : jsstring :=
  match exec re s with
  | Some m => take (index m) s ++ after m
  | None => s
  end.

Definition lit (a : ascii) : item := IAtom (ASet false [CChar (ch a)]).

End Regex.
Export Regex.

(** ** The patterns of [constants.ts] and the inline patterns of the parser

    The comments give each pattern of the source with spaces between its
    parts. *)

Module PATTERNS.

Definition upper_or_underscore : atom :=
  ASet false [CRange (ch "A") (ch "Z"); CChar (ch "_")].
Definition upper_digit_or_underscore : atom :=
  ASet false [CRange (ch "A") (ch "Z"); CRange (ch "0") (ch "9"); CChar (ch "_")].
Definition space : atom := ASet false [CSpace].
Definition digit : atom := ASet false [CDigit].

(** ENV_KEY:  ^ [A-Z_] [A-Z0-9_]* $ *)
Definition ENV_KEY : RegExp :=
  {| source := [NItem IBol; NItem (IAtom upper_or_underscore);
                NItem (IStar upper_digit_or_underscore); NItem IEol];
     ignoreCase := false |}.

(** ENV_LINE:  ^ \s* ( [A-Z_] [A-Z0-9_]* ) = ( .* ) $   with flag i *)
Definition ENV_LINE : RegExp :=
  {| source := [NItem IBol; NItem (IStar space);
                NGroup [IAtom upper_or_underscore; IStar upper_digit_or_underscore];
                NItem (lit "="); NGroup [IStar ADot]; NItem IEol];
     ignoreCase := true |}.

(** COMMENT:  ^ \s* # *)
Definition COMMENT : RegExp :=
  {| source := [NItem IBol; NItem (IStar space); NItem (lit "#")];
     ignoreCase := false |}.

(** The pattern written inline in the parser and in the validator:
    ^ \s* export \s+ ( [^=]+ ) = ( .* ) $   with flag i *)
Definition EXPORT_LINE : RegExp :=
  {| source := [NItem IBol; NItem (IStar space);
                NItem (lit "e"); NItem (lit "x"); NItem (lit "p");
                NItem (lit "o"); NItem (lit "r"); NItem (lit "t");
                NItem (IPlus space);
                NGroup [IPlus (ASet true [CChar (ch "=")])];
                NItem (lit "="); NGroup [IStar ADot]; NItem IEol];
     ignoreCase := true |}.

(** The test of the validator for a space in a value:  \s *)
Definition HAS_SPACE : RegExp :=
  {| source := [NItem (IAtom space)]; ignoreCase := false |}.

(** The class of [shouldQuoteValue]: [\s], [=], both quotes, [$], the
    backtick, the backslash and [\n]. *)
Definition quoting_class : atom :=
  ASet false [CSpace; CChar (ch "="); CChar SQ; CChar DQ; CChar (ch "$");
              CChar (ch "`"); CChar BSL; CChar LF].

Definition NEEDS_QUOTES : RegExp :=
  {| source := [NItem (IAtom quoting_class)]; ignoreCase := false |}.

(** The patterns of the lint command:  ^ Line_ ( \d+ ) :  and
    ^ Line_ \d+ : _  where _ stands for one space. *)
Definition LINE_NUMBER : RegExp :=
  {| source := [NItem IBol; NItem (lit "L"); NItem (lit "i"); NItem (lit "n");
                NItem (lit "e"); NItem (lit " "); NGroup [IPlus digit];
                NItem (lit ":")];
     ignoreCase := false |}.

Definition LINE_PREFIX : RegExp :=
  {| source := [NItem IBol; NItem (lit "L"); NItem (lit "i"); NItem (lit "n");
                NItem (lit "e"); NItem (lit " "); NItem (IPlus digit);
                NItem (lit ":"); NItem (lit " ")];
     ignoreCase := false |}.

End PATTERNS.
Import PATTERNS.

(** ** Exceptions

    The only way the functions below can throw is a method call on
    [undefined], where an element of a match array is used. *)

Inductive exn := TypeError.

Inductive result (A : Type) :=
| Ok (a : A)
| Throw (e : exn).
Arguments Ok {A} a.
Arguments Throw {A} e.

#[global] Instance result_ret : MRet result := fun A a => Ok a.
#[global] Instance result_bind : MBind result := fun A B f m =>
  match m with
  | Ok a => f a
  | Throw e => Throw e
  end.

(** [m[i]]: [undefined] past the end of the array; the method call that
    follows throws on it. *)
Definition group (m : RegExpMatch) (i : nat) : result jsstring :=
  match groups m !! i with
  | Some g => Ok g
  | None => Throw TypeError
  end.

(** [for (let i = 0; i < xs.length; i++) body], threading the loop state and
    stopping at the first exception; the index is passed to the body. *)
Fixpoint for_each {S A : Type} (body : nat -> A -> S -> result S)
    (i : nat) (xs : list A) (st : S) : result S :=
  match xs with
  | [] => Ok st
  | x :: xs' => st' ← body i x st; for_each body (Datatypes.S i) xs' st'
  end.

(** ** Objects used as string maps *)

Module Env.

(** The own enumerable properties of an [EnvObject], in property order.  No
    key of an object built by the parser is an array index, so property order
    is insertion order. *)
Abbreviation EnvObject := (list (jsstring * jsstring)).

Fixpoint own (env : EnvObject) (key : jsstring) : option jsstring :=
  match env with
  | [] => None
  | (k, v) :: env' => if decide (k = key) then Some v else own env' key
  end.

(** The properties every object literal inherits from [Object.prototype]. *)
Definition inherited : list jsstring :=
  [js "constructor"; js "__defineGetter__"; js "__defineSetter__";
   js "hasOwnProperty"; js "__lookupGetter__"; js "__lookupSetter__";
   js "isPrototypeOf"; js "propertyIsEnumerable"; js "toString";
   js "valueOf"; js "__proto__"; js "toLocaleString"].

(** What [env[key]] evaluates to. *)
Inductive value :=
| VString (s : jsstring)
| VUndefined
| VInherited (name : jsstring).   (* a member of [Object.prototype] *)

#[global] Instance value_eq_dec : EqDecision value.
Proof. solve_decision. Defined.

Definition get (env : EnvObject) (key : jsstring) : value :=
  match own env key with
  | Some v => VString v
  | None => if bool_decide (key ∈ inherited) then VInherited key else VUndefined
  end.

(** [key in env]: own or inherited. *)
Definition has (env : EnvObject) (key : jsstring) : bool :=
  match own env key with
  | Some _ => true
  | None => bool_decide (key ∈ inherited)
  end.

Fixpoint define (key v : jsstring) (env : EnvObject) : EnvObject :=
  match env with
  | [] => [(key, v)]
  | (k, w) :: env' =>
      if decide (k = key) then (k, v) :: env' else (k, w) :: define key v env'
  end.

(** [env[key] = v] for a string [v]: an own property is updated or created,
    except that [__proto__] is not created: where it is not an own property,
    the assignment reaches the inherited setter, which ignores a string. *)
Definition set (key v : jsstring) (env : EnvObject) : EnvObject :=
  if decide (key = js "__proto__") then
    match own env key with
    | Some _ => define key v env
    | None => env
    end
  else define key v env.

Definition keys (env : EnvObject) : list jsstring := env.*1.

(** [{ ...a, ...b }]. *)
Definition spread (a b : EnvObject) : EnvObject :=
  foldl (fun acc kv => define kv.1 kv.2 acc) a b.

End Env.
Import Env.

(** ** [utils/envParser.ts] *)

Module EnvParser.

(** [processValue]: one pair of surrounding quotes is removed. *)
Definition processValue (value : jsstring) : jsstring :=
  if (startsWith value [DQ] && endsWith value [DQ])
     || (startsWith value [SQ] && endsWith value [SQ])
  then slice value 1 (-1)
  else value.

(** The variables of the loop of [parseEnvContent]. *)
Record pstate := {
  env : EnvObject;
  currentKey : option jsstring;    (* [None] is [null] *)
  currentValue : jsstring
}.

(** One iteration of the loop of [parseEnvContent]. *)
Definition parse_line (line : jsstring) (st : pstate) : result pstate :=
  match currentKey st with
  | Some key =>
      (* a continuation is open *)
      if endsWith line [BSL] then
        Ok {| env := env st; currentKey := Some key;
              currentValue := currentValue st ++ slice line 0 (-1) ++ [LF] |}
      else
        Ok {| env := Env.set key (processValue (currentValue st ++ line)) (env st);
              currentKey := None; currentValue := [] |}
  | None =>
      let trimmed := trim line in
      if negb (truthy trimmed) then Ok st
      else if test COMMENT trimmed then Ok st
      else
        match exec ENV_LINE trimmed with
        | Some m =>
            g1 ← group m 1;
            let key := trim g1 in
            g2 ← group m 2;
            let value := trim g2 in
            match exec EXPORT_LINE trimmed with
            | Some exportMatch =>
                e1 ← group exportMatch 1;
                let exportKey := trim e1 in
                e2 ← group exportMatch 2;
                let value := trim e2 in
                Ok {| env := Env.set exportKey (processValue value) (env st);
                      currentKey := None; currentValue := currentValue st |}
            | None =>
                if endsWith value [BSL] then
                  Ok {| env := env st; currentKey := Some key;
                        currentValue := slice value 0 (-1) |}
                else
                  Ok {| env := Env.set key (processValue value) (env st);
                        currentKey := None; currentValue := currentValue st |}
            end
        | None => Ok st
        end
  end.

Definition parse_init : pstate :=
  {| env := []; currentKey := None; currentValue := [] |}.

(** After the loop: a continuation still open is closed. *)
Definition parse_finish (st : pstate) : EnvObject :=
  match currentKey st with
  | Some key => Env.set key (processValue (currentValue st)) (env st)
  | None => env st
  end.

Definition parse_lines (lines : list jsstring) (st : pstate) : result pstate :=
  for_each (fun _ line st => parse_line line st) 0 lines st.

Definition parseEnvContent (content : jsstring) : result EnvObject :=
  st ← parse_lines (split_lf content) parse_init;
  Ok (parse_finish st).

(** [isQuoted] *)
Definition isQuoted (value : jsstring) : bool :=
  (startsWith value [DQ] && endsWith value [DQ])
  || (startsWith value [SQ] && endsWith value [SQ]).

(** The messages of the validator. *)
Definition line_prefix (lineNum : nat) : jsstring :=
  js "Line " ++ numToString lineNum ++ js ": ".

Definition msg_invalid_syntax (lineNum : nat) : jsstring :=
  line_prefix lineNum ++ js "Invalid syntax - expected KEY=VALUE format".

Definition msg_empty_key (lineNum : nat) : jsstring :=
  line_prefix lineNum ++ js "Empty key".

Definition msg_invalid_key (lineNum : nat) (key : jsstring) : jsstring :=
  line_prefix lineNum ++ js "Invalid key " ++ [DQ] ++ key ++ [DQ]
  ++ js " - use uppercase letters, numbers, and underscores".

Definition msg_duplicate_key (lineNum : nat) (key : jsstring) : jsstring :=
  line_prefix lineNum ++ js "Duplicate key " ++ [DQ] ++ key ++ [DQ].

Definition msg_unquoted (lineNum : nat) (key value : jsstring) : jsstring :=
  line_prefix lineNum ++ js "Unquoted value with spaces - consider quoting: "
  ++ key ++ js "=" ++ [DQ] ++ value ++ [DQ].

(** The two accumulators of [validateEnvContent]: the set [keys] and the
    array [errors]. *)
Record vstate := {
  keys : gset jsstring;
  errors : list jsstring
}.

Definition push (msg : jsstring) (st : vstate) : vstate :=
  {| keys := keys st; errors := errors st ++ [msg] |}.

(** [validateKey] *)
Definition validateKey (key : jsstring) (lineNum : nat) (st : vstate) : vstate :=
  if negb (truthy key) then push (msg_empty_key lineNum) st
  else if negb (test ENV_KEY key) then push (msg_invalid_key lineNum key) st
  else if bool_decide (key ∈ keys st) then push (msg_duplicate_key lineNum key) st
  else {| keys := {[ key ]} ∪ keys st; errors := errors st |}.

(** One iteration of the loop of [validateEnvContent].  The source reassigns
    [line] without its trailing backslash and goes on matching [trimmed]. *)
Definition validate_line (i : nat) (line : jsstring) (st : vstate) : result vstate :=
  let lineNum := (i + 1)%nat in
  let trimmed := trim line in
  if negb (truthy trimmed) || test COMMENT trimmed then Ok st
  else
    let line := if endsWith line [BSL] then trim (slice line 0 (-1)) else line in
    match exec ENV_LINE trimmed with
    | None =>
        match exec EXPORT_LINE trimmed with
        | None => Ok (push (msg_invalid_syntax lineNum) st)
        | Some exportMatch =>
            e1 ← group exportMatch 1;
            let key := trim e1 in
            Ok (validateKey key lineNum st)
        end
    | Some m =>
        g1 ← group m 1;
        let key := trim g1 in
        g2 ← group m 2;
        let value := trim g2 in
        let st := validateKey key lineNum st in
        if truthy value && negb (isQuoted value) && test HAS_SPACE value
        then Ok (push (msg_unquoted lineNum key value) st)
        else Ok st
    end.

Definition validate_init : vstate := {| keys := ∅; errors := [] |}.

Definition validate_lines (i : nat) (lines : list jsstring) (st : vstate)
    : result vstate :=
  for_each validate_line i lines st.

Definition validateEnvContent (content : jsstring) : result (list jsstring) :=
  st ← validate_lines 0 (split_lf content) validate_init;
  Ok (errors st).

(** [shouldQuoteValue] *)
Definition shouldQuoteValue (value : jsstring) : bool := test NEEDS_QUOTES value.

(** [stringifyEnv] *)
Definition stringify_entry (kv : jsstring * jsstring) : jsstring :=
  let quotedValue :=
    if shouldQuoteValue kv.2 then [DQ] ++ kv.2 ++ [DQ] else kv.2 in
  kv.1 ++ js "=" ++ quotedValue.

Definition stringifyEnv (env : EnvObject) : jsstring :=
  join [LF] (map stringify_entry env).

(** [mergeEnv]: [envs.reduce((acc, env) => ({ ...acc, ...env }), {})] *)
Definition mergeEnv (envs : list EnvObject) : EnvObject :=
  foldl (fun acc env => spread (spread [] acc) env) [] envs.

(** [getMissingKeys] and [getExtraKeys] *)
Definition getMissingKeys (target source : EnvObject) : list jsstring :=
  filter (fun key => negb (Env.has target key) = true) (Env.keys source).

Definition getExtraKeys (target source : EnvObject) : list jsstring :=
  filter (fun key => negb (Env.has source key) = true) (Env.keys target).

(** [Array.from(new Set(xs))]: the first occurrence of each element, in order. *)
Definition array_from_set (xs : list jsstring) : list jsstring :=
  foldl (fun acc x => if bool_decide (x ∈ acc) then acc else acc ++ [x]) [] xs.

(** [getDifferentKeys] *)
Definition getDifferentKeys (env1 env2 : EnvObject) : list jsstring :=
  let keys := array_from_set (Env.keys env1 ++ Env.keys env2) in
  filter (fun key => Env.get env1 key ≠ Env.get env2 key) keys.

End EnvParser.
Import EnvParser.

(** ** The [preserve] and [merge] branches of [commands/sync.ts] *)

Module Sync.

(** [mergedObject[key] = sourceObject[key]]; every [key] of the loop is an own
    key of [sourceObject], so its value is a string. *)
Definition copy_key (sourceObject : EnvObject) (mergedObject : EnvObject)
    (key : jsstring) : EnvObject :=
  match Env.own sourceObject key with
  | Some v => Env.set key v mergedObject
  | None => mergedObject
  end.

Definition preserve (sourceObject targetObject : EnvObject) : EnvObject :=
  let mergedObject := spread [] targetObject in
  let missingKeys := getMissingKeys targetObject sourceObject in
  foldl (copy_key sourceObject) mergedObject missingKeys.

Definition merge (sourceObject targetObject : EnvObject) : EnvObject :=
  mergeEnv [targetObject; sourceObject].

End Sync.

(** ** The collection of validation errors in [commands/lint.ts] *)

Module Lint.

Inductive severity := error | warning.

Record issue := {
  line : nat;
  message : jsstring;
  sev : severity
}.

(** The body of the loop over [validationErrors].  The capture of the digits
    always exists when the pattern matches. *)
Definition issue_of (err : jsstring) : issue :=
  let lineMatch := exec LINE_NUMBER err in
  let lineNum :=
    match lineMatch with
    | Some m => parseInt (default [] (groups m !! 1%nat))
    | None => 0%nat
    end in
  {| line := lineNum; message := replace_empty LINE_PREFIX err; sev := error |}.

Definition validation_issues (validationErrors : list jsstring) : list issue :=
  map issue_of validationErrors.

End Lint.

(** ** Readings of the patterns and of the validator

    Functions that say what a pattern matches and what one line adds to the
    result of the validator; the lemmas below relate each of them to the
    definition it reads. *)

(** The number of capturing groups of a pattern. *)
Fixpoint ngroups (ns : list node) : nat :=
  match ns with
  | [] => 0
  | NItem _ :: ns' => ngroups ns'
  | NGroup _ :: ns' => Datatypes.S (ngroups ns')
  end.

(** The classes of [ENV_LINE] under its [i] flag, and [.]. *)
Definition key_start : N -> bool := atom_ok true upper_or_underscore.
Definition key_char : N -> bool := atom_ok true upper_digit_or_underscore.
Definition not_terminator : N -> bool := atom_ok true ADot.

(** [ENV_LINE] read as a function: leading spaces, a key, [=], and a rest
    without line terminators. *)
Definition env_line (s : jsstring) : option RegExpMatch :=
  match skip is_space s with
  | c :: r =>
      if key_start c then
        match skip key_char r with
        | e :: v =>
            if (e =? ch "=") && forallb not_terminator v
            then Some {| groups := [s; c :: run key_char r; v];
                         index := 0; after := [] |}
            else None
        | [] => None
        end
      else None
  | [] => None
  end.

(** The classes of [ENV_KEY], which has no flag, and [\d]. *)
Definition upper_start : N -> bool := atom_ok false upper_or_underscore.
Definition upper_char : N -> bool := atom_ok false upper_digit_or_underscore.
Definition is_digit : N -> bool := atom_ok false digit.

(** How the validator reads one line: the tests of [validate_line], in its
    order, without the accumulators. *)
Inductive line_kind :=
| Skipped                              (* blank or comment *)
| Plain (key value : jsstring)         (* KEY=VALUE *)
| Exported (key : jsstring)            (* export KEY=VALUE *)
| Malformed.

Definition classify (line : jsstring) : line_kind :=
  let trimmed := trim line in
  if negb (truthy trimmed) || test COMMENT trimmed then Skipped
  else
    match exec ENV_LINE trimmed with
    | Some m =>
        match groups m !! 1%nat, groups m !! 2%nat with
        | Some g1, Some g2 => Plain (trim g1) (trim g2)
        | _, _ => Malformed
        end
    | None =>
        match exec EXPORT_LINE trimmed with
        | Some m =>
            match groups m !! 1%nat with
            | Some g1 => Exported (trim g1)
            | None => Malformed
            end
        | None => Malformed
        end
    end.

(** The key that the validator hands to [validateKey] for a line. *)
Definition key_of_line (line : jsstring) : option jsstring :=
  match classify line with
  | Plain key _ | Exported key => Some key
  | _ => None
  end.

(** The test of the validator on a value: non-empty, not quoted, with a
    space. *)
Definition unquoted_with_spaces (value : jsstring) : bool :=
  truthy value && negb (isQuoted value) && test HAS_SPACE value.

(** The messages [validateKey] adds for a key, given the keys seen so far. *)
Definition key_errors (key : jsstring) (lineNum : nat) (ks : gset jsstring)
    : list jsstring :=
  if negb (truthy key) then [msg_empty_key lineNum]
  else if negb (test ENV_KEY key) then [msg_invalid_key lineNum key]
  else if bool_decide (key ∈ ks) then [msg_duplicate_key lineNum key]
  else [].

(** The messages the validator adds for the line of index [i]. *)
Definition line_errors (i : nat) (line : jsstring) (ks : gset jsstring)
    : list jsstring :=
  match classify line with
  | Skipped => []
  | Plain key value =>
      key_errors key (i + 1) ks
      ++ (if unquoted_with_spaces value
          then [msg_unquoted (i + 1) key value] else [])
  | Exported key => key_errors key (i + 1) ks
  | Malformed => [msg_invalid_syntax (i + 1)]
  end.

(** The keys the validator has recorded after a line. *)
Definition line_keys (line : jsstring) (ks : gset jsstring) : gset jsstring :=
  match key_of_line line with
  | Some key => if test ENV_KEY key then {[ key ]} ∪ ks else ks
  | None => ks
  end.

(** The keys recorded after a run of lines. *)
Definition keys_after (lines : list jsstring) (ks : gset jsstring) : gset jsstring :=
  foldl (fun ks line => line_keys line ks) ks lines.

(** The messages of the lines from index [i] on. *)
Fixpoint all_errors (i : nat) (lines : list jsstring) (ks : gset jsstring)
    : list jsstring :=
  match lines with
  | [] => []
  | line :: lines' =>
      line_errors i line ks ++ all_errors (Datatypes.S i) lines' (line_keys line ks)
  end.

(** A key that [ENV_LINE] can capture: [A-Za-z_] then [A-Za-z0-9_]*. *)
Definition is_identifier (key : jsstring) : bool :=
  match key with
  | c :: r => key_start c && forallb key_char r
  | [] => false
  end.

(** The class of [shouldQuoteValue]. *)
Definition needs_quotes : N -> bool := atom_ok false quoting_class.

(** A value as [stringifyEnv] writes it. *)
Definition written (v : jsstring) : jsstring :=
  if shouldQuoteValue v then [DQ] ++ v ++ [DQ] else v.

(** An entry that [stringifyEnv] and the parser carry through: the key is an
    identifier other than [__proto__], the value has no line terminator. *)
Definition portable_entry (kv : jsstring * jsstring) : bool :=
  is_identifier kv.1 && negb (bool_decide (kv.1 = js "__proto__"))
  && forallb not_terminator kv.2.

(** * The rest of the parser module and the commands *)

(** ** More of the language: global matches, substring search *)

Module JSMore.

(** [s.match(re)] for a pattern with the [g] flag: the whole matches from
    left to right.  Each search starts where the last match ended, one code
    unit further after an empty match; [wait] counts the code units still to
    pass before the next search.  [null] is the empty list. *)
Fixpoint match_all_from (re : RegExp) (n : nat) (wait : nat) (s : jsstring)
    : list jsstring :=
  match wait with
  | Datatypes.S w =>
      match s with
      | _ :: s' => match_all_from re n w s'
      | [] => []
      end
  | 0%nat =>
      match match_at re n 0 s with
      | Some m =>
          let whole := default [] (groups m !! 0%nat) in
          whole :: match s with
                   | _ :: s' => match_all_from re n (Nat.pred (length whole)) s'
                   | [] => []
                   end
      | None =>
          match s with
          | _ :: s' => match_all_from re n 0 s'
          | [] => []
          end
      end
  end.

Definition match_all (re : RegExp) (s : jsstring) : list jsstring :=
  match_all_from re (length s) 0 s.

(** [s.replace(pat, rep)] for a string [pat] and a replacement without
    dollar signs: the first occurrence only. *)
Fixpoint replace_first (pat rep s : jsstring) : jsstring :=
  if startsWith s pat then rep ++ drop (length pat) s
  else match s with
       | [] => []
       | c :: s' => c :: replace_first pat rep s'
       end.

(** [s.includes(t)] *)
Fixpoint includes (s t : jsstring) : bool :=
  startsWith s t
  || match s with
     | [] => false
     | _ :: s' => includes s' t
     end.

(** The truth value of [env[key]] in a boolean position: a non-empty string,
    or an inherited member. *)
Definition truthy_value (v : Env.value) : bool :=
  match v with
  | VString s => truthy s
  | VUndefined => false
  | VInherited _ => true
  end.

End JSMore.

(** ** More patterns *)

Module PATTERNS2.

(** PROCESS_ENV:  process \. env \. ( [A-Z_] [A-Z0-9_]* )   with flag g *)
Definition PROCESS_ENV : RegExp :=
  {| source := [NItem (lit "p"); NItem (lit "r"); NItem (lit "o"); NItem (lit "c");
                NItem (lit "e"); NItem (lit "s"); NItem (lit "s"); NItem (lit ".");
                NItem (lit "e"); NItem (lit "n"); NItem (lit "v"); NItem (lit ".");
                NGroup [IAtom upper_or_underscore; IStar upper_digit_or_underscore]];
     ignoreCase := false |}.

(** The test of the lint command for an unquoted value, with Q for the class
    of the two quotes and the backtick:
    ^ [A-Z_] [A-Z0-9_]* \s* = \s* ( [^Q] .* _ .* )   where _ is one space *)
Definition LINT_UNQUOTED : RegExp :=
  {| source := [NItem IBol; NItem (IAtom upper_or_underscore);
                NItem (IStar upper_digit_or_underscore); NItem (IStar space);
                NItem (lit "="); NItem (IStar space);
                NGroup [IAtom (ASet true [CChar DQ; CChar SQ; CChar (ch "`")]);
                        IStar ADot; lit " "; IStar ADot]];
     ignoreCase := false |}.

(** The second alternative of the test of [formatEnvFile],  \s | [&|><\;] ;
    the first is [HAS_SPACE]. *)
Definition SHELL_SPECIAL : RegExp :=
  {| source := [NItem (IAtom (ASet false
        [CChar (ch "&"); CChar (ch "|"); CChar (ch ">"); CChar (ch "<");
         CChar BSL; CChar (ch ";")]))];
     ignoreCase := false |}.

End PATTERNS2.

(** ** The rest of [utils/envParser.ts] *)

Module EnvEntry.
Record t := { key : jsstring; value : jsstring; line : nat }.
End EnvEntry.

Module EnvParser2.

(** One iteration of the loop of [parseEnvEntries]. *)
Definition entries_line (i : nat) (line : jsstring) (entries : list EnvEntry.t)
    : result (list EnvEntry.t) :=
  let trimmed := trim line in
  let currentLine := (i + 1)%nat in
  if negb (truthy trimmed) || test COMMENT trimmed then Ok entries
  else
    match exec ENV_LINE trimmed with
    | Some m =>
        g1 ← group m 1;
        let key := trim g1 in
        g2 ← group m 2;
        let value := trim g2 in
        value ← match exec EXPORT_LINE trimmed with
                | Some exportMatch => e2 ← group exportMatch 2; Ok (trim e2)
                | None => Ok value
                end;
        Ok (entries ++ [ {| EnvEntry.key := key;
                            EnvEntry.value := processValue value;
                            EnvEntry.line := currentLine |} ])
    | None => Ok entries
    end.

(** [parseEnvEntries] *)
Definition parseEnvEntries (content : jsstring) : result (list EnvEntry.t) :=
  for_each entries_line 0 (split_lf content) [].

(** [filterEnv] *)
Definition filterEnv (env : EnvObject) (keys : list jsstring) : EnvObject :=
  foldl (fun result kv =>
           if bool_decide (kv.1 ∈ keys) then Env.set kv.1 kv.2 result else result)
        [] env.

(** [extractVariablesFromCode] *)
Definition extractVariablesFromCode (code : jsstring) : list jsstring :=
  let matches := JSMore.match_all PATTERNS2.PROCESS_ENV code in
  array_from_set
    (map (fun m => JSMore.replace_first (js "process.env.") [] m) matches).

End EnvParser2.

(** ** [commands/diff.ts], between reading the two files and the result *)

Module Diff.

Record data := {
  added : list jsstring;
  removed : list jsstring;
  changed : list jsstring;
  unchanged : list jsstring
}.

Definition compare (fromObject toObject : EnvObject) : data :=
  let added := getMissingKeys fromObject toObject in
  let removed := getExtraKeys fromObject toObject in
  let changed := getDifferentKeys fromObject toObject in
  let unchanged :=
    filter (fun k => negb (bool_decide (k ∈ added)) && negb (bool_decide (k ∈ removed))
                     && negb (bool_decide (k ∈ changed)) = true)
           (Env.keys fromObject) in
  {| added := added; removed := removed; changed := changed; unchanged := unchanged |}.

Definition identical_message : jsstring :=
  js "Files are identical. No differences found.".

Definition part (label : string) (ks : list jsstring) : jsstring :=
  match ks with
  | [] => []
  | _ => js label ++ join (js ", ") ks
  end.

Definition message (d : data) : jsstring :=
  match added d, removed d, changed d with
  | [], [], [] => identical_message
  | _, _, _ =>
      js "Diff complete: " ++ part "Added: " (added d) ++ js " "
      ++ part "Removed: " (removed d) ++ js " " ++ part "Changed: " (changed d)
  end.

Record outcome := { success : bool; text : jsstring; details : data }.

(** [diffCommand] on two files that exist, given the texts that [readFile]
    returns for them. *)
Definition diffCommand (fromContent toContent : jsstring) : result outcome :=
  fromObject ← parseEnvContent fromContent;
  toObject ← parseEnvContent toContent;
  let d := compare fromObject toObject in
  Ok {| success := true; text := message d; details := d |}.

End Diff.

(** ** [commands/sync.ts], between reading the two files and writing the
    target *)

Module SyncCommand.

Inductive strategy := merge | overwrite | preserve.

Definition merged (s : strategy) (sourceObject targetObject : EnvObject) : EnvObject :=
  match s with
  | overwrite => spread [] sourceObject
  | preserve => Sync.preserve sourceObject targetObject
  | merge => Sync.merge sourceObject targetObject
  end.

(** The test of [formatEnvFile]: a non-empty value in which the pattern of
    two alternatives matches somewhere, that is, in which one of the
    alternatives matches somewhere. *)
Definition needs_quotes (value : jsstring) : bool :=
  truthy value && (test HAS_SPACE value || test PATTERNS2.SHELL_SPECIAL value).

Definition format_entry (kv : jsstring * jsstring) : jsstring :=
  if needs_quotes kv.2 then kv.1 ++ js "=" ++ [DQ] ++ kv.2 ++ [DQ]
  else kv.1 ++ js "=" ++ kv.2.

(** [formatEnvFile] *)
Definition formatEnvFile (envObj : EnvObject) : jsstring :=
  join [LF] (map format_entry envObj).

Record outcome := {
  formattedContent : jsstring;     (* what is written to the target *)
  addedCount : nat;
  keptCount : nat
}.

(** [syncCommand] on two files that exist, given the texts that [readFile]
    returns for them. *)
Definition syncCommand (s : strategy) (sourceContent targetContent : jsstring)
    : result outcome :=
  sourceObject ← parseEnvContent sourceContent;
  targetObject ← parseEnvContent targetContent;
  let mergedObject := merged s sourceObject targetObject in
  Ok {| formattedContent := formatEnvFile mergedObject;
        addedCount := length (getMissingKeys targetObject sourceObject);
        keptCount :=
          length (filter (fun k => JSMore.truthy_value (Env.get mergedObject k) = true)
                         (Env.keys targetObject)) |}.

End SyncCommand.

(** ** [commands/lint.ts], after the file is read *)

Module LintCommand.

Definition whitespace_issue (lineNum : nat) : Lint.issue :=
  {| Lint.line := lineNum; Lint.message := js "Line contains only whitespace";
     Lint.sev := Lint.warning |}.

Definition unquoted_issue (lineNum : nat) : Lint.issue :=
  {| Lint.line := lineNum; Lint.message := js "Value with spaces should be quoted";
     Lint.sev := Lint.warning |}.

(** The additional checks on the line of index [i]. *)
Definition additional (i : nat) (line : jsstring) : list Lint.issue :=
  let lineNum := (i + 1)%nat in
  (if bool_decide (trim line = []) && (0 <? length line)%nat
   then [whitespace_issue lineNum] else [])
  ++ (if test PATTERNS2.LINT_UNQUOTED line && negb (JSMore.includes line (js "#"))
      then [unquoted_issue lineNum] else []).

Definition additional_issues (content : jsstring) : list Lint.issue :=
  concat (imap additional (split_lf content)).

Definition is_error (i : Lint.issue) : bool :=
  match Lint.sev i with Lint.error => true | Lint.warning => false end.

Definition is_warning (i : Lint.issue) : bool :=
  match Lint.sev i with Lint.error => false | Lint.warning => true end.

Record outcome := {
  success : bool;
  text : jsstring;
  errorCount : nat;
  warningCount : nat;
  keyCount : nat;
  shown : list Lint.issue      (* [data.issues] *)
}.

Definition CHECK_MARK : N := 9989.    (* U+2705 *)
Definition CROSS_MARK : N := 10060.   (* U+274C *)

(** [lintCommand] on a file that exists, given the text that [readFile]
    returns for it and the options [strict] and [warnings]. *)
Definition lintCommand (content : jsstring) (strict warnings : bool) : result outcome :=
  validationErrors ← validateEnvContent content;
  parseResult ← parseEnvContent content;
  let issues := Lint.validation_issues validationErrors ++ additional_issues content in
  let errorCount := length (filter (fun i => is_error i = true) issues) in
  let warningCount := length (filter (fun i => is_warning i = true) issues) in
  let valid := (errorCount =? 0)%nat && (negb strict || (warningCount =? 0)%nat) in
  let keyCount := length (Env.keys parseResult) in
  Ok {| success := valid;
        text :=
          if valid
          then [CHECK_MARK] ++ js " No issues found (" ++ numToString keyCount ++ js " keys)"
          else [CROSS_MARK] ++ js " Found " ++ numToString errorCount ++ js " error(s) and "
               ++ numToString warningCount ++ js " warning(s)";
        errorCount := errorCount;
        warningCount := warningCount;
        keyCount := keyCount;
        shown := if warnings then issues else filter (fun i => is_error i = true) issues |}.

End LintCommand.

(** ** [commands/init.ts] and [commands/validate.ts], after the files are
    read *)

Module InitCommand.

(** The object with every key of [envObject] and empty values. *)
Definition exampleObject (envObject : EnvObject) : EnvObject :=
  foldl (fun o key => Env.set key [] o) [] (Env.keys envObject).

(** What [initCommand] writes to the example file, and the count it reports,
    given the text that [readFile] returns for the env file. *)
Definition initCommand (envContent : jsstring) : result (jsstring * nat) :=
  envObject ← parseEnvContent envContent;
  let example := exampleObject envObject in
  Ok (stringifyEnv example, length (Env.keys example)).

End InitCommand.

Module ValidateCommand.

Record outcome := {
  success : bool;
  valid : bool;
  matched : nat;
  missing : list jsstring;
  extra : list jsstring
}.

(** [validateCommand] on two files that exist, given the texts that
    [readFile] returns for them and the option [strict]. *)
Definition validateCommand (envContent exampleContent : jsstring) (strict : bool)
    : result outcome :=
  env ← parseEnvContent envContent;
  example ← parseEnvContent exampleContent;
  let missing := getMissingKeys env example in
  let extra := getExtraKeys env example in
  let matched := length (filter (fun key => Env.has env key = true) (Env.keys example)) in
  let isValid := (length missing =? 0)%nat in
  let shouldFail :=
    (0 <? length missing)%nat || (strict && (0 <? length extra)%nat) in
  let valid := isValid && (negb strict || (length extra =? 0)%nat) in
  Ok {| success :=
          if isValid && ((length extra =? 0)%nat || negb strict) then true
          else negb shouldFail;
        valid := valid; matched := matched; missing := missing; extra := extra |}.

End ValidateCommand.

(** ** Readings of the parser *)

(** A KEY=VALUE line whose value ends in a backslash: it opens a
    continuation. *)
Definition opens_continuation (line : jsstring) : bool :=
  match classify line with
  | Plain _ value => endsWith value [BSL]
  | _ => false
  end.

(** The entry that [parseEnvEntries] adds for the line of index [i]. *)
Definition line_entries (i : nat) (line : jsstring) : list EnvEntry.t :=
  match classify line with
  | Plain key value =>
      [ {| EnvEntry.key := key; EnvEntry.value := processValue value;
           EnvEntry.line := (i + 1)%nat |} ]
  | _ => []
  end.

Fixpoint entries_from (i : nat) (lines : list jsstring) : list EnvEntry.t :=
  match lines with
  | [] => []
  | line :: lines' => line_entries i line ++ entries_from (Datatypes.S i) lines'
  end.

(** [env[e.key] = e.value] for each entry in turn. *)
Definition assign_entries (entries : list EnvEntry.t) (env : EnvObject) : EnvObject :=
  foldl (fun env e => Env.set (EnvEntry.key e) (EnvEntry.value e) env) env entries.

(** The keys of an object are distinct identifiers, none of them
    [__proto__]. *)
Definition identifier_keys (env : EnvObject) : Prop :=
  NoDup (Env.keys env)
  /\ forall k, k ∈ Env.keys env -> is_identifier k = true /\ k ≠ js "__proto__".

(** What the loop of the parser keeps: identifier keys in the object and in
    the key of an open continuation. *)
Definition parse_inv (st : pstate) : Prop :=
  identifier_keys (env st)
  /\ forall k, currentKey st = Some k -> is_identifier k = true.

(** An entry that [formatEnvFile] and the parser carry through: as for
    [stringifyEnv], and a value that [formatEnvFile] leaves bare is not
    itself wrapped in quotes. *)
Definition sync_portable_entry (kv : jsstring * jsstring) : bool :=
  is_identifier kv.1 && negb (bool_decide (kv.1 = js "__proto__"))
  && forallb not_terminator kv.2
  && (SyncCommand.needs_quotes kv.2 || negb (isQuoted kv.2)).

(** The class of the second alternative of [formatEnvFile]. *)
Definition shell_special : N -> bool :=
  atom_ok false (ASet false
    [CChar (ch "&"); CChar (ch "|"); CChar (ch ">"); CChar (ch "<");
     CChar BSL; CChar (ch ";")]).

(** A line on which the validator stays silent, given the lines before it:
    blank, a comment, or a line with a well-formed key that no earlier line
    carries and, without the export prefix, a value that is quoted or free
    of spaces. *)
Definition silent_line (earlier : list jsstring) (line : jsstring) : Prop :=
  match classify line with
  | Skipped => True
  | Plain key value =>
      test ENV_KEY key = true /\ unquoted_with_spaces value = false
      /\ Forall (fun l => key_of_line l <> Some key) earlier
  | Exported key =>
      test ENV_KEY key = true
      /\ Forall (fun l => key_of_line l <> Some key) earlier
  | Malformed => False
  end.

(** [envs[k]] as [mergeEnv] resolves it: the last object that has the key. *)
Definition last_own (envs : list EnvObject) (k : jsstring) : option jsstring :=
  foldl (fun r e => match Env.own e k with Some v => Some v | None => r end) None envs.

(** What the loop of the parser keeps, for a property [Q] of keys: it holds
    of the keys of the object and of the key of an open continuation. *)
Definition key_inv (Q : jsstring -> Prop) (st : pstate) : Prop :=
  (forall k, k ∈ Env.keys (env st) -> Q k)
  /\ forall k, currentKey st = Some k -> Q k.

(** What the lines of an open continuation that end in a backslash add to
    the value. *)
Definition continued (ls : list jsstring) : jsstring :=
  concat (map (fun l => slice l 0 (-1) ++ [LF]) ls).

(** ** [utils/fileUtils.ts]: what [readFile] does to the text it has read *)

Module FileUtils.

(** [text.replace(/\r\n/g, '\n')]: from left to right, every carriage return
    that a line feed follows is dropped. *)
Fixpoint replace_crlf (s : jsstring) : jsstring :=
  match s with
  | [] => []
  | c :: s' =>
      match s' with
      | d :: s'' =>
          if (c =? CR) && (d =? LF) then LF :: replace_crlf s'' else c :: replace_crlf s'
      | [] => [c]
      end
  end.

End FileUtils.

(** * Properties *)

(** ** Character classes *)

Ltac bool_to_prop :=
  repeat first
    [ rewrite orb_true_iff | rewrite andb_true_iff | rewrite orb_false_iff
    | rewrite andb_false_iff | rewrite negb_true_iff | rewrite negb_false_iff
    | rewrite N.eqb_eq | rewrite N.eqb_neq | rewrite N.leb_le | rewrite N.leb_gt ].

Ltac bool_to_prop_in H :=
  repeat first
    [ rewrite orb_true_iff in H | rewrite andb_true_iff in H | rewrite orb_false_iff in H
    | rewrite andb_false_iff in H | rewrite negb_true_iff in H | rewrite negb_false_iff in H
    | rewrite N.eqb_eq in H | rewrite N.eqb_neq in H | rewrite N.leb_le in H | rewrite N.leb_gt in H ].

Lemma is_space_spec c :
  is_space c = true <->
  c = 9 \/ c = 10 \/ c = 11 \/ c = 12 \/ c = 13 \/ c = 32 \/ c = 160 \/ c = 5760
  \/ (8192 <= c <= 8202) \/ c = 8232 \/ c = 8233 \/ c = 8239 \/ c = 8287
  \/ c = 12288 \/ c = 65279.
Proof. unfold is_space, is_line_terminator. bool_to_prop. lia. Qed.

Lemma key_start_spec c :
  atom_ok true upper_or_underscore c = true <->
  (65 <= c <= 90) \/ (97 <= c <= 122) \/ c = 95.
Proof.
  unfold atom_ok, upper_or_underscore, cset_has_ic, cset_has, toUpper, toLower, ch.
  cbn [existsb xorb N_of_ascii N_of_digits].
  destruct (97 <=? c) eqn:E1, (c <=? 122) eqn:E2, (65 <=? c) eqn:E3, (c <=? 90) eqn:E4;
  cbn [andb orb]; bool_to_prop_in E1; bool_to_prop_in E2; bool_to_prop_in E3; bool_to_prop_in E4; bool_to_prop; lia.
Qed.

Lemma key_char_spec c :
  atom_ok true upper_digit_or_underscore c = true <->
  (65 <= c <= 90) \/ (97 <= c <= 122) \/ (48 <= c <= 57) \/ c = 95.
Proof.
  unfold atom_ok, upper_digit_or_underscore, cset_has_ic, cset_has, toUpper, toLower, ch.
  cbn [existsb xorb N_of_ascii N_of_digits].
  destruct (97 <=? c) eqn:E1, (c <=? 122) eqn:E2, (65 <=? c) eqn:E3, (c <=? 90) eqn:E4;
  cbn [andb orb]; bool_to_prop_in E1; bool_to_prop_in E2; bool_to_prop_in E3; bool_to_prop_in E4; bool_to_prop; lia.
Qed.

Lemma space_ok ic c : atom_ok ic space c = is_space c.
Proof.
  destruct ic; [|by unfold atom_ok, space, cset_has_ic; cbn; rewrite orb_false_r].
  unfold atom_ok, space, cset_has_ic, cset_has. cbn [existsb xorb].
  rewrite orb_false_r.
  destruct (is_space c) eqn:E; [done|]. cbn [orb].
  apply orb_false_iff; split; apply not_true_is_false; intros H;
    apply not_true_iff_false in E; apply E; clear E;
    apply is_space_spec in H; apply is_space_spec;
    unfold toUpper, toLower in H.
  - destruct (97 <=? c) eqn:E1, (c <=? 122) eqn:E2; cbn [andb] in H;
      bool_to_prop_in E1; bool_to_prop_in E2; lia.
  - destruct (65 <=? c) eqn:E1, (c <=? 90) eqn:E2; cbn [andb] in H;
      bool_to_prop_in E1; bool_to_prop_in E2; lia.
Qed.

Lemma lit_ok_ic x c :
  atom_ok true (ASet false [CChar x]) c = (c =? x) || (toUpper c =? x) || (toLower c =? x).
Proof. unfold atom_ok, cset_has_ic, cset_has. cbn [existsb xorb]. by rewrite orb_false_r. Qed.

Lemma lit_ok x c : atom_ok false (ASet false [CChar x]) c = (c =? x).
Proof. unfold atom_ok, cset_has_ic, cset_has. cbn [existsb xorb]. by rewrite orb_false_r. Qed.

Lemma eq_ok_ic c : atom_ok true (ASet false [CChar (ch "=")]) c = (c =? 61).
Proof.
  rewrite lit_ok_ic. change (ch "=") with 61.
  destruct (c =? 61) eqn:E; [done|]. cbn [orb]. bool_to_prop_in E.
  apply orb_false_iff; split; apply N.eqb_neq; unfold toUpper, toLower.
  - destruct (97 <=? c) eqn:E1, (c <=? 122) eqn:E2; cbn [andb];
      bool_to_prop_in E1; bool_to_prop_in E2; lia.
  - destruct (65 <=? c) eqn:E1, (c <=? 90) eqn:E2; cbn [andb];
      bool_to_prop_in E1; bool_to_prop_in E2; lia.
Qed.

Lemma noteq_ok_ic c : atom_ok true (ASet true [CChar (ch "=")]) c = negb (c =? 61).
Proof.
  pose proof (eq_ok_ic c) as H. unfold atom_ok in *.
  cbn [xorb] in *. rewrite H. by destruct (c =? 61).
Qed.

(** ** The matcher *)

Section star_facts.
Context {R : Type} (ic : bool) (a : atom).
Implicit Types (k : jsstring -> option R) (s : jsstring).

(** A continuation that fails wherever the atom could go on makes the
    repetition take the longest run. *)
Lemma star_longest k s :
  (forall c s', atom_ok ic a c = true -> k (c :: s') = None) ->
  star ic a s k = k (skip (atom_ok ic a) s).
Proof.
  intros Hk. induction s as [|c s IH]; [done|]. cbn [star skip].
  destruct (atom_ok ic a c) eqn:E; [|done].
  rewrite IH. destruct (k (skip _ s)) eqn:E2; [done|].
  by apply Hk.
Qed.

(** A continuation that only accepts the end of input. *)
Lemma star_to_end k s :
  (forall c s', k (c :: s') = None) ->
  star ic a s k = if forallb (atom_ok ic a) s then k [] else None.
Proof.
  intros Hk. induction s as [|c s IH]; [done|]. cbn [star forallb].
  destruct (atom_ok ic a c) eqn:E; cbn [andb]; [|by apply Hk].
  rewrite IH. destruct (forallb _ s); [|by apply Hk].
  destruct (k []); [done|]. by apply Hk.
Qed.

Lemma star_Some k s r :
  star ic a s k = Some r -> exists s', k s' = Some r.
Proof.
  induction s as [|c s IH]; cbn [star]; [by eauto|].
  destruct (atom_ok ic a c); [|by eauto].
  destruct (star ic a s k) eqn:E; [|by eauto].
  intros [= <-]. by apply IH.
Qed.
End star_facts.

Lemma m_items_Some {R} ic n body s (k : jsstring -> option R) r :
  m_items ic n body s k = Some r -> exists s', k s' = Some r.
Proof.
  revert s k. induction body as [|i body IH]; intros s k; cbn [m_items]; [by eauto|].
  destruct i.
  - destruct (Nat.eqb _ _); [apply IH|done].
  - destruct s; [apply IH|done].
  - destruct s as [|c s]; [done|]. destruct (atom_ok ic a c); [apply IH|done].
  - intros H. apply star_Some in H as [s' H]. by apply IH in H.
  - destruct s as [|c s]; [done|]. destruct (atom_ok ic a c); [|done].
    intros H. apply star_Some in H as [s' H]. by apply IH in H.
Qed.

Lemma m_nodes_Some {R} ic n ns s caps (k : jsstring -> list jsstring -> option R) r :
  m_nodes ic n ns s caps k = Some r ->
  exists s' caps', k s' caps' = Some r /\ length caps' = (length caps + ngroups ns)%nat.
Proof.
  revert s caps k. induction ns as [|nd ns IH]; intros s caps k; cbn [m_nodes ngroups].
  - intros H. exists s, caps. split; [done|lia].
  - destruct nd as [i|body].
    + intros H. apply m_items_Some in H as [s' H]. by apply IH in H.
    + intros H. apply m_items_Some in H as [s' H]. apply IH in H as (s'' & caps' & H & Hl).
      exists s'', caps'. split; [done|]. rewrite Hl, length_app. cbn. lia.
Qed.

(** Every capturing group of a pattern is an element of the match array. *)
Lemma exec_groups re s m :
  exec re s = Some m -> length (groups m) = Datatypes.S (ngroups (source re)).
Proof.
  unfold exec. generalize (length s) at 1. generalize 0%nat.
  induction s as [|c s IH]; intros i n; cbn [exec_from].
  - destruct (match_at re n i []) eqn:E; [|done]. intros [= <-].
    unfold match_at in E. apply m_nodes_Some in E as (s' & caps' & [= <-] & Hl).
    cbn. by rewrite Hl.
  - destruct (match_at re n i (c :: s)) eqn:E; [|by apply IH]. intros [= <-].
    unfold match_at in E. apply m_nodes_Some in E as (s' & caps' & [= <-] & Hl).
    cbn [groups length]. by rewrite Hl.
Qed.

Lemma group_defined re s m i :
  exec re s = Some m -> (i <= ngroups (source re))%nat -> exists g, group m i = Ok g.
Proof.
  intros H Hi. apply exec_groups in H. unfold group.
  destruct (groups m !! i) eqn:E; [by eauto|].
  apply lookup_ge_None in E. lia.
Qed.

Lemma match_at_bol_None re ns n i s :
  source re = NItem IBol :: ns -> length s ≠ n -> match_at re n i s = None.
Proof.
  intros Hs Hn. unfold match_at. rewrite Hs. cbn [m_nodes m_items].
  destruct (Nat.eqb_spec (length s) n); done.
Qed.

Lemma exec_from_bol_None re ns n i s :
  source re = NItem IBol :: ns -> (length s < n)%nat -> exec_from re n i s = None.
Proof.
  intros Hs. revert i. induction s as [|c s IH]; intros i Hn; cbn [exec_from].
  - rewrite (match_at_bol_None _ _ _ _ _ Hs); [done|cbn in *; lia].
  - rewrite (match_at_bol_None _ _ _ _ _ Hs); [|cbn in *; lia].
    apply IH. cbn in *. lia.
Qed.

(** A pattern that starts with [^] matches at index 0 or nowhere. *)
Lemma exec_anchored re ns s :
  source re = NItem IBol :: ns -> exec re s = match_at re (length s) 0 s.
Proof.
  intros Hs. unfold exec. destruct s as [|c s]; cbn [exec_from].
  - by destruct (match_at _ _ _ _).
  - destruct (match_at _ _ _ _); [done|].
    eapply exec_from_bol_None; [done|]. cbn. lia.
Qed.

Lemma length_skip p s : (length (skip p s) <= length s)%nat.
Proof. induction s as [|c s IH]; cbn; [lia|]. destruct (p c); cbn; lia. Qed.

Lemma run_skip p s : run p s ++ skip p s = s.
Proof. induction s as [|c s IH]; cbn; [done|]. destruct (p c); cbn; [by rewrite IH|done]. Qed.

Lemma take_run_skip p s : take (length s - length (skip p s)) s = run p s.
Proof.
  induction s as [|c s IH]; cbn [run skip]; [done|].
  destruct (p c).
  - pose proof (length_skip p s). cbn [length].
    replace (Datatypes.S (length s) - length (skip p s))%nat
      with (Datatypes.S (length s - length (skip p s))) by lia.
    cbn [take]. by rewrite IH.
  - by rewrite Nat.sub_diag.
Qed.

Lemma skip_ext p q s : (forall c, p c = q c) -> skip p s = skip q s.
Proof. intros H. induction s as [|c s IH]; cbn; [done|]. rewrite H, IH. done. Qed.

Lemma space_not_key_start c : is_space c = true -> key_start c = false.
Proof.
  intros H. apply not_true_is_false. intros H2.
  apply is_space_spec in H. apply key_start_spec in H2. lia.
Qed.

Lemma key_char_not_eq c : key_char c = true -> (c =? 61) = false.
Proof. intros H. apply key_char_spec in H. apply N.eqb_neq. lia. Qed.

Lemma exec_ENV_LINE s : exec ENV_LINE s = env_line s.
Proof.
  rewrite (exec_anchored ENV_LINE _ s eq_refl). unfold match_at, env_line.
  cbn [source ignoreCase ENV_LINE m_nodes m_items lit].
  rewrite Nat.eqb_refl.
  rewrite star_longest.
  2:{ intros c s' Hc. rewrite space_ok in Hc. apply space_not_key_start in Hc.
      unfold key_start in Hc. by rewrite Hc. }
  rewrite (skip_ext _ is_space) by apply space_ok.
  destruct (skip is_space s) as [|c r] eqn:Es; [done|].
  fold (key_start c). destruct (key_start c) eqn:Ec; [|done].
  rewrite star_longest.
  2:{ intros c' s' Hc'. apply key_char_not_eq in Hc'. by rewrite eq_ok_ic, Hc'. }
  fold key_char.
  destruct (skip key_char r) as [|e v] eqn:Er; [done|].
  rewrite eq_ok_ic. change (ch "=") with 61.
  destruct (e =? 61) eqn:Ee; [|done]. cbn [andb].
  rewrite star_to_end by done.
  change (atom_ok true ADot) with not_terminator.
  destruct (forallb not_terminator v) eqn:Ev; [|done].
  cbn [m_nodes app length]. rewrite !Nat.sub_0_r, !firstn_all.
  do 3 f_equal.
  assert (key_char c = true) as Hc by (apply key_char_spec; apply key_start_spec in Ec; lia).
  pose proof (take_run_skip key_char (c :: r)) as H.
  cbn [skip run] in H. rewrite Hc, Er in H. by rewrite <- H.
Qed.

Lemma forallb_run p s : forallb p (run p s) = true.
Proof. induction s as [|c s IH]; cbn; [done|]. destruct (p c) eqn:E; cbn; [by rewrite E|done]. Qed.

Lemma skip_app p a c b :
  forallb p a = true -> p c = false -> skip p (a ++ c :: b) = c :: b.
Proof.
  intros Ha Hc. induction a as [|x a IH]; cbn in *; [by rewrite Hc|].
  apply andb_true_iff in Ha as [-> Ha]. by apply IH.
Qed.

Lemma run_app p a c b :
  forallb p a = true -> p c = false -> run p (a ++ c :: b) = a.
Proof.
  intros Ha Hc. induction a as [|x a IH]; cbn in *; [by rewrite Hc|].
  apply andb_true_iff in Ha as [-> Ha]. by rewrite IH.
Qed.

Lemma key_start_char c : key_start c = true -> key_char c = true.
Proof. intros H. apply key_char_spec. apply key_start_spec in H. lia. Qed.

Lemma key_char_not_space c : key_char c = true -> is_space c = false.
Proof.
  intros H. apply not_true_is_false. intros H2.
  apply is_space_spec in H2. apply key_char_spec in H. lia.
Qed.

(** What a match of [ENV_LINE] looks like. *)
Lemma env_line_Some s m :
  env_line s = Some m ->
  exists c k v,
    skip is_space s = c :: k ++ ch "=" :: v /\ key_start c = true
    /\ forallb key_char k = true /\ forallb not_terminator v = true
    /\ m = {| groups := [s; c :: k; v]; index := 0; after := [] |}.
Proof.
  unfold env_line. destruct (skip is_space s) as [|c r] eqn:Es; [done|].
  destruct (key_start c) eqn:Ec; [|done].
  destruct (skip key_char r) as [|e v] eqn:Er; [done|].
  destruct (e =? ch "=") eqn:Ee; [|done]. cbn [andb].
  destruct (forallb not_terminator v) eqn:Ev; [|done].
  intros [= <-]. apply N.eqb_eq in Ee as ->.
  exists c, (run key_char r), v. rewrite <- Er, run_skip.
  by rewrite forallb_run.
Qed.

Lemma env_line_intro c k v :
  key_start c = true -> forallb key_char k = true ->
  forallb not_terminator v = true ->
  env_line (c :: k ++ ch "=" :: v)
  = Some {| groups := [c :: k ++ ch "=" :: v; c :: k; v]; index := 0; after := [] |}.
Proof.
  intros Hc Hk Hv. unfold env_line.
  assert (is_space c = false) as Hs by (by apply key_char_not_space, key_start_char).
  cbn [skip]. rewrite Hs, Hc.
  assert (key_char (ch "=") = false) as He by done.
  rewrite skip_app, run_app by done.
  by rewrite N.eqb_refl, Hv.
Qed.

(** A match of the export pattern starts, after leading spaces, with the six
    letters and a space. *)
Lemma space_not_letter x c :
  97 <= x <= 122 -> is_space c = true -> atom_ok true (ASet false [CChar x]) c = false.
Proof.
  intros Hx Hc. rewrite lit_ok_ic. apply is_space_spec in Hc.
  unfold toUpper, toLower.
  destruct (97 <=? c) eqn:E1, (c <=? 122) eqn:E2, (65 <=? c) eqn:E3, (c <=? 90) eqn:E4;
    cbn [andb]; bool_to_prop_in E1; bool_to_prop_in E2; bool_to_prop_in E3;
    bool_to_prop_in E4; bool_to_prop; lia.
Qed.

Lemma letter_not_eq x : 97 <= x <= 122 -> atom_ok true (ASet false [CChar x]) (ch "=") = false.
Proof.
  intros Hx. rewrite lit_ok_ic. change (ch "=") with 61.
  change (toUpper 61) with 61. change (toLower 61) with 61.
  bool_to_prop. lia.
Qed.

Lemma export_line_Some s m :
  exec EXPORT_LINE s = Some m ->
  exists e x p o r t w rest,
    skip is_space s = e :: x :: p :: o :: r :: t :: w :: rest
    /\ e ≠ ch "=" /\ x ≠ ch "=" /\ p ≠ ch "=" /\ o ≠ ch "=" /\ r ≠ ch "="
    /\ t ≠ ch "=" /\ is_space w = true.
Proof.
  rewrite (exec_anchored EXPORT_LINE _ s eq_refl). unfold match_at.
  cbn [source ignoreCase EXPORT_LINE m_nodes m_items lit].
  rewrite Nat.eqb_refl.
  rewrite star_longest.
  2:{ intros c s' Hc. rewrite space_ok in Hc.
      rewrite space_not_letter; [done| |done]. by vm_compute. }
  rewrite (skip_ext _ is_space) by apply space_ok.
  destruct (skip is_space s) as [|e [|x [|p [|o [|r [|t [|w rest]]]]]]] eqn:Es;
    repeat (match goal with
            | |- context [if atom_ok true ?a ?c then _ else _] =>
                let E := fresh "E" in destruct (atom_ok true a c) eqn:E; [|done]
            end); try done.
  intros _. exists e, x, p, o, r, t, w, rest.
  rewrite space_ok in E5.
  repeat split; try done; intros ->;
    match goal with
    | H : atom_ok true (ASet false [CChar ?x]) (ch "=") = true |- _ =>
        rewrite letter_not_eq in H; [done|by vm_compute]
    end.
Qed.

(** The export branch inside the [ENV_LINE] branch of the parser is never
    taken: no string matches both patterns. *)
Lemma export_after_env_line s m :
  exec ENV_LINE s = Some m -> exec EXPORT_LINE s = None.
Proof.
  rewrite exec_ENV_LINE. intros Hm.
  destruct (exec EXPORT_LINE s) as [m'|] eqn:Hx; [exfalso|done].
  apply env_line_Some in Hm as (c & k & v & Hs & Hc & Hk & _ & _).
  apply export_line_Some in Hx as (e & x & p & o & r & t & w & rest & Hs' & He & Hx & Hp & Ho & Hr & Ht & Hw).
  rewrite Hs in Hs'. clear Hs.
  destruct k as [|k1 [|k2 [|k3 [|k4 [|k5 [|k6 k]]]]]]; cbn in Hs'; simplify_eq.
  cbn in Hk. rewrite !andb_true_iff in Hk.
  destruct Hk as (_ & _ & _ & _ & _ & Hk & _).
  apply key_char_not_space in Hk. congruence.
Qed.

(** A pattern that is one atom is a search for a code unit. *)
Lemma test_single_atom re a s :
  source re = [NItem (IAtom a)] ->
  test re s = existsb (atom_ok (ignoreCase re) a) s.
Proof.
  intros Hs. unfold test, exec. generalize (length s). generalize 0%nat.
  induction s as [|c s IH]; intros i n; cbn [exec_from existsb];
    unfold match_at; rewrite Hs; cbn [m_nodes m_items]; [done|].
  destruct (atom_ok _ a c); [done|]. cbn [orb]. apply IH.
Qed.

Lemma test_COMMENT s :
  test COMMENT s = match skip is_space s with c :: _ => c =? ch "#" | [] => false end.
Proof.
  unfold test. rewrite (exec_anchored COMMENT _ s eq_refl). unfold match_at.
  cbn [source ignoreCase COMMENT m_nodes m_items lit].
  rewrite Nat.eqb_refl.
  rewrite star_longest.
  2:{ intros c s' Hc. rewrite space_ok in Hc. rewrite lit_ok.
      apply is_space_spec in Hc. destruct (N.eqb_spec c (ch "#")) as [->|]; [|done].
      change (ch "#") with 35 in Hc. lia. }
  rewrite (skip_ext _ is_space) by apply space_ok.
  destruct (skip is_space s) as [|c r]; [done|]. rewrite lit_ok.
  by destruct (c =? ch "#").
Qed.

Lemma test_ENV_KEY key :
  test ENV_KEY key
  = match key with c :: r => upper_start c && forallb upper_char r | [] => false end.
Proof.
  unfold test. rewrite (exec_anchored ENV_KEY _ key eq_refl). unfold match_at.
  cbn [source ignoreCase ENV_KEY m_nodes m_items lit].
  rewrite Nat.eqb_refl. destruct key as [|c r]; [done|].
  fold (upper_start c). destruct (upper_start c); [|done]. cbn [andb].
  rewrite star_to_end by done. fold upper_char.
  by destruct (forallb upper_char r).
Qed.

Lemma upper_start_spec c : upper_start c = true <-> (65 <= c <= 90) \/ c = 95.
Proof.
  unfold upper_start, atom_ok, upper_or_underscore, cset_has_ic, cset_has, ch.
  cbn [existsb xorb N_of_ascii N_of_digits]. bool_to_prop. lia.
Qed.

Lemma upper_char_spec c :
  upper_char c = true <-> (65 <= c <= 90) \/ (48 <= c <= 57) \/ c = 95.
Proof.
  unfold upper_char, atom_ok, upper_digit_or_underscore, cset_has_ic, cset_has, ch.
  cbn [existsb xorb N_of_ascii N_of_digits]. bool_to_prop. lia.
Qed.

Lemma is_digit_spec c : is_digit c = true <-> 48 <= c <= 57.
Proof.
  unfold is_digit, atom_ok, digit, cset_has_ic, cset_has.
  cbn [existsb xorb]. bool_to_prop. lia.
Qed.

Lemma units_uint_units d : units_uint (uint_units d) = d.
Proof. induction d; cbn; by f_equal. Qed.

Lemma parseInt_numToString n : parseInt (numToString n) = n.
Proof. unfold parseInt, numToString. rewrite units_uint_units. apply Unsigned.of_to. Qed.

Lemma uint_units_digits d : forallb is_digit (uint_units d) = true.
Proof. induction d; cbn; done. Qed.

Lemma numToString_cons n : exists c r, numToString n = c :: r /\ is_digit c = true /\ forallb is_digit r = true.
Proof.
  unfold numToString. pose proof (uint_units_digits (Nat.to_uint n)) as H.
  destruct (uint_units (Nat.to_uint n)) as [|c r] eqn:E.
  - exfalso. assert (Nat.to_uint n = Nil) as Hn by (by destruct (Nat.to_uint n)).
    rewrite <- (Unsigned.of_to n), Unsigned.to_of in Hn.
    by apply unorm_nonnil in Hn.
  - cbn in H. apply andb_true_iff in H. by exists c, r.
Qed.

Lemma take_split (s a b : jsstring) :
  s = a ++ b -> take (length s - length b) s = a.
Proof.
  intros ->. rewrite length_app.
  replace (length a + length b - length b)%nat with (length a) by lia.
  by rewrite take_app_length.
Qed.

Ltac eval_lits :=
  repeat match goal with
  | |- context [js ?s] => let v := eval vm_compute in (js s) in change (js s) with v
  | |- context [ch ?a] => let v := eval vm_compute in (ch a) in change (ch a) with v
  end.

Lemma digit_not_colon c : is_digit c = true -> (c =? 58) = false.
Proof. intros H. apply is_digit_spec in H. apply N.eqb_neq. lia. Qed.

Lemma exec_LINE_NUMBER n body :
  exec LINE_NUMBER (line_prefix n ++ body)
  = Some {| groups := [js "Line " ++ numToString n ++ js ":"; numToString n];
            index := 0; after := js " " ++ body |}.
Proof.
  rewrite (exec_anchored LINE_NUMBER _ _ eq_refl). unfold match_at, line_prefix.
  destruct (numToString_cons n) as (c & r & -> & Hc & Hr).
  eval_lits.
  cbn [source ignoreCase LINE_NUMBER m_nodes m_items lit app].
  rewrite Nat.eqb_refl. eval_lits. rewrite !lit_ok. cbn [N.eqb Pos.eqb].
  fold is_digit. rewrite Hc.
  rewrite star_longest.
  2:{ intros c' s' Hc'. rewrite lit_ok. by rewrite digit_not_colon. }
  fold is_digit. rewrite <- !app_assoc. cbn [app].
  rewrite skip_app by done. rewrite lit_ok. cbn [N.eqb Pos.eqb m_nodes].
  do 2 f_equal.
  rewrite (take_split _ (76 :: 105 :: 110 :: 101 :: 32 :: c :: r ++ [58]) (32 :: body))
    by (cbn; by rewrite <- app_assoc).
  by rewrite (take_split _ (c :: r) (58 :: 32 :: body)).
Qed.

Lemma replace_LINE_PREFIX n body :
  replace_empty LINE_PREFIX (line_prefix n ++ body) = body.
Proof.
  unfold replace_empty.
  rewrite (exec_anchored LINE_PREFIX _ _ eq_refl). unfold match_at, line_prefix.
  destruct (numToString_cons n) as (c & r & -> & Hc & Hr).
  eval_lits.
  cbn [source ignoreCase LINE_PREFIX m_nodes m_items lit app].
  rewrite Nat.eqb_refl. eval_lits. rewrite !lit_ok. cbn [N.eqb Pos.eqb].
  fold is_digit. rewrite Hc.
  rewrite star_longest.
  2:{ intros c' s' Hc'. rewrite lit_ok. by rewrite digit_not_colon. }
  fold is_digit. rewrite <- !app_assoc. cbn [app].
  rewrite skip_app by done. rewrite !lit_ok. cbn [N.eqb Pos.eqb m_nodes].
  done.
Qed.

(** The lint command recovers the line number and the text of every message
    of the validator, and files it as an error. *)
Lemma issue_of_message n body :
  Lint.issue_of (line_prefix n ++ body)
  = {| Lint.line := n; Lint.message := body; Lint.sev := Lint.error |}.
Proof.
  unfold Lint.issue_of. rewrite exec_LINE_NUMBER, replace_LINE_PREFIX.
  change (default [] (_ !! 1%nat)) with (numToString n). by rewrite parseInt_numToString.
Qed.

Lemma line_prefix_inj n n' body body' :
  line_prefix n ++ body = line_prefix n' ++ body' -> n = n' /\ body = body'.
Proof.
  intros H. apply (f_equal Lint.issue_of) in H.
  rewrite !issue_of_message in H. by simplify_eq.
Qed.

Lemma ENV_KEY_truthy key : test ENV_KEY key = true -> truthy key = true.
Proof. rewrite test_ENV_KEY. by destruct key. Qed.

Lemma validateKey_spec key n st :
  validateKey key n st
  = {| keys := if test ENV_KEY key then {[ key ]} ∪ keys st else keys st;
       errors := errors st ++ key_errors key n (keys st) |}.
Proof.
  unfold validateKey, key_errors, push.
  destruct (truthy key) eqn:Et; cbn [negb].
  2:{ destruct (test ENV_KEY key) eqn:Ek; [|done].
      apply ENV_KEY_truthy in Ek. congruence. }
  destruct (test ENV_KEY key) eqn:Ek; cbn [negb]; [|done].
  case_bool_decide as Hin; [|by rewrite app_nil_r].
  f_equal. symmetry. apply subseteq_union_1_L. by apply singleton_subseteq_l.
Qed.

Lemma exec_three_groups re s m :
  ngroups (source re) = 2%nat -> exec re s = Some m ->
  exists g0 g1 g2, groups m = [g0; g1; g2].
Proof.
  intros Hn H. apply exec_groups in H. rewrite Hn in H.
  destruct (groups m) as [|g0 [|g1 [|g2 [|]]]]; cbn in H; try lia. eauto.
Qed.

(** One iteration of the validator never throws, and adds [line_errors]. *)
Lemma validate_line_spec i line st :
  validate_line i line st
  = Ok {| keys := line_keys line (keys st);
          errors := errors st ++ line_errors i line (keys st) |}.
Proof.
  unfold validate_line, line_errors, line_keys, key_of_line, classify.
  destruct (negb (truthy (trim line)) || test COMMENT (trim line)).
  { rewrite app_nil_r. by destruct st. }
  destruct (exec ENV_LINE (trim line)) as [m|] eqn:Em.
  - destruct (exec_three_groups ENV_LINE _ _ eq_refl Em) as (g0 & g1 & g2 & Hg).
    unfold group. rewrite Hg. cbn [lookup list_lookup mbind result_bind].
    rewrite validateKey_spec. fold (unquoted_with_spaces (trim g2)).
    destruct (unquoted_with_spaces (trim g2)); unfold push; cbn [keys errors].
    + by rewrite app_assoc.
    + by rewrite app_nil_r.
  - destruct (exec EXPORT_LINE (trim line)) as [m|] eqn:Ex; [|done].
    destruct (exec_three_groups EXPORT_LINE _ _ eq_refl Ex) as (g0 & g1 & g2 & Hg).
    unfold group. rewrite Hg. cbn [lookup list_lookup mbind result_bind].
    by rewrite validateKey_spec.
Qed.

Lemma validate_lines_spec lines i st :
  validate_lines i lines st
  = Ok {| keys := keys_after lines (keys st);
          errors := errors st ++ all_errors i lines (keys st) |}.
Proof.
  revert i st. induction lines as [|line lines IH]; intros i st;
    unfold validate_lines; cbn [for_each all_errors keys_after foldl].
  - rewrite app_nil_r. by destruct st.
  - rewrite validate_line_spec. cbn [mbind result_bind].
    fold (validate_lines (Datatypes.S i) lines). rewrite IH. cbn [keys errors].
    by rewrite app_assoc.
Qed.

Lemma validateEnvContent_spec content :
  validateEnvContent content = Ok (all_errors 0 (split_lf content) ∅).
Proof. unfold validateEnvContent. by rewrite validate_lines_spec. Qed.

Lemma elem_of_all_errors e lines i ks :
  e ∈ all_errors i lines ks <->
  exists j line, lines !! j = Some line
    /\ e ∈ line_errors (i + j) line (keys_after (take j lines) ks).
Proof.
  revert i ks. induction lines as [|l lines IH]; intros i ks; cbn [all_errors].
  - split; [by intros ?%elem_of_nil|]. by intros (j & line & ? & _).
  - rewrite elem_of_app, IH. split.
    + intros [H|(j & line & Hj & H)].
      * exists 0%nat, l. by rewrite Nat.add_0_r.
      * exists (Datatypes.S j), line. split; [done|].
        by replace (i + Datatypes.S j)%nat with (Datatypes.S i + j)%nat by lia.
    + intros ([|j] & line & Hj & H).
      * left. cbn in Hj. simplify_eq. by rewrite Nat.add_0_r in H.
      * right. exists j, line. split; [done|].
        by replace (i + Datatypes.S j)%nat with (Datatypes.S i + j)%nat in H by lia.
Qed.

Lemma elem_of_line_keys k line ks :
  k ∈ line_keys line ks <->
  k ∈ ks \/ (key_of_line line = Some k /\ test ENV_KEY k = true).
Proof.
  unfold line_keys. destruct (key_of_line line) as [key|] eqn:Ek.
  - destruct (test ENV_KEY key) eqn:Et.
    + rewrite elem_of_union, elem_of_singleton. split.
      * intros [->|?]; [by right|by left].
      * intros [?|[[= ->] _]]; [by right|by left].
    + split; [by left|]. intros [?|[[= ->] ?]]; [done|congruence].
  - split; [by left|]. by intros [?|[? _]].
Qed.

Lemma elem_of_keys_after k lines ks :
  k ∈ keys_after lines ks <->
  k ∈ ks \/ exists j line, lines !! j = Some line
              /\ key_of_line line = Some k /\ test ENV_KEY k = true.
Proof.
  revert ks. induction lines as [|l lines IH]; intros ks; cbn [keys_after foldl].
  - split; [by left|]. intros [?|(j & line & ? & _)]; done.
  - fold (keys_after lines (line_keys l ks)). rewrite IH, elem_of_line_keys. split.
    + intros [[?|[? ?]]|(j & line & ? & ? & ?)].
      * by left.
      * right. by exists 0%nat, l.
      * right. by exists (Datatypes.S j), line.
    + intros [?|([|j] & line & Hj & ? & ?)].
      * by left; left.
      * cbn in Hj. simplify_eq. by left; right.
      * right. by exists j, line.
Qed.

Ltac eval_lits_in H :=
  repeat match type of H with
  | context [js ?s] => let v := eval vm_compute in (js s) in change (js s) with v in H
  | context [ch ?a] => let v := eval vm_compute in (ch a) in change (ch a) with v in H
  end.

(** Two messages of the validator are equal only on the same line and with
    the same text. *)
Ltac msg_eq H :=
  unfold msg_empty_key, msg_invalid_key, msg_duplicate_key, msg_unquoted,
    msg_invalid_syntax in H;
  apply line_prefix_inj in H as [? H];
  eval_lits_in H; cbn [app] in H.

Lemma trimStart_no_space s : forallb (fun c => negb (is_space c)) s = true -> trimStart s = s.
Proof.
  unfold trimStart. destruct s as [|c s]; cbn; [done|].
  intros [Hc _]%andb_true_iff. by apply negb_true_iff in Hc as ->.
Qed.

Lemma trimEnd_last s c : is_space c = false -> trimEnd (s ++ [c]) = s ++ [c].
Proof.
  intros Hc. unfold trimEnd, trimStart. rewrite rev_app_distr. cbn [rev app skip].
  rewrite Hc. change (c :: rev s) with ([c] ++ rev s).
  rewrite rev_app_distr, rev_involutive. done.
Qed.

Lemma trimEnd_no_space s : forallb (fun c => negb (is_space c)) s = true -> trimEnd s = s.
Proof.
  destruct s as [|c s _] using rev_ind; [done|].
  rewrite forallb_app. intros [_ Hc]%andb_true_iff. cbn in Hc.
  rewrite andb_true_r in Hc. apply negb_true_iff in Hc. by apply trimEnd_last.
Qed.

Lemma trim_no_space s : forallb (fun c => negb (is_space c)) s = true -> trim s = s.
Proof.
  intros H. unfold trim. rewrite trimStart_no_space by done. by apply trimEnd_no_space.
Qed.

Lemma forallb_impl (p q : N -> bool) s :
  (forall c, p c = true -> q c = true) -> forallb p s = true -> forallb q s = true.
Proof.
  intros Hpq. induction s as [|c s IH]; cbn; [done|].
  intros [Hc Hs]%andb_true_iff. by rewrite Hpq, IH.
Qed.

Lemma key_chars_no_space s :
  forallb key_char s = true -> forallb (fun c => negb (is_space c)) s = true.
Proof.
  apply forallb_impl. intros c Hc. by rewrite key_char_not_space.
Qed.

(** The key of a KEY=VALUE line is a non-empty run of letters, digits and
    underscores, and its value has no line terminator. *)
Lemma classify_Plain line key value :
  classify line = Plain key value ->
  exists c k v,
    key = c :: k /\ key_start c = true /\ forallb key_char k = true
    /\ value = trim v /\ forallb not_terminator v = true
    /\ skip is_space (trim line) = key ++ ch "=" :: v.
Proof.
  unfold classify.
  destruct (negb (truthy (trim line)) || test COMMENT (trim line)); [done|].
  rewrite exec_ENV_LINE.
  destruct (env_line (trim line)) as [m|] eqn:Em.
  - apply env_line_Some in Em as (c & k & v & Hs & Hc & Hk & Hv & ->).
    cbn [groups lookup list_lookup]. intros [= <- <-].
    exists c, k, v. rewrite trim_no_space.
    + done.
    + apply key_chars_no_space. cbn [forallb]. by rewrite key_start_char.
  - destruct (exec EXPORT_LINE (trim line)) as [m|]; [|done].
    by destruct (groups m !! 1%nat).
Qed.

Lemma classify_Plain_truthy line key value :
  classify line = Plain key value -> truthy key = true.
Proof. intros (c & k & v & -> & _)%classify_Plain. done. Qed.

Lemma key_errors_prefix e key n ks :
  e ∈ key_errors key n ks -> exists body, e = line_prefix n ++ body.
Proof.
  unfold key_errors.
  repeat (match goal with |- context [if ?b then _ else _] => destruct b end);
    [intros ->%list_elem_of_singleton..|by intros ?%elem_of_nil]; eauto.
Qed.

Lemma line_errors_prefix e i line ks :
  e ∈ line_errors i line ks -> exists body, e = line_prefix (i + 1) ++ body.
Proof.
  unfold line_errors. destruct (classify line) as [|key value|key|].
  - by intros ?%elem_of_nil.
  - intros [H|H]%elem_of_app; [by eapply key_errors_prefix|].
    destruct (unquoted_with_spaces value); [|by apply elem_of_nil in H].
    apply list_elem_of_singleton in H as ->. eauto.
  - apply key_errors_prefix.
  - intros ->%list_elem_of_singleton. eauto.
Qed.

Lemma duplicate_in_key_errors n k key n' ks :
  msg_duplicate_key n k ∈ key_errors key n' ks <->
  n = n' /\ k = key /\ test ENV_KEY key = true /\ key ∈ ks.
Proof.
  unfold key_errors. destruct (truthy key) eqn:Et; cbn [negb].
  2:{ split; [intros H%list_elem_of_singleton; by msg_eq H|].
      intros (_ & _ & Hk%ENV_KEY_truthy & _). congruence. }
  destruct (test ENV_KEY key) eqn:Ek; cbn [negb].
  2:{ split; [intros H%list_elem_of_singleton; by msg_eq H|]. by intros (_ & _ & ? & _). }
  case_bool_decide as Hin.
  - rewrite list_elem_of_singleton. split.
    + intros H. msg_eq H. simplify_eq. by apply app_inj_tail in H as [-> _].
    + by intros (-> & -> & _).
  - split; [by intros ?%elem_of_nil|]. by intros (_ & _ & _ & ?).
Qed.

Lemma invalid_in_key_errors n k key n' ks :
  msg_invalid_key n k ∈ key_errors key n' ks <->
  n = n' /\ k = key /\ truthy key = true /\ test ENV_KEY key = false.
Proof.
  unfold key_errors. destruct (truthy key) eqn:Et; cbn [negb].
  2:{ split; [intros H%list_elem_of_singleton; by msg_eq H|]. by intros (_ & _ & ? & _). }
  destruct (test ENV_KEY key) eqn:Ek; cbn [negb].
  - case_bool_decide as Hin.
    + split; [intros H%list_elem_of_singleton; by msg_eq H|]. by intros (_ & _ & _ & ?).
    + split; [by intros ?%elem_of_nil|]. by intros (_ & _ & _ & ?).
  - rewrite list_elem_of_singleton. split.
    + intros H. msg_eq H. simplify_eq. by apply app_inv_tail in H as ->.
    + by intros (-> & -> & _).
Qed.

Lemma duplicate_in_line_errors n k i line ks :
  msg_duplicate_key n k ∈ line_errors i line ks <->
  n = (i + 1)%nat /\ key_of_line line = Some k /\ test ENV_KEY k = true /\ k ∈ ks.
Proof.
  unfold line_errors, key_of_line. destruct (classify line) as [|key value|key|].
  - split; [by intros ?%elem_of_nil|]. by intros (_ & ? & _).
  - rewrite elem_of_app, duplicate_in_key_errors. split.
    + intros [(-> & -> & ? & ?)|H]; [done|].
      destruct (unquoted_with_spaces value); [|by apply elem_of_nil in H].
      apply list_elem_of_singleton in H. by msg_eq H.
    + intros (-> & [= ->] & ? & ?). by left.
  - rewrite duplicate_in_key_errors. split.
    + by intros (-> & -> & ? & ?).
    + by intros (-> & [= ->] & ? & ?).
  - split; [intros H%list_elem_of_singleton; by msg_eq H|]. by intros (_ & ? & _).
Qed.

Lemma invalid_in_line_errors n k i line ks :
  msg_invalid_key n k ∈ line_errors i line ks <->
  n = (i + 1)%nat /\ key_of_line line = Some k /\ truthy k = true
  /\ test ENV_KEY k = false.
Proof.
  unfold line_errors, key_of_line. destruct (classify line) as [|key value|key|].
  - split; [by intros ?%elem_of_nil|]. by intros (_ & ? & _).
  - rewrite elem_of_app, invalid_in_key_errors. split.
    + intros [(-> & -> & ? & ?)|H]; [done|].
      destruct (unquoted_with_spaces value); [|by apply elem_of_nil in H].
      apply list_elem_of_singleton in H. by msg_eq H.
    + intros (-> & [= ->] & ? & ?). by left.
  - rewrite invalid_in_key_errors. split.
    + by intros (-> & -> & ? & ?).
    + by intros (-> & [= ->] & ? & ?).
  - split; [intros H%list_elem_of_singleton; by msg_eq H|]. by intros (_ & ? & _).
Qed.

(** ** The parser *)

Lemma parse_line_continuation line st key :
  currentKey st = Some key ->
  parse_line line st
  = Ok (if endsWith line [BSL]
        then {| env := env st; currentKey := Some key;
                currentValue := currentValue st ++ slice line 0 (-1) ++ [LF] |}
        else {| env := Env.set key (processValue (currentValue st ++ line)) (env st);
                currentKey := None; currentValue := [] |}).
Proof. intros Hk. unfold parse_line. rewrite Hk. by destruct (endsWith line [BSL]). Qed.

Lemma parse_line_skip line st :
  currentKey st = None -> exec ENV_LINE (trim line) = None ->
  parse_line line st = Ok st.
Proof.
  intros Hk Hm. unfold parse_line. rewrite Hk, Hm.
  by repeat (match goal with |- context [if ?b then _ else _] => destruct b end).
Qed.

Lemma parse_line_comment line st :
  currentKey st = None -> test COMMENT (trim line) = true ->
  parse_line line st = Ok st.
Proof.
  intros Hk Hc. unfold parse_line. rewrite Hk, Hc.
  by destruct (negb (truthy (trim line))).
Qed.

Lemma parse_line_plain line st t g1 g2 i a :
  currentKey st = None ->
  truthy (trim line) = true -> test COMMENT (trim line) = false ->
  exec ENV_LINE (trim line) = Some {| groups := [t; g1; g2]; index := i; after := a |} ->
  parse_line line st
  = Ok (if endsWith (trim g2) [BSL]
        then {| env := env st; currentKey := Some (trim g1);
                currentValue := slice (trim g2) 0 (-1) |}
        else {| env := Env.set (trim g1) (processValue (trim g2)) (env st);
                currentKey := None; currentValue := currentValue st |}).
Proof.
  intros Hk Ht Hc Hm. unfold parse_line.
  rewrite Hk, Ht, Hc, Hm, (export_after_env_line _ _ Hm). cbn [negb].
  unfold group. cbn [groups lookup list_lookup mbind result_bind].
  by destruct (endsWith (trim g2) [BSL]).
Qed.

(** An export line is skipped by the parser. *)
Lemma parse_line_export line st m :
  currentKey st = None -> exec EXPORT_LINE (trim line) = Some m ->
  parse_line line st = Ok st.
Proof.
  intros Hk Hx. apply parse_line_skip; [done|].
  destruct (exec ENV_LINE (trim line)) as [m'|] eqn:Em; [|done].
  apply export_after_env_line in Em. congruence.
Qed.

Lemma parse_line_ok line st : exists st', parse_line line st = Ok st'.
Proof.
  destruct (currentKey st) as [key|] eqn:Hk.
  { rewrite (parse_line_continuation _ _ _ Hk). eauto. }
  destruct (exec ENV_LINE (trim line)) as [m|] eqn:Hm.
  2:{ rewrite parse_line_skip by done. eauto. }
  destruct (truthy (trim line)) eqn:Ht.
  2:{ unfold parse_line. rewrite Hk, Ht. cbn. eauto. }
  destruct (test COMMENT (trim line)) eqn:Hc.
  { rewrite parse_line_comment by done. eauto. }
  destruct (exec_three_groups ENV_LINE _ _ eq_refl Hm) as (g0 & g1 & g2 & Hg).
  destruct m as [gs i a]. cbn in Hg. subst gs.
  erewrite parse_line_plain by done. eauto.
Qed.

Lemma parse_lines_ok lines st : exists st', parse_lines lines st = Ok st'.
Proof.
  unfold parse_lines. generalize 0%nat. revert st.
  induction lines as [|line lines IH]; intros st i; cbn [for_each]; [by eauto|].
  destruct (parse_line_ok line st) as [st' ->]. cbn [mbind result_bind]. apply IH.
Qed.

Lemma parseEnvContent_ok content : exists env, parseEnvContent content = Ok env.
Proof.
  unfold parseEnvContent.
  destruct (parse_lines_ok (split_lf content) parse_init) as [st ->].
  cbn [mbind result_bind]. eauto.
Qed.

(** ** String functions *)

Lemma startsWith_cons c s d : startsWith (c :: s) [d] = bool_decide (c = d).
Proof.
  unfold startsWith. cbn [length take]. rewrite take_0.
  apply bool_decide_ext. split; [by intros [= ->]|by intros ->].
Qed.

Lemma startsWith_nil d : startsWith [] [d] = false.
Proof. done. Qed.

Lemma endsWith_snoc s c d : endsWith (s ++ [c]) [d] = bool_decide (c = d).
Proof.
  unfold endsWith. rewrite length_app. cbn [length].
  replace (length s + 1 - 1)%nat with (length s) by lia.
  rewrite drop_app_length.
  apply bool_decide_ext. split; [by intros [= ->]|by intros ->].
Qed.

Lemma endsWith_nil d : endsWith [] [d] = false.
Proof. done. Qed.

Lemma slice_quoted q v : slice (q :: v ++ [q]) 1 (-1) = v.
Proof.
  unfold slice. cbn [length]. rewrite length_app. cbn [length].
  change (1 <? 0)%Z with false. change (-1 <? 0)%Z with true. cbn match.
  rewrite Z.min_l, Z.max_l by lia.
  replace (Z.to_nat _) with (length v) by lia.
  change (Z.to_nat 1) with 1%nat. cbn [drop]. rewrite drop_0. by rewrite take_app_length.
Qed.

Lemma needs_quotes_spec c :
  needs_quotes c = true <->
  is_space c = true \/ c = 61 \/ c = 39 \/ c = 34 \/ c = 36 \/ c = 96 \/ c = 92 \/ c = 10.
Proof.
  unfold needs_quotes, atom_ok, quoting_class, cset_has_ic, cset_has.
  cbn [existsb xorb]. rewrite orb_false_r. eval_lits. unfold SQ, DQ, BSL, LF.
  bool_to_prop. tauto.
Qed.

Lemma shouldQuoteValue_spec v : shouldQuoteValue v = existsb needs_quotes v.
Proof. unfold shouldQuoteValue. by rewrite (test_single_atom _ quoting_class). Qed.

Lemma existsb_false_forallb (p : N -> bool) s :
  existsb p s = false -> forallb (fun c => negb (p c)) s = true.
Proof.
  induction s as [|c s IH]; cbn; [done|].
  intros [-> Hs]%orb_false_iff. by rewrite IH.
Qed.

(** ** A value as [stringifyEnv] writes it is read back by [processValue] *)

Section written_value.
Context (v : jsstring).

Lemma unquoted_chars :
  shouldQuoteValue v = false -> forallb (fun c => negb (needs_quotes c)) v = true.
Proof. rewrite shouldQuoteValue_spec. apply existsb_false_forallb. Qed.

Lemma trimStart_written : trimStart (written v) = written v.
Proof.
  unfold written. destruct (shouldQuoteValue v) eqn:E; [done|].
  apply trimStart_no_space. eapply forallb_impl; [|by apply unquoted_chars].
  intros c Hc. apply negb_true_iff. apply negb_true_iff in Hc.
  apply not_true_is_false. intros Hs. apply not_true_iff_false in Hc.
  apply Hc, needs_quotes_spec. by left.
Qed.

Lemma trimEnd_written : trimEnd (written v) = written v.
Proof.
  unfold written. destruct (shouldQuoteValue v) eqn:E.
  - cbn [app]. rewrite app_comm_cons. by apply trimEnd_last.
  - apply trimEnd_no_space. eapply forallb_impl; [|by apply unquoted_chars].
    intros c Hc. apply negb_true_iff. apply negb_true_iff in Hc.
    apply not_true_is_false. intros Hs. apply not_true_iff_false in Hc.
    apply Hc, needs_quotes_spec. by left.
Qed.

Lemma trim_written : trim (written v) = written v.
Proof. unfold trim. by rewrite trimStart_written, trimEnd_written. Qed.

Lemma written_no_continuation : endsWith (written v) [BSL] = false.
Proof.
  unfold written. destruct (shouldQuoteValue v) eqn:E.
  - cbn [app]. rewrite app_comm_cons, endsWith_snoc. done.
  - apply unquoted_chars in E. destruct v as [|c s _] using rev_ind; [done|].
    rewrite endsWith_snoc. apply bool_decide_eq_false. intros ->.
    rewrite forallb_app in E. apply andb_true_iff in E as [_ E]. done.
Qed.

Lemma processValue_written : processValue (written v) = v.
Proof.
  unfold written, processValue. destruct (shouldQuoteValue v) eqn:E.
  - cbn [app]. rewrite startsWith_cons, app_comm_cons, endsWith_snoc.
    rewrite !bool_decide_eq_true_2 by done. cbn [andb orb].
    apply slice_quoted.
  - apply unquoted_chars in E. destruct v as [|c s]; [done|].
    rewrite !startsWith_cons. cbn in E. apply andb_true_iff in E as [E _].
    rewrite !bool_decide_eq_false_2; [done| |]; intros ->; done.
Qed.

Lemma written_no_terminator :
  forallb not_terminator v = true -> forallb not_terminator (written v) = true.
Proof.
  intros Hv. unfold written. destruct (shouldQuoteValue v); [|done].
  cbn [app forallb]. rewrite forallb_app, Hv. done.
Qed.
End written_value.

(** ** A line as [stringifyEnv] writes it is read back by the parser *)

Lemma skip_fixed p s : skip p s = s -> s = [] \/ exists c s', s = c :: s' /\ p c = false.
Proof.
  destruct s as [|c s]; [by left|]. cbn [skip]. destruct (p c) eqn:E; [|by eauto].
  intros H. pose proof (length_skip p s) as Hl. rewrite H in Hl. cbn in Hl. lia.
Qed.

Lemma trimEnd_app a b : b ≠ [] -> trimEnd b = b -> trimEnd (a ++ b) = a ++ b.
Proof.
  intros Hb Ht. unfold trimEnd, trimStart in *. rewrite rev_app_distr.
  apply (f_equal (@rev N)) in Ht. rewrite rev_involutive in Ht.
  apply skip_fixed in Ht as [Ht|(c & s' & Ht & Hc)].
  - apply (f_equal (@rev N)) in Ht. rewrite rev_involutive in Ht. done.
  - assert (skip is_space (rev b ++ rev a) = rev b ++ rev a) as ->.
    { rewrite Ht. cbn [app skip]. by rewrite Hc. }
    by rewrite <- rev_app_distr, rev_involutive.
Qed.

Lemma key_start_not_hash c : key_start c = true -> (c =? ch "#") = false.
Proof. intros H. apply key_start_spec in H. apply N.eqb_neq. change (ch "#") with 35. lia. Qed.

Lemma key_char_not_terminator c : key_char c = true -> not_terminator c = true.
Proof.
  intros Hc. apply key_char_not_space in Hc.
  unfold not_terminator, atom_ok. apply negb_true_iff. apply not_true_is_false.
  intros Ht. apply not_true_iff_false in Hc. apply Hc. unfold is_space.
  rewrite Ht. by rewrite !orb_true_r.
Qed.

Section written_line.
Context (c : N) (r v : jsstring).
Hypothesis Hc : key_start c = true.
Hypothesis Hr : forallb key_char r = true.
Hypothesis Hv : forallb not_terminator v = true.

Let line : jsstring := stringify_entry (c :: r, v).

Lemma written_line_eq : line = c :: r ++ ch "=" :: written v.
Proof. done. Qed.

Lemma trim_written_line : trim line = line.
Proof.
  unfold trim. rewrite written_line_eq. unfold trimStart. cbn [skip].
  rewrite key_char_not_space by (by apply key_start_char).
  change (c :: r ++ ch "=" :: written v) with ((c :: r) ++ ch "=" :: written v).
  apply trimEnd_app; [done|].
  destruct (written v) as [|d w] eqn:Ew; [done|].
  change (ch "=" :: d :: w) with ([ch "="] ++ d :: w).
  apply trimEnd_app; [done|]. rewrite <- Ew. apply trimEnd_written.
Qed.

Lemma parse_written_line st :
  currentKey st = None ->
  parse_line line st
  = Ok {| env := Env.set (c :: r) v (env st); currentKey := None;
          currentValue := currentValue st |}.
Proof.
  intros Hk.
  assert (key_char c = true) as Hc' by (by apply key_start_char).
  rewrite (parse_line_plain _ _ line (c :: r) (written v) 0%nat []); try done.
  - rewrite trim_written, written_no_continuation, processValue_written.
    rewrite trim_no_space; [done|]. apply key_chars_no_space. cbn [forallb]. by rewrite Hc'.
  - by rewrite trim_written_line.
  - rewrite trim_written_line, test_COMMENT, written_line_eq. cbn [skip].
    rewrite key_char_not_space by done. by apply key_start_not_hash.
  - rewrite trim_written_line, exec_ENV_LINE, written_line_eq.
    apply env_line_intro; try done. by apply written_no_terminator.
Qed.

Lemma written_line_no_LF : LF ∉ line.
Proof.
  assert (forallb not_terminator line = true) as H.
  { rewrite written_line_eq. cbn [forallb].
    rewrite forallb_app. cbn [forallb]. rewrite written_no_terminator by done.
    rewrite (forallb_impl key_char not_terminator r key_char_not_terminator Hr).
    by rewrite key_char_not_terminator by (by apply key_start_char). }
  intros Hin. rewrite forallb_forall in H. apply list_elem_of_In in Hin.
  by apply H in Hin.
Qed.
End written_line.

Lemma split_lf_app p rest : LF ∉ p -> split_lf (p ++ LF :: rest) = p :: split_lf rest.
Proof.
  induction p as [|c p IH]; intros Hp; cbn [app split_lf].
  - by rewrite N.eqb_refl.
  - apply not_elem_of_cons in Hp as [Hc Hp].
    assert ((c =? LF) = false) as -> by (apply N.eqb_neq; congruence).
    by rewrite IH.
Qed.

Lemma split_lf_single p : LF ∉ p -> split_lf p = [p].
Proof.
  induction p as [|c p IH]; intros Hp; cbn [split_lf]; [done|].
  apply not_elem_of_cons in Hp as [Hc Hp].
  assert ((c =? LF) = false) as -> by (apply N.eqb_neq; congruence).
  by rewrite IH.
Qed.

Lemma split_lf_join lines :
  lines ≠ [] -> Forall (fun l => LF ∉ l) lines -> split_lf (join [LF] lines) = lines.
Proof.
  induction lines as [|p [|q lines] IH]; intros Hne Hl; [done|..].
  - cbn [join]. apply split_lf_single. by apply Forall_inv in Hl.
  - apply Forall_cons in Hl as [Hp Hl]. cbn [join]. cbn [join] in IH.
    change ([LF] ++ ?x) with (LF :: x). rewrite split_lf_app by done.
    by rewrite IH.
Qed.

Lemma define_fresh k v (e : EnvObject) : k ∉ Env.keys e -> Env.define k v e = e ++ [(k, v)].
Proof.
  induction e as [|[k' v'] e IH]; intros Hk; cbn [Env.define app]; [done|].
  unfold Env.keys in *. cbn [fmap list_fmap fst] in Hk.
  apply not_elem_of_cons in Hk as [Hne Hk].
  rewrite decide_False by done. by rewrite IH.
Qed.

Lemma foldl_set_fresh (m e : EnvObject) :
  NoDup (Env.keys m) -> (forall k, k ∈ Env.keys m -> k ∉ Env.keys e) ->
  Forall (fun kv => kv.1 ≠ js "__proto__") m ->
  foldl (fun e kv => Env.set kv.1 kv.2 e) e m = e ++ m.
Proof.
  revert e. induction m as [|[k v] m IH]; intros e Hnd Hfresh Hp; cbn [foldl].
  - by rewrite app_nil_r.
  - unfold Env.keys in *. cbn [fmap list_fmap fst] in Hnd, Hfresh.
    apply NoDup_cons in Hnd as [Hk Hnd]. apply Forall_cons in Hp as [Hkp Hp].
    cbn [fst snd] in *. unfold Env.set at 2. rewrite decide_False by done.
    rewrite define_fresh by (apply Hfresh; by left).
    rewrite IH; [by rewrite <- app_assoc|done| |done].
    intros k' Hk'. rewrite fmap_app, elem_of_app. intros [He|Hin].
    + by apply (Hfresh k'); [right|].
    + cbn in Hin. apply list_elem_of_singleton in Hin as ->. done.
Qed.

Lemma portable_entry_spec kv :
  portable_entry kv = true ->
  exists c r, kv.1 = c :: r /\ key_start c = true /\ forallb key_char r = true
    /\ kv.1 ≠ js "__proto__" /\ forallb not_terminator kv.2 = true.
Proof.
  unfold portable_entry, is_identifier. rewrite !andb_true_iff, negb_true_iff.
  intros [[Hi Hp] Hv]. destruct (kv.1) as [|c r] eqn:E; [done|].
  apply andb_true_iff in Hi as [? ?]. apply bool_decide_eq_false in Hp.
  by exists c, r.
Qed.

Lemma parse_written_lines m st i :
  currentKey st = None -> forallb portable_entry m = true ->
  for_each (fun _ line st => parse_line line st) i (map stringify_entry m) st
  = Ok {| env := foldl (fun e kv => Env.set kv.1 kv.2 e) (env st) m;
          currentKey := None; currentValue := currentValue st |}.
Proof.
  revert st i. induction m as [|[k v] m IH]; intros st i Hk Hm; cbn [map for_each foldl].
  - destruct st. cbn in *. by subst.
  - cbn [forallb] in Hm. apply andb_true_iff in Hm as [He Hm].
    apply portable_entry_spec in He as (c & r & Hkv & Hc & Hr & _ & Hv).
    cbn [fst snd] in *. subst k.
    rewrite parse_written_line by done. cbn [mbind result_bind].
    by rewrite IH.
Qed.

(** ** Objects *)

Lemma own_Some_keys (e : EnvObject) k v : Env.own e k = Some v -> k ∈ Env.keys e.
Proof.
  induction e as [|[k' v'] e IH]; cbn [Env.own]; [done|].
  unfold Env.keys in *. cbn [fmap list_fmap fst].
  case_decide as Hk; [subst; intros _; by left|]. intros H. right. by apply IH.
Qed.

Lemma own_None_keys (e : EnvObject) k : Env.own e k = None <-> k ∉ Env.keys e.
Proof.
  induction e as [|[k' v'] e IH]; cbn [Env.own].
  - split; [intros _; by intros ?%elem_of_nil|done].
  - unfold Env.keys in *. cbn [fmap list_fmap fst]. rewrite not_elem_of_cons.
    case_decide as Hk; [subst|].
    + split; [done|]. by intros [? _].
    + rewrite IH. split; [by split|by intros [_ ?]].
Qed.

Lemma own_define k v (e : EnvObject) k' :
  Env.own (Env.define k v e) k' = if decide (k = k') then Some v else Env.own e k'.
Proof.
  induction e as [|[k0 v0] e IH]; cbn [Env.define Env.own].
  - done.
  - destruct (decide (k0 = k)) as [->|Hne]; cbn [Env.own].
    + by destruct (decide (k = k')).
    + rewrite IH. destruct (decide (k0 = k')) as [->|]; [|done].
      by rewrite decide_False.
Qed.

Lemma own_app (a b : EnvObject) k :
  Env.own (a ++ b) k = match Env.own a k with Some v => Some v | None => Env.own b k end.
Proof.
  induction a as [|[k0 v0] a IH]; cbn [app Env.own]; [done|].
  by destruct (decide (k0 = k)).
Qed.

Lemma own_spread (a b : EnvObject) k :
  Env.own (Env.spread a b) k
  = match Env.own (rev b) k with Some v => Some v | None => Env.own a k end.
Proof.
  unfold Env.spread. revert a. induction b as [|[k1 v1] b IH]; intros a; cbn [foldl rev].
  - done.
  - rewrite IH, own_app, own_define. cbn [fst snd Env.own].
    destruct (Env.own (rev b) k); [done|]. by destruct (decide (k1 = k)).
Qed.

Lemma own_rev (e : EnvObject) k : NoDup (Env.keys e) -> Env.own (rev e) k = Env.own e k.
Proof.
  induction e as [|[k0 v0] e IH]; intros Hnd; [done|].
  unfold Env.keys in *. cbn [fmap list_fmap fst] in Hnd.
  apply NoDup_cons in Hnd as [Hk Hnd]. cbn [rev Env.own].
  rewrite own_app, IH by done. cbn [Env.own].
  destruct (decide (k0 = k)) as [->|].
  - apply own_None_keys in Hk. unfold Env.keys. by rewrite Hk.
  - by destruct (Env.own e k).
Qed.

Lemma elem_of_array_from_set x xs : x ∈ array_from_set xs <-> x ∈ xs.
Proof.
  unfold array_from_set.
  assert (forall acc, x ∈ foldl (fun acc x => if bool_decide (x ∈ acc) then acc else acc ++ [x]) acc xs
                      <-> x ∈ acc \/ x ∈ xs) as H.
  { induction xs as [|y xs IH]; intros acc; cbn [foldl].
    - split; [by left|]. by intros [?|?%elem_of_nil].
    - rewrite IH, elem_of_cons. case_bool_decide as Hy.
      + split; [intros [?|?]; [by left|by right; right]|].
        intros [?|[->|?]]; [by left|by left|by right].
      + rewrite elem_of_app, list_elem_of_singleton.
        split; [intros [[?|?]|?]; [by left|by right; left|by right; right]|].
        intros [?|[?|?]]; [by left; left|by left; right|by right]. }
  rewrite H. split; [by intros [?%elem_of_nil|?]|by right].
Qed.

(** [getDifferentKeys] keeps every key of either object on which the two
    lookups differ. *)
Lemma elem_of_getDifferentKeys env1 env2 k :
  k ∈ getDifferentKeys env1 env2 <->
  (k ∈ Env.keys env1 \/ k ∈ Env.keys env2) /\ Env.get env1 k ≠ Env.get env2 k.
Proof.
  unfold getDifferentKeys. rewrite list_elem_of_filter, elem_of_array_from_set, elem_of_app.
  tauto.
Qed.

(** In particular it keeps every key that only one of the two objects has. *)
Lemma getDifferentKeys_one_sided env1 env2 k v :
  Env.own env1 k = Some v -> Env.own env2 k = None -> k ∈ getDifferentKeys env1 env2.
Proof.
  intros H1 H2. apply elem_of_getDifferentKeys. split.
  - left. by eapply own_Some_keys.
  - unfold Env.get. rewrite H1, H2. by case_bool_decide.
Qed.

(** ** The [preserve] strategy *)

Lemma own_set k v (e : EnvObject) k' :
  k ≠ js "__proto__" ->
  Env.own (Env.set k v e) k' = if decide (k = k') then Some v else Env.own e k'.
Proof. intros Hp. unfold Env.set. rewrite decide_False by done. apply own_define. Qed.

Lemma own_set_other k v (e : EnvObject) k' :
  k ≠ k' -> Env.own (Env.set k v e) k' = Env.own e k'.
Proof.
  intros Hk. unfold Env.set.
  destruct (decide (k = js "__proto__")); [destruct (Env.own e k)|];
    rewrite ?own_define, ?decide_False; done.
Qed.

Lemma own_copy_keys_other s (e : EnvObject) ks k :
  k ∉ ks \/ Env.own s k = None ->
  Env.own (foldl (Sync.copy_key s) e ks) k = Env.own e k.
Proof.
  revert e. induction ks as [|k1 ks IH]; intros e Hk; cbn [foldl]; [done|].
  rewrite IH.
  - unfold Sync.copy_key. destruct (Env.own s k1) as [v|] eqn:E1; [|done].
    apply own_set_other. intros ->. destruct Hk as [Hk|Hk]; [|congruence].
    apply Hk. by left.
  - destruct Hk as [Hk|Hk]; [|by right]. left. intros Hin. apply Hk. by right.
Qed.

Lemma own_copy_keys_copied s (e : EnvObject) ks k v :
  k ∈ ks -> k ≠ js "__proto__" -> Env.own s k = Some v ->
  Env.own (foldl (Sync.copy_key s) e ks) k = Some v.
Proof.
  revert e. induction ks as [|k1 ks IH]; intros e Hin Hp Hs; [by apply elem_of_nil in Hin|].
  cbn [foldl]. destruct (decide (k ∈ ks)) as [Hin'|Hnin]; [by apply IH|].
  apply elem_of_cons in Hin as [->|?]; [|done].
  rewrite own_copy_keys_other by (by left).
  unfold Sync.copy_key. rewrite Hs, own_set by done. by rewrite decide_True.
Qed.

Lemma spread_fresh (a e : EnvObject) :
  NoDup (Env.keys e) -> (forall k, k ∈ Env.keys e -> k ∉ Env.keys a) ->
  Env.spread a e = a ++ e.
Proof.
  unfold Env.spread. revert a. induction e as [|[k v] e IH]; intros a Hnd Hfresh; cbn [foldl].
  - by rewrite app_nil_r.
  - unfold Env.keys in *. cbn [fmap list_fmap fst] in Hnd, Hfresh.
    apply NoDup_cons in Hnd as [Hk Hnd]. cbn [fst snd].
    rewrite define_fresh by (apply Hfresh; by left).
    rewrite IH; [by rewrite <- app_assoc|done|].
    intros k' Hk'. rewrite fmap_app, elem_of_app. intros [He|Hin].
    + by apply (Hfresh k'); [right|].
    + cbn in Hin. apply list_elem_of_singleton in Hin as ->. done.
Qed.

(** A copy of an object. *)
Lemma spread_copy (e : EnvObject) : NoDup (Env.keys e) -> Env.spread [] e = e.
Proof.
  intros Hnd. rewrite spread_fresh; [done|done|].
  intros k _. by intros ?%elem_of_nil.
Qed.

(** Where no key of the source is the name of an inherited property, the
    [preserve] branch and [mergeEnv(source, target)] give every key the same
    value. *)
Lemma preserve_merge_agree source target :
  NoDup (Env.keys source) -> NoDup (Env.keys target) ->
  (forall k, k ∈ Env.keys source -> k ∉ Env.inherited) ->
  forall k, Env.own (Sync.preserve source target) k
            = Env.own (mergeEnv [source; target]) k.
Proof.
  intros Hs Ht Hin k. unfold Sync.preserve, mergeEnv. cbn [foldl].
  change (Env.spread [] []) with (@nil (jsstring * jsstring)).
  rewrite !(spread_copy source Hs), (spread_copy target Ht).
  rewrite own_spread, own_rev by done.
  destruct (Env.own target k) as [v|] eqn:Et.
  - rewrite own_copy_keys_other; [done|].
    left. unfold getMissingKeys. rewrite list_elem_of_filter. intros [Hm _].
    unfold Env.has in Hm. by rewrite Et in Hm.
  - destruct (Env.own source k) as [v|] eqn:Es.
    + apply own_copy_keys_copied; [|intros ->|done].
      * unfold getMissingKeys. rewrite list_elem_of_filter.
        pose proof (own_Some_keys _ _ _ Es) as Hk. split; [|done].
        unfold Env.has. rewrite Et. rewrite bool_decide_eq_false_2; [done|by apply Hin].
      * apply own_Some_keys in Es. apply Hin in Es. apply Es. by apply (bool_decide_unpack _).
    + by rewrite own_copy_keys_other by (by right).
Qed.

(** * The claims *)

Lemma line_error_in_content content i line e :
  split_lf content !! i = Some line ->
  e ∈ line_errors i line (keys_after (take i (split_lf content)) ∅) ->
  e ∈ all_errors 0 (split_lf content) ∅.
Proof. intros Hi He. apply elem_of_all_errors. by exists i, line. Qed.

Lemma classify_Malformed line :
  truthy (trim line) = true -> test COMMENT (trim line) = false ->
  exec ENV_LINE (trim line) = None -> exec EXPORT_LINE (trim line) = None ->
  classify line = Malformed.
Proof. intros Ht Hc He Hx. unfold classify. by rewrite Ht, Hc, He, Hx. Qed.

(** C1, as the code has it.  On the example of the specification,
    A = {X:1, Y:2} and B = {Y:3, Z:4}, [getDifferentKeys] returns X, Y and Z:
    the keys present in one object only are returned with the key whose value
    changed ([getDifferentKeys_one_sided] is the general fact), where the
    claim and the comment of the function promise Y alone. *)
Theorem C1_changed_keys_example :
  getDifferentKeys [(js "X", js "1"); (js "Y", js "2")]
                   [(js "Y", js "3"); (js "Z", js "4")]
  = [js "X"; js "Y"; js "Z"].
Proof. by vm_compute. Qed.

(** C2, as the code has it.  The text KEY=line1, backslash, newline, line2
    parses to KEY = line1line2: the line that opens a continuation is joined
    to the next one without the newline that later continuation lines get,
    where the claim promises line1, newline, line2. *)
Theorem C2_first_continuation_joined_without_newline :
  parseEnvContent (js "KEY=line1" ++ [BSL; LF] ++ js "line2")
  = Ok [(js "KEY", js "line1line2")].
Proof. by vm_compute. Qed.

(** C3, as the code has it.  The line "export KEY=VALUE" leaves the mapping
    empty, while "KEY=VALUE" records KEY: the export branch of the parser sits
    inside the branch of [ENV_LINE], which no export line matches
    ([export_after_env_line], [parse_line_export]). *)
Theorem C3_export_line_dropped :
  parseEnvContent (js "export KEY=VALUE") = Ok []
  /\ parseEnvContent (js "KEY=VALUE") = Ok [(js "KEY", js "VALUE")].
Proof. split; by vm_compute. Qed.

(** C4 fails as stated: the key abc is of the form [A-Za-z_][A-Za-z0-9_]*, and
    the validator reports it as an invalid key. *)
Lemma C4_lowercase_key_rejected :
  is_identifier (js "abc") = true
  /\ validateEnvContent (js "abc=1") = Ok [msg_invalid_key 1 (js "abc")].
Proof. split; by vm_compute. Qed.

(** C4, amended.  For every line of a content that the validator reads as
    KEY=VALUE (not blank, not a comment, matching [ENV_LINE]), the result of
    the validator has the invalid-key message of that line and key exactly
    when the key does not match [ENV_KEY], the upper-case pattern
    ^ [A-Z_] [A-Z0-9_]* $ ([test_ENV_KEY] spells it out). *)
Theorem C4_invalid_key content i line key value :
  split_lf content !! i = Some line ->
  classify line = Plain key value ->
  exists errs,
    validateEnvContent content = Ok errs
    /\ (msg_invalid_key (i + 1) key ∈ errs <-> test ENV_KEY key = false).
Proof.
  intros Hi Hc. eexists. split; [apply validateEnvContent_spec|]. split.
  - intros (j & line' & _ & H)%elem_of_all_errors.
    by apply invalid_in_line_errors in H as (_ & _ & _ & ?).
  - intros Hk. apply (line_error_in_content _ i line); [done|].
    apply invalid_in_line_errors. unfold key_of_line. rewrite Hc.
    by rewrite (classify_Plain_truthy _ _ _ Hc).
Qed.

Lemma C4_invalid_key_witness :
  exists errs,
    validateEnvContent (js "abc=1") = Ok errs
    /\ (msg_invalid_key (0 + 1) (js "abc") ∈ errs <-> test ENV_KEY (js "abc") = false).
Proof.
  apply (C4_invalid_key (js "abc=1") 0 (js "abc=1") (js "abc") (js "1")); reflexivity.
Defined.

(** C5 fails as stated, in both halves.  A value that needs quoting and holds
    a newline is written on two lines and read back as the first of them with
    its opening quote; a mapping whose key is not an identifier is read back
    empty although its value needs no quoting. *)
Lemma C5_round_trip_fails :
  let quoted := [(js "A", js "a b" ++ [LF] ++ js "c")] in
  let plain := [(js "a-b", js "1")] in
  shouldQuoteValue (js "a b" ++ [LF] ++ js "c") = true
  /\ parseEnvContent (stringifyEnv quoted) = Ok [(js "A", [DQ] ++ js "a b")]
  /\ parseEnvContent (stringifyEnv quoted) ≠ Ok quoted
  /\ shouldQuoteValue (js "1") = false
  /\ parseEnvContent (stringifyEnv plain) = Ok []
  /\ parseEnvContent (stringifyEnv plain) ≠ Ok plain.
Proof. repeat split; by vm_compute. Qed.

(** C5, amended.  For every mapping with distinct keys, each an identifier
    [A-Za-z_][A-Za-z0-9_]* other than __proto__, and with values free of line
    terminators, parsing the text that [stringifyEnv] writes gives the mapping
    back, entry for entry and in order, whether or not the values need
    quoting. *)
Theorem C5_round_trip (m : EnvObject) :
  NoDup (Env.keys m) -> forallb portable_entry m = true ->
  parseEnvContent (stringifyEnv m) = Ok m.
Proof.
  intros Hnd Hm. unfold parseEnvContent, stringifyEnv, parse_lines.
  destruct m as [|kv m]; [done|].
  rewrite split_lf_join.
  - rewrite parse_written_lines by done. cbn [mbind result_bind].
    unfold parse_finish. cbn [currentKey env parse_init].
    rewrite foldl_set_fresh; [done|done| |].
    + intros k _. by intros ?%elem_of_nil.
    + rewrite Forall_forall. intros kv' Hin%list_elem_of_In.
      rewrite forallb_forall in Hm. apply Hm in Hin.
      by apply portable_entry_spec in Hin as (c & r & _ & _ & _ & ? & _).
  - done.
  - apply Forall_map, Forall_forall. intros kv' Hin%list_elem_of_In.
    rewrite forallb_forall in Hm. apply Hm in Hin.
    apply portable_entry_spec in Hin as (c & r & Hkv & Hc & Hr & _ & Hv).
    destruct kv' as [k v]. cbn [fst snd] in *. subst k.
    by apply written_line_no_LF.
Qed.

Lemma C5_round_trip_witness :
  parseEnvContent
    (stringifyEnv [(js "A", js "1"); (js "B", js "a b"); (js "C", js "x=y" ++ [BSL])])
  = Ok [(js "A", js "1"); (js "B", js "a b"); (js "C", js "x=y" ++ [BSL])].
Proof.
  apply C5_round_trip; [|reflexivity].
  apply (bool_decide_unpack _). reflexivity.
Defined.

(** C6.  On A=1, newline, A=2 the validator returns one message, the
    duplicate-key message of line 2.  For every content, a duplicate-key
    message for line n and a key is returned exactly when line n carries that
    key, the key is well formed, and an earlier line carries it too: the first
    line that carries a key is never reported as a duplicate, every later one
    is. *)
Theorem C6_duplicates :
  validateEnvContent (js "A=1" ++ [LF] ++ js "A=2")
    = Ok [msg_duplicate_key 2 (js "A")]
  /\ forall content, exists errs,
       validateEnvContent content = Ok errs
       /\ forall n key,
            msg_duplicate_key n key ∈ errs <->
            exists i line,
              n = (i + 1)%nat /\ split_lf content !! i = Some line
              /\ key_of_line line = Some key /\ test ENV_KEY key = true
              /\ exists j line', (j < i)%nat /\ split_lf content !! j = Some line'
                   /\ key_of_line line' = Some key.
Proof.
  split; [by vm_compute|].
  intros content. eexists. split; [apply validateEnvContent_spec|].
  intros n key. split.
  - intros (i & line & Hi & H)%elem_of_all_errors.
    apply duplicate_in_line_errors in H as (-> & Hk & Hv & Hin).
    exists i, line. repeat split; try done.
    apply elem_of_keys_after in Hin as [?%elem_of_empty|(j & line' & Hj & Hk' & _)]; [done|].
    apply lookup_take_Some in Hj as [Hj ?]. by exists j, line'.
  - intros (i & line & -> & Hi & Hk & Hv & j & line' & Hji & Hj & Hk').
    apply (line_error_in_content _ i line); [done|].
    apply duplicate_in_line_errors. repeat split; try done.
    apply elem_of_keys_after. right. exists j, line'. repeat split; try done.
    by rewrite lookup_take_lt.
Qed.

(** For every line of a content that the validator reads as KEY=VALUE and
    whose value is non-empty, not wrapped in quotes and holds a space, the
    result of the validator has the unquoted-value message of that line, and
    the lint command files it, as it files every message of the validator,
    with the line number, the text after the line prefix, and severity
    error. *)
Lemma unquoted_value_reported content i line key value :
  split_lf content !! i = Some line ->
  classify line = Plain key value ->
  unquoted_with_spaces value = true ->
  exists errs,
    validateEnvContent content = Ok errs
    /\ msg_unquoted (i + 1) key value ∈ errs
    /\ Lint.issue_of (msg_unquoted (i + 1) key value)
       = {| Lint.line := (i + 1)%nat;
            Lint.message := js "Unquoted value with spaces - consider quoting: "
                            ++ key ++ js "=" ++ [DQ] ++ value ++ [DQ];
            Lint.sev := Lint.error |}
    /\ Forall (fun issue => Lint.sev issue = Lint.error) (Lint.validation_issues errs).
Proof.
  intros Hi Hc Hu. eexists. split; [apply validateEnvContent_spec|]. split; [|split].
  - apply (line_error_in_content _ i line); [done|].
    unfold line_errors. rewrite Hc, Hu. apply elem_of_app. right.
    by apply list_elem_of_singleton.
  - apply issue_of_message.
  - unfold Lint.validation_issues. by apply Forall_map, Forall_true.
Qed.

(** C7, as the code has it.  On the two lines
    DESCRIPTION=This is a value with spaces  and  API_KEY=secret  the
    validator returns one message, the unquoted-value message of line 1, and
    the lint command files it with severity error, not warning: without the
    strict option the command fails, with one error and one warning, both
    for line 1 and both for the unquoted value.  The warning is the finding
    of the command's own check of the same condition
    ([LintCommand.unquoted_issue]); the validator's message for it is filed
    as an error by the collection loop, which gives every message of the
    validator that severity ([unquoted_value_reported]). *)
Theorem C7_unquoted_value_filed_as_error :
  let content :=
    js "DESCRIPTION=This is a value with spaces" ++ [LF] ++ js "API_KEY=secret" in
  let reported :=
    js "Unquoted value with spaces - consider quoting: DESCRIPTION="
    ++ [DQ] ++ js "This is a value with spaces" ++ [DQ] in
  validateEnvContent content
  = Ok [msg_unquoted 1 (js "DESCRIPTION") (js "This is a value with spaces")]
  /\ exists o,
       LintCommand.lintCommand content false true = Ok o
       /\ LintCommand.success o = false
       /\ LintCommand.errorCount o = 1%nat
       /\ LintCommand.warningCount o = 1%nat
       /\ LintCommand.shown o
          = [ {| Lint.line := 1%nat; Lint.message := reported; Lint.sev := Lint.error |};
              {| Lint.line := 1%nat;
                 Lint.message := js "Value with spaces should be quoted";
                 Lint.sev := Lint.warning |} ].
Proof.
  split; [by vm_compute|]. eexists. split; [by vm_compute|]. repeat split.
Qed.

(** C8 fails as stated: the comment line that follows KEY=a, backslash, is
    appended to the value of KEY. *)
Lemma C8_comment_appended :
  test COMMENT (trim (js "# c")) = true
  /\ parseEnvContent (js "KEY=a" ++ [BSL; LF] ++ js "# c") = Ok [(js "KEY", js "a# c")].
Proof. split; by vm_compute. Qed.

(** C8, amended.  A comment line is skipped where no continuation is open.
    Where one is open, the parser treats a comment line as it treats every
    line: one that ends in a backslash is appended to the accumulated value,
    without the backslash and followed by a newline; any other is appended and
    closes the entry of the current key. *)
Theorem C8_comment_line line st :
  test COMMENT (trim line) = true ->
  parse_line line st
  = Ok match currentKey st with
       | None => st
       | Some key =>
           if endsWith line [BSL]
           then {| env := env st; currentKey := Some key;
                   currentValue := currentValue st ++ slice line 0 (-1) ++ [LF] |}
           else {| env := Env.set key (processValue (currentValue st ++ line)) (env st);
                   currentKey := None; currentValue := [] |}
       end.
Proof.
  intros Hc. destruct (currentKey st) as [key|] eqn:Hk.
  - by apply parse_line_continuation.
  - by apply parse_line_comment.
Qed.

Lemma C8_comment_line_witness :
  parse_line (js "# c")
    {| env := []; currentKey := Some (js "KEY"); currentValue := js "a" |}
  = Ok {| env := [(js "KEY", js "a# c")]; currentKey := None; currentValue := [] |}.
Proof.
  apply (C8_comment_line (js "# c")
           {| env := []; currentKey := Some (js "KEY"); currentValue := js "a" |});
    reflexivity.
Defined.

(** C9.  For every content the parser returns a mapping and the validator
    returns a list of messages: neither throws.  Every line that is not blank,
    not a comment and matches neither pattern has its invalid-syntax message
    in the result of the validator, and the parser, outside a continuation,
    leaves its state as it is on every line that does not match [ENV_LINE]. *)
Theorem C9_never_throws content :
  (exists env, parseEnvContent content = Ok env)
  /\ (exists errs,
        validateEnvContent content = Ok errs
        /\ forall i line,
             split_lf content !! i = Some line ->
             truthy (trim line) = true -> test COMMENT (trim line) = false ->
             exec ENV_LINE (trim line) = None -> exec EXPORT_LINE (trim line) = None ->
             msg_invalid_syntax (i + 1) ∈ errs)
  /\ (forall line st,
        currentKey st = None -> exec ENV_LINE (trim line) = None ->
        parse_line line st = Ok st).
Proof.
  split; [apply parseEnvContent_ok|]. split; [|apply parse_line_skip].
  eexists. split; [apply validateEnvContent_spec|].
  intros i line Hi Ht Hc He Hx.
  apply (line_error_in_content _ i line); [done|].
  unfold line_errors. rewrite (classify_Malformed _ Ht Hc He Hx).
  by apply list_elem_of_singleton.
Qed.

(** C10, as the code has it.  With the source file "constructor=x" and an
    empty target file, the [preserve] branch yields the empty mapping and
    [mergeEnv(source, target)] the mapping of the source: [getMissingKeys]
    asks [key in target], which holds for the names every object inherits.
    Away from those names the two agree ([preserve_merge_agree]). *)
Theorem C10_preserve_drops_inherited_name :
  parseEnvContent (js "constructor=x") = Ok [(js "constructor", js "x")]
  /\ parseEnvContent [] = Ok []
  /\ Sync.preserve [(js "constructor", js "x")] [] = []
  /\ mergeEnv [[(js "constructor", js "x")]; []] = [(js "constructor", js "x")].
Proof. repeat split; by vm_compute. Qed.

(** * Properties of the rest of the code *)

(** ** The parser, line by line *)

Lemma parse_line_classify line st :
  currentKey st = None ->
  parse_line line st
  = Ok match classify line with
       | Plain key value =>
           if endsWith value [BSL]
           then {| env := env st; currentKey := Some key;
                   currentValue := slice value 0 (-1) |}
           else {| env := Env.set key (processValue value) (env st);
                   currentKey := None; currentValue := currentValue st |}
       | _ => st
       end.
Proof.
  intros Hk. unfold classify.
  destruct (truthy (trim line)) eqn:Ht; cbn [negb orb].
  2:{ unfold parse_line. by rewrite Hk, Ht. }
  destruct (test COMMENT (trim line)) eqn:Hc.
  { by apply parse_line_comment. }
  destruct (exec ENV_LINE (trim line)) as [m|] eqn:Hm.
  - destruct (exec_three_groups ENV_LINE _ _ eq_refl Hm) as (g0 & g1 & g2 & Hg).
    destruct m as [gs i a]. cbn in Hg. subst gs.
    cbn [groups lookup list_lookup].
    rewrite (parse_line_plain _ _ g0 g1 g2 i a) by done.
    by destruct (endsWith (trim g2) [BSL]).
  - rewrite parse_line_skip by done.
    destruct (exec EXPORT_LINE (trim line)) as [m|]; [|done].
    by destruct (groups m !! 1%nat).
Qed.

Lemma classify_Plain_identifier line key value :
  classify line = Plain key value -> is_identifier key = true.
Proof.
  intros (c & k & v & -> & Hc & Hk & _)%classify_Plain.
  unfold is_identifier. by rewrite Hc, Hk.
Qed.

(** ** Keys of objects under assignment *)

Lemma keys_define k v (e : EnvObject) :
  Env.keys (Env.define k v e)
  = if bool_decide (k ∈ Env.keys e) then Env.keys e else Env.keys e ++ [k].
Proof.
  unfold Env.keys. induction e as [|[k0 v0] e IH]; cbn [Env.define fmap list_fmap fst].
  - done.
  - destruct (decide (k0 = k)) as [->|Hne]; cbn [fmap list_fmap fst].
    + rewrite bool_decide_eq_true_2; [done|by left].
    + rewrite IH. case_bool_decide as Hin.
      * rewrite bool_decide_eq_true_2; [done|by right].
      * rewrite bool_decide_eq_false_2; [done|].
        intros [?|?]%elem_of_cons; [congruence|done].
Qed.

Lemma keys_set_sub k v (e : EnvObject) k' :
  k' ∈ Env.keys (Env.set k v e) -> k' ∈ Env.keys e \/ (k' = k /\ k ≠ js "__proto__").
Proof.
  unfold Env.set. destruct (decide (k = js "__proto__")) as [->|Hp].
  - destruct (Env.own e (js "__proto__")) eqn:Eo; [|by left].
    rewrite keys_define, bool_decide_eq_true_2 by (by eapply own_Some_keys). by left.
  - rewrite keys_define. case_bool_decide; [by left|].
    rewrite elem_of_app, list_elem_of_singleton. intros [?| ->]; [by left|by right].
Qed.

Lemma NoDup_keys_define k v (e : EnvObject) :
  NoDup (Env.keys e) -> NoDup (Env.keys (Env.define k v e)).
Proof.
  intros Hnd. rewrite keys_define. case_bool_decide as Hin; [done|].
  apply NoDup_app. split; [done|]. split; [|apply NoDup_singleton].
  intros x Hx Hx'. apply list_elem_of_singleton in Hx' as ->. done.
Qed.

Lemma NoDup_keys_set k v (e : EnvObject) :
  NoDup (Env.keys e) -> NoDup (Env.keys (Env.set k v e)).
Proof.
  intros Hnd. unfold Env.set.
  destruct (decide (k = js "__proto__")); [destruct (Env.own e k)|];
    try done; by apply NoDup_keys_define.
Qed.

Lemma identifier_keys_nil : identifier_keys [].
Proof. split; [apply NoDup_nil_2|]. by intros k ?%elem_of_nil. Qed.

Lemma identifier_keys_set k v e :
  is_identifier k = true -> identifier_keys e -> identifier_keys (Env.set k v e).
Proof.
  intros Hk [Hnd Hid]. split; [by apply NoDup_keys_set|].
  intros k' [Hin|[-> Hp]]%keys_set_sub; [by apply Hid|done].
Qed.

(** ** The keys of a parsed object *)

Lemma parse_line_inv line st st' :
  parse_inv st -> parse_line line st = Ok st' -> parse_inv st'.
Proof.
  intros [He Hk]. destruct (currentKey st) as [key|] eqn:Ek.
  - rewrite (parse_line_continuation _ _ _ Ek).
    destruct (endsWith line [BSL]); intros [= <-]; split; cbn; try done.
    apply identifier_keys_set; [by apply Hk|done].
  - rewrite parse_line_classify by done.
    destruct (classify line) as [|key value|key|] eqn:Ec; intros [= <-];
      try (split; [done|]; by rewrite Ek).
    apply classify_Plain_identifier in Ec.
    destruct (endsWith value [BSL]); split; cbn; try done.
    + by intros k [= <-].
    + by apply identifier_keys_set.
Qed.

Lemma for_each_inv {S A} (P : S -> Prop) (body : nat -> A -> S -> result S) xs i st st' :
  (forall i x st st', P st -> body i x st = Ok st' -> P st') ->
  P st -> for_each body i xs st = Ok st' -> P st'.
Proof.
  intros Hbody. revert i st. induction xs as [|x xs IH]; intros i st Hst; cbn [for_each].
  - by intros [= <-].
  - destruct (body i x st) as [st1|] eqn:E; cbn [mbind result_bind]; [|done].
    apply IH. by eapply Hbody.
Qed.

Lemma parse_finish_inv st : parse_inv st -> identifier_keys (parse_finish st).
Proof.
  intros [He Hk]. unfold parse_finish. destruct (currentKey st) as [key|]; [|done].
  apply identifier_keys_set; [by apply Hk|done].
Qed.

Lemma parseEnvContent_identifier_keys content env :
  parseEnvContent content = Ok env -> identifier_keys env.
Proof.
  unfold parseEnvContent, parse_lines.
  destruct (for_each _ _ _ _) as [st|] eqn:E; cbn [mbind result_bind]; [|done].
  intros [= <-]. apply parse_finish_inv.
  apply (for_each_inv parse_inv _ _ _ parse_init st) in E; [done| |].
  - intros _ x s s'. apply parse_line_inv.
  - split; [apply identifier_keys_nil|done].
Qed.

(** ** [parseEnvEntries] *)

Lemma entries_line_spec i line es :
  EnvParser2.entries_line i line es = Ok (es ++ line_entries i line).
Proof.
  unfold EnvParser2.entries_line, line_entries, classify.
  destruct (negb (truthy (trim line)) || test COMMENT (trim line)).
  { cbv beta iota. by rewrite app_nil_r. }
  destruct (exec ENV_LINE (trim line)) as [m|] eqn:Hm.
  - destruct (exec_three_groups ENV_LINE _ _ eq_refl Hm) as (g0 & g1 & g2 & Hg).
    unfold group. rewrite Hg, (export_after_env_line _ _ Hm).
    by cbn [lookup list_lookup mbind result_bind].
  - destruct (exec EXPORT_LINE (trim line)) as [m|]; [|by rewrite app_nil_r].
    destruct (groups m !! 1%nat); by rewrite app_nil_r.
Qed.

Lemma entries_loop_spec lines i es :
  for_each EnvParser2.entries_line i lines es = Ok (es ++ entries_from i lines).
Proof.
  revert i es. induction lines as [|line lines IH]; intros i es; cbn [for_each entries_from].
  - by rewrite app_nil_r.
  - rewrite entries_line_spec. cbn [mbind result_bind]. by rewrite IH, app_assoc.
Qed.

Lemma parseEnvEntries_spec content :
  EnvParser2.parseEnvEntries content = Ok (entries_from 0 (split_lf content)).
Proof. unfold EnvParser2.parseEnvEntries. by rewrite entries_loop_spec. Qed.

Lemma elem_of_line_entries e i line :
  e ∈ line_entries i line <->
  exists v, classify line = Plain (EnvEntry.key e) v
    /\ EnvEntry.value e = processValue v /\ EnvEntry.line e = (i + 1)%nat.
Proof.
  unfold line_entries. destruct (classify line) as [|key value|key|].
  - split; [by intros ?%elem_of_nil|]. by intros (v & ? & _).
  - rewrite list_elem_of_singleton. split.
    + intros ->. by exists value.
    + intros (v & [= -> ->] & Hv & Hl). destruct e. cbn in *. by subst.
  - split; [by intros ?%elem_of_nil|]. by intros (v & ? & _).
  - split; [by intros ?%elem_of_nil|]. by intros (v & ? & _).
Qed.

Lemma elem_of_entries_from e lines i :
  e ∈ entries_from i lines <->
  exists j line, lines !! j = Some line /\ e ∈ line_entries (i + j) line.
Proof.
  revert i. induction lines as [|l lines IH]; intros i; cbn [entries_from].
  - split; [by intros ?%elem_of_nil|]. by intros (j & line & ? & _).
  - rewrite elem_of_app, IH. split.
    + intros [H|(j & line & Hj & H)].
      * exists 0%nat, l. by rewrite Nat.add_0_r.
      * exists (Datatypes.S j), line. split; [done|].
        by replace (i + Datatypes.S j)%nat with (Datatypes.S i + j)%nat by lia.
    + intros ([|j] & line & Hj & H).
      * left. cbn in Hj. simplify_eq. by rewrite Nat.add_0_r in H.
      * right. exists j, line. split; [done|].
        by replace (i + Datatypes.S j)%nat with (Datatypes.S i + j)%nat in H by lia.
Qed.

Lemma entries_from_sorted lines i :
  StronglySorted lt (map EnvEntry.line (entries_from i lines))
  /\ Forall (fun n => (i < n <= i + length lines)%nat)
            (map EnvEntry.line (entries_from i lines)).
Proof.
  revert i. induction lines as [|l lines IH]; intros i; cbn [entries_from].
  - split; constructor.
  - destruct (IH (Datatypes.S i)) as [Hs Hb]. rewrite map_app. unfold line_entries.
    assert (Forall (fun n => (i < n <= i + length (l :: lines))%nat)
              (map EnvEntry.line (entries_from (Datatypes.S i) lines))) as Hb'.
    { eapply Forall_impl; [exact Hb|]. cbn. intros n Hn. lia. }
    destruct (classify l); cbn [map app]; try done.
    split.
    + constructor; [done|]. eapply Forall_impl; [exact Hb|]. cbn. intros n Hn. lia.
    + constructor; [cbn; lia|done].
Qed.

(** ** The parser on a content without continuation *)

Lemma parse_loop_no_continuation lines i st :
  currentKey st = None ->
  Forall (fun line => opens_continuation line = false) lines ->
  for_each (fun _ line st => parse_line line st) i lines st
  = Ok {| env := assign_entries (entries_from i lines) (env st);
          currentKey := None; currentValue := currentValue st |}.
Proof.
  revert i st. induction lines as [|line lines IH]; intros i st Hk Hl;
    cbn [for_each entries_from].
  - destruct st. cbn in *. by subst.
  - apply Forall_cons in Hl as [Hc Hl].
    rewrite parse_line_classify by done. cbn [mbind result_bind].
    unfold opens_continuation in Hc. unfold line_entries, assign_entries.
    rewrite foldl_app.
    destruct (classify line) as [|key value|key|]; cbn [foldl];
      try (by rewrite IH).
    rewrite Hc. by rewrite IH.
Qed.

Lemma parseEnvContent_no_continuation content :
  Forall (fun line => opens_continuation line = false) (split_lf content) ->
  parseEnvContent content
  = Ok (assign_entries (entries_from 0 (split_lf content)) []).
Proof.
  intros Hl. unfold parseEnvContent, parse_lines.
  by rewrite parse_loop_no_continuation.
Qed.

(** ** What [stringifyEnv] writes is read back *)

Lemma stringify_parse_back (m : EnvObject) :
  NoDup (Env.keys m) -> forallb portable_entry m = true ->
  parseEnvContent (stringifyEnv m) = Ok m.
Proof.
  intros Hnd Hm. unfold parseEnvContent, stringifyEnv, parse_lines.
  destruct m as [|kv m]; [done|].
  assert (forall kv', kv' ∈ kv :: m -> portable_entry kv' = true) as Hall.
  { intros kv' Hin%list_elem_of_In. rewrite forallb_forall in Hm. by apply Hm. }
  rewrite split_lf_join; [|done|].
  - rewrite parse_written_lines by done. cbn [mbind result_bind].
    unfold parse_finish. cbn [currentKey env parse_init].
    apply f_equal, foldl_set_fresh; [done| |].
    + intros k _. by intros ?%elem_of_nil.
    + apply Forall_forall. intros kv' Hin%Hall.
      by apply portable_entry_spec in Hin as (c & r & _ & _ & _ & ? & _).
  - apply Forall_map, Forall_forall. intros [k v] Hin%Hall.
    apply portable_entry_spec in Hin as (c & r & Hkv & Hc & Hr & _ & Hv).
    cbn [fst snd] in *. subst k. by apply written_line_no_LF.
Qed.

(** ** Values without line terminators *)

Lemma forallb_skip (p q : N -> bool) s : forallb p s = true -> forallb p (skip q s) = true.
Proof.
  induction s as [|c s IH]; cbn [skip forallb]; [done|].
  intros [Hc Hs]%andb_true_iff. destruct (q c); [by apply IH|].
  cbn [forallb]. by rewrite Hc, Hs.
Qed.

Lemma forallb_rev (p : N -> bool) s : forallb p (rev s) = forallb p s.
Proof.
  induction s as [|c s IH]; [done|]. cbn [rev forallb].
  rewrite forallb_app, IH. cbn [forallb]. rewrite andb_true_r. apply andb_comm.
Qed.

Lemma forallb_trim (p : N -> bool) s : forallb p s = true -> forallb p (trim s) = true.
Proof.
  intros Hs. unfold trim, trimEnd, trimStart.
  rewrite forallb_rev. apply forallb_skip. rewrite forallb_rev. by apply forallb_skip.
Qed.

Lemma forallb_take (p : N -> bool) n s : forallb p s = true -> forallb p (take n s) = true.
Proof.
  revert n. induction s as [|c s IH]; intros [|n]; cbn [take forallb]; try done.
  intros [-> Hs]%andb_true_iff. by apply IH.
Qed.

Lemma forallb_drop (p : N -> bool) n s : forallb p s = true -> forallb p (drop n s) = true.
Proof.
  revert n. induction s as [|c s IH]; intros [|n]; cbn [drop forallb]; try done.
  intros [_ Hs]%andb_true_iff. by apply IH.
Qed.

Lemma forallb_processValue (p : N -> bool) s :
  forallb p s = true -> forallb p (processValue s) = true.
Proof.
  intros Hs. unfold processValue. destruct (_ || _); [|done].
  unfold slice. by apply forallb_take, forallb_drop.
Qed.

Lemma classify_Plain_value line key value :
  classify line = Plain key value -> forallb not_terminator (processValue value) = true.
Proof.
  intros (c & k & v & _ & _ & _ & -> & Hv & _)%classify_Plain.
  by apply forallb_processValue, forallb_trim.
Qed.

Lemma elem_of_define kv k v (e : EnvObject) :
  kv ∈ Env.define k v e -> kv ∈ e \/ kv = (k, v).
Proof.
  induction e as [|[k0 v0] e IH]; cbn [Env.define].
  - intros ->%list_elem_of_singleton. by right.
  - destruct (decide (k0 = k)) as [->|Hne].
    + intros [->|?]%elem_of_cons; [by right|left; by right].
    + intros [->|Hin]%elem_of_cons; [left; by left|].
      apply IH in Hin as [?|?]; [left; by right|by right].
Qed.

Lemma elem_of_set kv k v (e : EnvObject) :
  kv ∈ Env.set k v e -> kv ∈ e \/ kv = (k, v).
Proof.
  unfold Env.set. destruct (decide (k = js "__proto__")); [destruct (Env.own e k)|];
    try apply elem_of_define. by left.
Qed.

Lemma assign_entries_values (P : jsstring -> Prop) es (e : EnvObject) :
  (forall x, x ∈ es -> P (EnvEntry.value x)) ->
  (forall kv, kv ∈ e -> P kv.2) ->
  forall kv, kv ∈ assign_entries es e -> P kv.2.
Proof.
  unfold assign_entries. revert e. induction es as [|x es IH]; intros e Hes He; cbn [foldl].
  - done.
  - apply IH.
    + intros y Hy. apply Hes. by right.
    + intros kv [Hin| ->]%elem_of_set; [by apply He|]. apply Hes. by left.
Qed.

Lemma entries_from_values lines i x :
  x ∈ entries_from i lines -> forallb not_terminator (EnvEntry.value x) = true.
Proof.
  intros (j & line & _ & Hx)%elem_of_entries_from.
  apply elem_of_line_entries in Hx as (v & Hc & -> & _).
  by eapply classify_Plain_value.
Qed.

Lemma portable_intro (e : EnvObject) :
  identifier_keys e -> (forall kv, kv ∈ e -> forallb not_terminator kv.2 = true) ->
  forallb portable_entry e = true.
Proof.
  intros [_ Hid] Hv. apply forallb_forall. intros [k v] Hin%list_elem_of_In.
  unfold portable_entry. cbn [fst snd].
  destruct (Hid k) as [Hi Hp]; [unfold Env.keys; apply list_elem_of_fmap; by exists (k, v)|].
  pose proof (Hv _ Hin) as Hv'. cbn [snd] in Hv'.
  rewrite Hi, Hv', bool_decide_eq_false_2 by done. done.
Qed.

(** ** The example object of [initCommand] *)

Lemma exampleObject_spec (e : EnvObject) :
  identifier_keys e ->
  InitCommand.exampleObject e = map (fun k => (k, [])) (Env.keys e).
Proof.
  intros [Hnd Hid]. unfold InitCommand.exampleObject.
  assert (forall ks (acc : EnvObject),
            NoDup ks -> (forall k, k ∈ ks -> (k ∉ Env.keys acc) /\ k ≠ js "__proto__") ->
            foldl (fun o key => Env.set key [] o) acc ks
            = acc ++ map (fun k => (k, [])) ks) as H.
  { induction ks as [|k ks IH]; intros acc Hks Hfresh; cbn [foldl map].
    - by rewrite app_nil_r.
    - apply NoDup_cons in Hks as [Hk Hks].
      destruct (Hfresh k) as [Hka Hkp]; [by left|].
      unfold Env.set at 2. rewrite decide_False by done.
      rewrite define_fresh by done. rewrite IH; [by rewrite <- app_assoc|done|].
      intros k' Hk'. split; [|apply Hfresh; by right].
      unfold Env.keys. rewrite fmap_app, elem_of_app. intros [Hin|Hin].
      + destruct (Hfresh k') as [Hn _]; [by right|]. done.
      + cbn in Hin. apply list_elem_of_singleton in Hin as ->. done. }
  rewrite H; [done|done|].
  intros k Hk. split; [by intros ?%elem_of_nil|by apply Hid].
Qed.

Lemma keys_with_empty_values (ks : list jsstring) :
  Env.keys (map (fun k => (k, [])) ks) = ks.
Proof. unfold Env.keys. induction ks as [|k ks IH]; cbn; [done|]. by f_equal. Qed.

Lemma getMissingKeys_nil target source :
  (forall k, k ∈ Env.keys source -> Env.has target k = true) ->
  getMissingKeys target source = [].
Proof.
  intros H. unfold getMissingKeys.
  induction (Env.keys source) as [|k ks IH]; [done|].
  rewrite filter_cons. rewrite decide_False.
  - apply IH. intros k' Hk'. apply H. by right.
  - rewrite H; [done|by left].
Qed.

Lemma has_own_key (e : EnvObject) k : k ∈ Env.keys e -> Env.has e k = true.
Proof.
  intros Hk. unfold Env.has. destruct (Env.own e k) eqn:E; [done|].
  by apply own_None_keys in E.
Qed.

(** ** Missing and extra keys *)

Lemma elem_of_getMissingKeys target source k :
  k ∈ getMissingKeys target source <->
  k ∈ Env.keys source /\ (k ∉ Env.keys target) /\ (k ∉ Env.inherited).
Proof.
  unfold getMissingKeys. rewrite list_elem_of_filter, negb_true_iff.
  unfold Env.has. destruct (Env.own target k) as [v|] eqn:E.
  - apply own_Some_keys in E. split; [by intros [? _]|]. by intros (_ & ? & _).
  - apply own_None_keys in E. rewrite bool_decide_eq_false. tauto.
Qed.

Lemma elem_of_getExtraKeys target source k :
  k ∈ getExtraKeys target source <->
  k ∈ Env.keys target /\ (k ∉ Env.keys source) /\ (k ∉ Env.inherited).
Proof. apply (elem_of_getMissingKeys source target). Qed.

(** ** [mergeEnv] *)

Lemma NoDup_keys_spread (a b : EnvObject) :
  NoDup (Env.keys a) -> NoDup (Env.keys (Env.spread a b)).
Proof.
  unfold Env.spread. revert a. induction b as [|[k v] b IH]; intros a Ha; cbn [foldl]; [done|].
  apply IH. by apply NoDup_keys_define.
Qed.

Lemma mergeEnv_snoc envs b :
  mergeEnv (envs ++ [b]) = Env.spread (Env.spread [] (mergeEnv envs)) b.
Proof. unfold mergeEnv. by rewrite foldl_app. Qed.

Lemma NoDup_keys_mergeEnv envs : NoDup (Env.keys (mergeEnv envs)).
Proof.
  induction envs as [|b envs _] using rev_ind; [apply NoDup_nil_2|].
  rewrite mergeEnv_snoc. apply NoDup_keys_spread, NoDup_keys_spread, NoDup_nil_2.
Qed.

Lemma mergeEnv_snoc_copy envs b :
  mergeEnv (envs ++ [b]) = Env.spread (mergeEnv envs) b.
Proof. by rewrite mergeEnv_snoc, spread_copy by apply NoDup_keys_mergeEnv. Qed.

Lemma filter_ext_in {A} (P Q : A -> Prop) `{!forall x, Decision (P x)}
    `{!forall x, Decision (Q x)} (l : list A) :
  (forall x, x ∈ l -> P x <-> Q x) -> filter P l = filter Q l.
Proof.
  induction l as [|x l IH]; intros Hext; [done|]. rewrite !filter_cons.
  rewrite IH by (intros y Hy; apply Hext; by right).
  destruct (decide (P x)) as [Hp|Hp], (decide (Q x)) as [Hq|Hq]; try done.
  - exfalso. apply Hq, Hext; [by left|done].
  - exfalso. apply Hp, Hext; [by left|done].
Qed.

Lemma keys_spread (a b : EnvObject) :
  NoDup (Env.keys b) ->
  Env.keys (Env.spread a b)
  = Env.keys a ++ filter (fun k => k ∉ Env.keys a) (Env.keys b).
Proof.
  unfold Env.spread. revert a. induction b as [|[k v] b IH]; intros a Hb; cbn [foldl].
  - by rewrite app_nil_r.
  - unfold Env.keys in Hb. cbn [fmap list_fmap fst] in Hb.
    apply NoDup_cons in Hb as [Hk Hb]. rewrite IH by done. cbn [fst snd].
    rewrite keys_define. change (Env.keys ((k, v) :: b)) with (k :: Env.keys b).
    rewrite filter_cons. case_bool_decide as Hin.
    + by rewrite decide_False by (intros H; by apply H).
    + rewrite decide_True by done. rewrite <- app_assoc. cbn [app]. do 2 f_equal.
      apply filter_ext_in. intros x Hx.
      rewrite elem_of_app, list_elem_of_singleton. split.
      * intros H ?. apply H. by left.
      * intros H [?|Hxk]; [done|]. subst x. done.
Qed.

(** ** [filterEnv] *)

Lemma filterEnv_spec (e : EnvObject) ks :
  NoDup (Env.keys e) -> js "__proto__" ∉ Env.keys e ->
  EnvParser2.filterEnv e ks = filter (fun kv => kv.1 ∈ ks) e.
Proof.
  intros Hnd Hp. unfold EnvParser2.filterEnv.
  assert (forall (acc : EnvObject),
            (forall k, k ∈ Env.keys e -> k ∉ Env.keys acc) ->
            foldl (fun result kv =>
                     if bool_decide (kv.1 ∈ ks) then Env.set kv.1 kv.2 result else result)
                  acc e
            = acc ++ filter (fun kv => kv.1 ∈ ks) e) as H.
  { clear -Hnd Hp. induction e as [|[k v] e IH]; intros acc Hfresh; cbn [foldl].
    - by rewrite app_nil_r.
    - change (Env.keys ((k, v) :: e)) with (k :: Env.keys e) in *.
      apply NoDup_cons in Hnd as [Hk Hnd]. apply not_elem_of_cons in Hp as [Hkp Hp].
      rewrite filter_cons. cbn [fst snd]. case_bool_decide as Hin.
      + rewrite decide_True by done. unfold Env.set at 2.
        rewrite decide_False by done. rewrite define_fresh by (apply Hfresh; by left).
        rewrite IH; [by rewrite <- app_assoc|done|done|].
        intros k' Hk'. unfold Env.keys. rewrite fmap_app, elem_of_app. intros [Ha|Ha].
        * by apply (Hfresh k'); [right|].
        * cbn in Ha. apply list_elem_of_singleton in Ha as ->. done.
      + rewrite decide_False by done. apply IH; [done|done|].
        intros k' Hk'. apply Hfresh. by right. }
  rewrite H; [done|]. intros k _. by intros ?%elem_of_nil.
Qed.

(** ** The [preserve] branch, key by key *)

Lemma own_preserve source target k :
  NoDup (Env.keys source) -> NoDup (Env.keys target) ->
  Env.own (Sync.preserve source target) k
  = match Env.own target k with
    | Some v => Some v
    | None => if bool_decide (k ∈ Env.inherited) then None else Env.own source k
    end.
Proof.
  intros Hs Ht. unfold Sync.preserve. rewrite (spread_copy target Ht).
  destruct (Env.own target k) as [v|] eqn:Et.
  - rewrite own_copy_keys_other; [done|]. left.
    rewrite elem_of_getMissingKeys. intros (_ & Hk & _).
    by apply own_Some_keys in Et.
  - case_bool_decide as Hi.
    + rewrite own_copy_keys_other; [done|]. left.
      rewrite elem_of_getMissingKeys. by intros (_ & _ & ?).
    + destruct (Env.own source k) as [v|] eqn:Es.
      * apply own_copy_keys_copied; [|intros ->|done].
        -- apply elem_of_getMissingKeys. apply own_None_keys in Et.
           split; [by eapply own_Some_keys|done].
        -- apply Hi. by apply (bool_decide_unpack _).
      * by rewrite own_copy_keys_other by (by right).
Qed.

(** ** [getDifferentKeys] and equal objects *)

Lemma get_eq_own (a b : EnvObject) k :
  Env.get a k = Env.get b k <-> Env.own a k = Env.own b k.
Proof.
  unfold Env.get. destruct (Env.own a k), (Env.own b k); try case_bool_decide;
    split; intros Heq; simplify_eq; done.
Qed.

Lemma getDifferentKeys_nil (a b : EnvObject) :
  getDifferentKeys a b = [] <-> forall k, Env.own a k = Env.own b k.
Proof.
  split.
  - intros H k. apply get_eq_own.
    destruct (decide (Env.get a k = Env.get b k)) as [|Hne]; [done|exfalso].
    destruct (Env.own a k) as [v|] eqn:Ea.
    + assert (k ∈ getDifferentKeys a b) as Hin.
      { apply elem_of_getDifferentKeys. split; [left; by eapply own_Some_keys|done]. }
      rewrite H in Hin. by apply elem_of_nil in Hin.
    + destruct (Env.own b k) as [v|] eqn:Eb.
      * assert (k ∈ getDifferentKeys a b) as Hin.
        { apply elem_of_getDifferentKeys. split; [right; by eapply own_Some_keys|done]. }
        rewrite H in Hin. by apply elem_of_nil in Hin.
      * apply Hne. unfold Env.get. by rewrite Ea, Eb.
  - intros H. apply elem_of_nil_inv. intros k Hk.
    apply elem_of_getDifferentKeys in Hk as [_ Hne]. by apply Hne, get_eq_own.
Qed.

(** ** [diffCommand] *)

Lemma added_changed (a b : EnvObject) k :
  k ∈ getMissingKeys a b -> k ∈ getDifferentKeys a b.
Proof.
  intros (Hb & Ha & Hi)%elem_of_getMissingKeys.
  apply elem_of_getDifferentKeys. split; [by right|].
  apply own_None_keys in Ha. unfold Env.get. rewrite Ha.
  rewrite bool_decide_eq_false_2 by done.
  destruct (Env.own b k) eqn:Eb; [done|]. by apply own_None_keys in Eb.
Qed.

Lemma removed_changed (a b : EnvObject) k :
  k ∈ getExtraKeys a b -> k ∈ getDifferentKeys a b.
Proof.
  intros (Ha & Hb & Hi)%elem_of_getExtraKeys.
  apply elem_of_getDifferentKeys. split; [by left|].
  apply own_None_keys in Hb. unfold Env.get. rewrite Hb.
  rewrite bool_decide_eq_false_2 by done.
  destruct (Env.own a k) eqn:Ea; [done|]. by apply own_None_keys in Ea.
Qed.

Lemma elem_of_unchanged (a b : EnvObject) k :
  k ∈ Diff.unchanged (Diff.compare a b) <->
  exists v, Env.own a k = Some v /\ Env.own b k = Some v.
Proof.
  unfold Diff.compare. cbn [Diff.unchanged]. rewrite list_elem_of_filter.
  rewrite !andb_true_iff, !negb_true_iff, !bool_decide_eq_false. split.
  - intros [[[Hadd Hrem] Hch] Hk].
    destruct (Env.own a k) as [v|] eqn:Ea; [|by apply own_None_keys in Ea].
    exists v. split; [done|].
    destruct (decide (Env.get a k = Env.get b k)) as [He|Hne].
    + apply get_eq_own in He. congruence.
    + exfalso. apply Hch. apply elem_of_getDifferentKeys. split; [by left|done].
  - intros (v & Ea & Eb).
    pose proof (own_Some_keys _ _ _ Ea) as Hka. pose proof (own_Some_keys _ _ _ Eb) as Hkb.
    repeat split; try done.
    + rewrite elem_of_getMissingKeys. by intros (_ & ? & _).
    + rewrite elem_of_getExtraKeys. by intros (_ & ? & _).
    + rewrite elem_of_getDifferentKeys. intros [_ Hne]. apply Hne.
      unfold Env.get. by rewrite Ea, Eb.
Qed.

Lemma message_identical d :
  Diff.message d = Diff.identical_message <->
  Diff.added d = [] /\ Diff.removed d = [] /\ Diff.changed d = [].
Proof.
  unfold Diff.message.
  destruct (Diff.added d), (Diff.removed d), (Diff.changed d);
    (split; [|by intros (? & ? & ?)]); try done;
    intros H; exfalso; revert H; unfold Diff.identical_message, Diff.part;
    eval_lits; cbn [app]; discriminate.
Qed.

(** ** A KEY=VALUE line written with a well-behaved value *)

Section key_value_line.
Context (c : N) (r v w : jsstring).
Hypothesis Hc : key_start c = true.
Hypothesis Hr : forallb key_char r = true.
Hypothesis Hstart : trimStart w = w.
Hypothesis Hend : trimEnd w = w.
Hypothesis Hopen : endsWith w [BSL] = false.
Hypothesis Hvalue : processValue w = v.
Hypothesis Hterm : forallb not_terminator w = true.

Let line : jsstring := c :: r ++ ch "=" :: w.

Lemma trim_key_value_line : trim line = line.
Proof.
  unfold trim, line, trimStart. cbn [skip].
  rewrite key_char_not_space by (by apply key_start_char).
  change (c :: r ++ ch "=" :: w) with ((c :: r) ++ ch "=" :: w).
  apply trimEnd_app; [done|].
  destruct w as [|d w'] eqn:Ew; [done|].
  change (ch "=" :: d :: w') with ([ch "="] ++ d :: w').
  apply trimEnd_app; [done|]. done.
Qed.

Lemma parse_key_value_line st :
  currentKey st = None ->
  parse_line line st
  = Ok {| env := Env.set (c :: r) v (env st); currentKey := None;
          currentValue := currentValue st |}.
Proof.
  intros Hk.
  assert (key_char c = true) as Hc' by (by apply key_start_char).
  assert (trim w = w) as Hw by (unfold trim; by rewrite Hstart, Hend).
  rewrite (parse_line_plain _ _ line (c :: r) w 0%nat []); try done.
  - rewrite Hw, Hopen, Hvalue.
    rewrite trim_no_space; [done|]. apply key_chars_no_space. cbn [forallb]. by rewrite Hc'.
  - by rewrite trim_key_value_line.
  - rewrite trim_key_value_line, test_COMMENT. unfold line. cbn [skip].
    rewrite key_char_not_space by done. by apply key_start_not_hash.
  - rewrite trim_key_value_line, exec_ENV_LINE. by apply env_line_intro.
Qed.

Lemma key_value_line_no_LF : LF ∉ line.
Proof.
  assert (forallb not_terminator line = true) as H.
  { unfold line. cbn [forallb]. rewrite forallb_app. cbn [forallb]. rewrite Hterm.
    rewrite (forallb_impl key_char not_terminator r key_char_not_terminator Hr).
    by rewrite key_char_not_terminator by (by apply key_start_char). }
  intros Hin. rewrite forallb_forall in H. apply list_elem_of_In in Hin.
  by apply H in Hin.
Qed.
End key_value_line.

(** ** What [formatEnvFile] writes is read back *)

Lemma shell_special_spec c :
  shell_special c = true <-> c = 38 \/ c = 124 \/ c = 62 \/ c = 60 \/ c = 92 \/ c = 59.
Proof.
  unfold shell_special, atom_ok, cset_has_ic, cset_has.
  cbn [existsb xorb]. rewrite orb_false_r. eval_lits. unfold BSL.
  bool_to_prop. tauto.
Qed.

Lemma needs_quotes_false v :
  SyncCommand.needs_quotes v = false ->
  v = [] \/ (forallb (fun c => negb (is_space c)) v = true
             /\ forallb (fun c => negb (shell_special c)) v = true).
Proof.
  unfold SyncCommand.needs_quotes. destruct v as [|c v]; [by left|]. cbn [truthy andb].
  intros [Hs Hq]%orb_false_iff. right.
  rewrite (test_single_atom HAS_SPACE space) in Hs by done.
  rewrite (test_single_atom PATTERNS2.SHELL_SPECIAL _) in Hq by done.
  split; [|by apply existsb_false_forallb].
  apply existsb_false_forallb in Hs. eapply forallb_impl; [|exact Hs].
  intros d. cbn beta. by rewrite space_ok.
Qed.

Section formatted_value.
Context (v : jsstring).
Hypothesis Hv : SyncCommand.needs_quotes v || negb (isQuoted v) = true.

Let w : jsstring := if SyncCommand.needs_quotes v then [DQ] ++ v ++ [DQ] else v.

Lemma formatted_trimStart : trimStart w = w.
Proof.
  unfold w. destruct (SyncCommand.needs_quotes v) eqn:E; [done|].
  apply needs_quotes_false in E as [->|[Hs _]]; [done|]. by apply trimStart_no_space.
Qed.

Lemma formatted_trimEnd : trimEnd w = w.
Proof.
  unfold w. destruct (SyncCommand.needs_quotes v) eqn:E.
  - cbn [app]. rewrite app_comm_cons. by apply trimEnd_last.
  - apply needs_quotes_false in E as [->|[Hs _]]; [done|]. by apply trimEnd_no_space.
Qed.

Lemma formatted_closed : endsWith w [BSL] = false.
Proof.
  unfold w. destruct (SyncCommand.needs_quotes v) eqn:E.
  - cbn [app]. rewrite app_comm_cons, endsWith_snoc. done.
  - apply needs_quotes_false in E as [->|[_ Hq]]; [done|].
    destruct v as [|d s _] using rev_ind; [done|].
    rewrite endsWith_snoc. apply bool_decide_eq_false. intros ->.
    rewrite forallb_app in Hq. apply andb_true_iff in Hq as [_ Hq]. done.
Qed.

Lemma formatted_processValue : processValue w = v.
Proof.
  unfold w. destruct (SyncCommand.needs_quotes v) eqn:E.
  - unfold processValue. cbn [app].
    rewrite startsWith_cons, app_comm_cons, endsWith_snoc.
    rewrite !bool_decide_eq_true_2 by done. cbn [andb orb]. apply slice_quoted.
  - cbn [orb] in Hv. apply negb_true_iff in Hv.
    unfold processValue. unfold isQuoted in Hv. by rewrite Hv.
Qed.

Lemma formatted_no_terminator :
  forallb not_terminator v = true -> forallb not_terminator w = true.
Proof.
  intros Ht. unfold w. destruct (SyncCommand.needs_quotes v); [|done].
  cbn [app forallb]. rewrite forallb_app, Ht. done.
Qed.
End formatted_value.

Lemma sync_portable_entry_spec kv :
  sync_portable_entry kv = true ->
  exists c r, kv.1 = c :: r /\ key_start c = true /\ forallb key_char r = true
    /\ kv.1 ≠ js "__proto__" /\ forallb not_terminator kv.2 = true
    /\ SyncCommand.needs_quotes kv.2 || negb (isQuoted kv.2) = true.
Proof.
  unfold sync_portable_entry, is_identifier. rewrite !andb_true_iff, negb_true_iff.
  intros [[[Hi Hp] Hv] Hq]. destruct (kv.1) as [|c r] eqn:E; [done|].
  apply andb_true_iff in Hi as [? ?]. apply bool_decide_eq_false in Hp.
  by exists c, r.
Qed.

Lemma format_entry_line c r v :
  SyncCommand.format_entry (c :: r, v)
  = c :: r ++ ch "=" :: (if SyncCommand.needs_quotes v then [DQ] ++ v ++ [DQ] else v).
Proof.
  unfold SyncCommand.format_entry. cbn [fst snd].
  by destruct (SyncCommand.needs_quotes v).
Qed.

Lemma parse_formatted_lines m st i :
  currentKey st = None -> forallb sync_portable_entry m = true ->
  for_each (fun _ line st => parse_line line st) i (map SyncCommand.format_entry m) st
  = Ok {| env := foldl (fun e kv => Env.set kv.1 kv.2 e) (env st) m;
          currentKey := None; currentValue := currentValue st |}.
Proof.
  revert st i. induction m as [|[k v] m IH]; intros st i Hk Hm; cbn [map for_each foldl].
  - destruct st. cbn in *. by subst.
  - cbn [forallb] in Hm. apply andb_true_iff in Hm as [He Hm].
    apply sync_portable_entry_spec in He as (c & r & Hkv & Hc & Hr & _ & Hv & Hq).
    cbn [fst snd] in *. subst k. rewrite format_entry_line.
    rewrite (parse_key_value_line c r v); try done.
    + cbn [mbind result_bind]. by rewrite IH.
    + by apply formatted_trimStart.
    + by apply formatted_trimEnd.
    + by apply formatted_closed.
    + by apply formatted_processValue.
    + by apply formatted_no_terminator.
Qed.

(** ** The global pattern of [extractVariablesFromCode] *)

Lemma star_total {R} ic a s (k : jsstring -> option R) :
  (forall s', k s' <> None) -> star ic a s k = k (skip (atom_ok ic a) s).
Proof.
  intros Hk. induction s as [|c s IH]; cbn [star skip]; [done|].
  destruct (atom_ok ic a c); [|done]. rewrite IH.
  destruct (k (skip (atom_ok ic a) s)) eqn:E; [done|]. by apply Hk in E.
Qed.

Lemma m_nodes_lit {R} ic n x ns s caps (k : jsstring -> list jsstring -> option R) :
  m_nodes ic n (NItem (lit x) :: ns) s caps k
  = match s with
    | c :: s' => if atom_ok ic (ASet false [CChar (ch x)]) c
                 then m_nodes ic n ns s' caps k else None
    | [] => None
    end.
Proof. by destruct s. Qed.

Lemma match_at_PROCESS_ENV_input n i s m :
  match_at PATTERNS2.PROCESS_ENV n i s = Some m ->
  exists c t, s = js "process.env." ++ c :: t /\ upper_start c = true
    /\ groups m !! 0%nat = Some (js "process.env." ++ c :: run upper_char t).
Proof.
  unfold match_at, PATTERNS2.PROCESS_ENV. cbn [source ignoreCase].
  do 12 (rewrite m_nodes_lit; destruct s as [|? s]; [by intros [=]|];
         rewrite lit_ok;
         match goal with
         | |- context [if ?a =? ?b then _ else _] =>
             destruct (N.eqb_spec a b) as [->|_]; [|by intros [=]]
         end).
  cbn [m_nodes m_items]. destruct s as [|c s]; [by intros [=]|].
  fold upper_start. destruct (upper_start c) eqn:Hc; [|by intros [=]].
  rewrite star_total by done. fold upper_char.
  intros [= <-]. exists c, s. split; [by vm_compute|]. split; [done|].
  change (Some (take (length (js "process.env." ++ c :: s)
                      - length (skip upper_char s)) (js "process.env." ++ c :: s))
          = Some (js "process.env." ++ c :: run upper_char s)).
  f_equal. apply take_split.
  rewrite <- app_assoc. rewrite <- app_comm_cons. by rewrite run_skip.
Qed.

Lemma match_all_from_Forall (P : jsstring -> Prop) re n wait s :
  (forall i s' m, match_at re n i s' = Some m -> P (default [] (groups m !! 0%nat))) ->
  Forall P (JSMore.match_all_from re n wait s).
Proof.
  intros HP. revert wait. induction s as [|c s IH]; intros wait.
  - destruct wait; cbn [JSMore.match_all_from]; [|done].
    destruct (match_at re n 0 []) eqn:E; [|done]. apply Forall_cons. split; [|done].
    by apply HP in E.
  - destruct wait; cbn [JSMore.match_all_from]; [|apply IH].
    destruct (match_at re n 0 (c :: s)) eqn:E; [|apply IH].
    apply Forall_cons. split; [|apply IH]. by apply HP in E.
Qed.

Lemma replace_first_prefix pat rep s :
  JSMore.replace_first pat rep (pat ++ s) = rep ++ s.
Proof.
  assert (startsWith (pat ++ s) pat = true) as Hs.
  { unfold startsWith. apply bool_decide_eq_true. by rewrite take_app_length. }
  destruct (pat ++ s) eqn:E; cbn [JSMore.replace_first]; rewrite Hs, <- E;
    by rewrite drop_app_length.
Qed.

Lemma NoDup_array_from_set xs : NoDup (array_from_set xs).
Proof.
  unfold array_from_set.
  assert (forall acc, NoDup acc ->
    NoDup (foldl (fun acc x => if bool_decide (x ∈ acc) then acc else acc ++ [x]) acc xs))
    as H; [|apply H, NoDup_nil_2].
  induction xs as [|x xs IH]; intros acc Hacc; cbn [foldl]; [done|].
  apply IH. case_bool_decide as Hin; [done|].
  apply NoDup_app. split; [done|]. split; [|apply NoDup_singleton].
  intros y Hy Hy'. apply list_elem_of_singleton in Hy' as ->. done.
Qed.

(** ** The issues of the lint command *)

Lemma filter_all {A} (p : A -> bool) l :
  Forall (fun x => p x = true) l -> filter (fun x => p x = true) l = l.
Proof.
  induction 1 as [|x l Hx _ IH]; [done|].
  rewrite filter_cons_True by done. by rewrite IH.
Qed.

Lemma filter_none {A} (p : A -> bool) l :
  Forall (fun x => p x = false) l -> filter (fun x => p x = true) l = [].
Proof.
  induction 1 as [|x l Hx _ IH]; [done|].
  rewrite filter_cons_False by (by rewrite Hx). done.
Qed.

Lemma validation_issues_errors errs :
  Forall (fun x => LintCommand.is_error x = true) (Lint.validation_issues errs).
Proof. unfold Lint.validation_issues. apply Forall_map, Forall_forall. by intros. Qed.

Lemma additional_warnings i line :
  Forall (fun x => LintCommand.is_error x = false /\ LintCommand.is_warning x = true)
         (LintCommand.additional i line).
Proof.
  unfold LintCommand.additional. apply Forall_app. split.
  - destruct (_ && _); [|done]. by repeat constructor.
  - destruct (_ && _); [|done]. by repeat constructor.
Qed.

Lemma additional_issues_warnings content :
  Forall (fun x => LintCommand.is_error x = false /\ LintCommand.is_warning x = true)
         (LintCommand.additional_issues content).
Proof.
  unfold LintCommand.additional_issues. apply Forall_concat, Forall_forall.
  intros l Hl. apply list_elem_of_lookup in Hl as [i Hi].
  rewrite list_lookup_imap in Hi.
  destruct (split_lf content !! i) as [line|]; [|done]. cbn in Hi. simplify_eq.
  apply additional_warnings.
Qed.

Lemma lint_errors errs content :
  filter (fun i => LintCommand.is_error i = true)
         (Lint.validation_issues errs ++ LintCommand.additional_issues content)
  = Lint.validation_issues errs.
Proof.
  rewrite filter_app, filter_all by apply validation_issues_errors.
  rewrite filter_none; [by rewrite app_nil_r|].
  eapply Forall_impl; [apply additional_issues_warnings|]. by intros x [? _].
Qed.

Lemma lint_warnings errs content :
  filter (fun i => LintCommand.is_warning i = true)
         (Lint.validation_issues errs ++ LintCommand.additional_issues content)
  = LintCommand.additional_issues content.
Proof.
  rewrite filter_app, filter_none.
  - cbn [app]. apply filter_all.
    eapply Forall_impl; [apply additional_issues_warnings|]. by intros x [_ ?].
  - eapply Forall_impl; [apply validation_issues_errors|].
    intros x. unfold LintCommand.is_error, LintCommand.is_warning. by destruct (Lint.sev x).
Qed.

Lemma length_zero {A} (l : list A) : (length l =? 0)%nat = true <-> l = [].
Proof. destruct l; cbn; split; done. Qed.

(** ** The messages of the validator, line by line *)

Lemma line_errors_line e i line ks :
  e ∈ line_errors i line ks -> Lint.line (Lint.issue_of e) = (i + 1)%nat.
Proof. intros [body ->]%line_errors_prefix. by rewrite issue_of_message. Qed.

Lemma sorted_block (n : nat) ns ms :
  Forall (fun x => x = n) ns -> StronglySorted le ms -> Forall (fun m => (n <= m)%nat) ms ->
  StronglySorted le (ns ++ ms).
Proof.
  intros Hns Hms Hle. induction ns as [|x ns IH]; [done|].
  apply Forall_cons in Hns as [-> Hns]. cbn [app]. constructor; [by apply IH|].
  apply Forall_app. split; [|done].
  eapply Forall_impl; [exact Hns|]. cbn. intros m ->. lia.
Qed.

Lemma all_errors_sorted lines i ks :
  StronglySorted le (map Lint.line (Lint.validation_issues (all_errors i lines ks)))
  /\ Forall (fun n => (i < n <= i + length lines)%nat)
            (map Lint.line (Lint.validation_issues (all_errors i lines ks))).
Proof.
  unfold Lint.validation_issues.
  revert i ks. induction lines as [|l lines IH]; intros i ks; cbn [all_errors].
  - split; constructor.
  - destruct (IH (Datatypes.S i) (line_keys l ks)) as [Hs Hb]. rewrite !map_app.
    assert (Forall (fun n => n = (i + 1)%nat)
              (map Lint.line (map Lint.issue_of (line_errors i l ks)))) as Hl.
    { apply Forall_map, Forall_map, Forall_forall. intros e He. cbn.
      by apply line_errors_line in He. }
    split.
    + apply (sorted_block (i + 1)); [done|done|].
      eapply Forall_impl; [exact Hb|]. cbn. intros n Hn. lia.
    + apply Forall_app. split.
      * eapply Forall_impl; [exact Hl|]. cbn. intros n ->. lia.
      * eapply Forall_impl; [exact Hb|]. cbn. intros n Hn. lia.
Qed.

Lemma key_errors_nil key n ks :
  key_errors key n ks = [] <-> test ENV_KEY key = true /\ key ∉ ks.
Proof.
  unfold key_errors. split.
  - destruct (truthy key); [|done]. cbn [negb].
    destruct (test ENV_KEY key); [|done]. cbn [negb].
    case_bool_decide; [done|]. done.
  - intros [Hk Hn]. rewrite (ENV_KEY_truthy _ Hk), Hk. cbn [negb].
    by rewrite bool_decide_eq_false_2.
Qed.

Lemma list_nil_iff {A} (l : list A) : l = [] <-> forall x, x ∉ l.
Proof.
  split; [intros -> x; apply not_elem_of_nil|].
  destruct l as [|x l]; [done|]. intros H. destruct (H x). by left.
Qed.

Lemma all_errors_nil lines i ks :
  all_errors i lines ks = [] <->
  forall j line, lines !! j = Some line ->
    line_errors (i + j) line (keys_after (take j lines) ks) = [].
Proof.
  rewrite list_nil_iff. split.
  - intros H j line Hj. apply list_nil_iff. intros e He. apply (H e).
    apply elem_of_all_errors. by exists j, line.
  - intros H e (j & line & Hj & He)%elem_of_all_errors.
    rewrite (H j line Hj) in He. by apply elem_of_nil in He.
Qed.

Lemma not_recorded key lines :
  test ENV_KEY key = true ->
  key ∉ keys_after lines ∅ <-> Forall (fun l => key_of_line l <> Some key) lines.
Proof.
  intros Hk. rewrite elem_of_keys_after, Forall_forall. split.
  - intros H l Hl Hkey. apply H. right.
    apply list_elem_of_lookup in Hl as [j Hj]. by exists j, l.
  - intros H [Hin|(j & l & Hj & Hkey & _)]; [by apply elem_of_empty in Hin|].
    apply (H l); [|done]. by apply list_elem_of_lookup_2 in Hj.
Qed.

Lemma line_errors_nil i line earlier :
  line_errors i line (keys_after earlier ∅) = [] <-> silent_line earlier line.
Proof.
  unfold line_errors, silent_line.
  destruct (classify line) as [|key value|key|]; [done| | |done].
  - split.
    + intros [Hk Hu]%app_eq_nil. apply key_errors_nil in Hk as [Hk Hn].
      split; [done|]. split; [by destruct (unquoted_with_spaces value)|].
      by apply not_recorded.
    + intros (Hk & Hu & Hn). rewrite Hu, app_nil_r. apply key_errors_nil.
      split; [done|]. by apply not_recorded.
  - rewrite key_errors_nil. split.
    + intros [Hk Hn]. split; [done|]. by apply not_recorded.
    + intros [Hk Hn]. split; [done|]. by apply not_recorded.
Qed.

Lemma validateEnvContent_silent content :
  validateEnvContent content = Ok [] <->
  forall i line, split_lf content !! i = Some line ->
    silent_line (take i (split_lf content)) line.
Proof.
  rewrite validateEnvContent_spec. split.
  - intros [= H]. intros i line Hi. apply (line_errors_nil i).
    rewrite all_errors_nil in H. by apply H.
  - intros H. f_equal. apply all_errors_nil. intros j line Hj.
    apply line_errors_nil. by apply H.
Qed.

(** ** [mergeEnv], key by key *)

Lemma own_mergeEnv envs k :
  Forall (fun e => NoDup (Env.keys e)) envs ->
  Env.own (mergeEnv envs) k = last_own envs k.
Proof.
  unfold last_own. induction envs as [|b envs IH] using rev_ind; intros Hnd; [done|].
  apply Forall_app in Hnd as [Hnd Hb]. apply Forall_inv in Hb.
  rewrite mergeEnv_snoc_copy, foldl_app. cbn [foldl].
  rewrite own_spread. rewrite own_rev by exact Hb. by rewrite IH.
Qed.

(** ** The validate command *)


Lemma getExtraKeys_nil target source :
  (forall k, k ∈ Env.keys target -> Env.has source k = true) ->
  getExtraKeys target source = [].
Proof. apply getMissingKeys_nil. Qed.

(** ** Where the keys of a parsed object come from *)

Section keys_from_lines.
Context (Q : jsstring -> Prop).

Lemma key_inv_set k v st cv :
  Q k -> key_inv Q st ->
  key_inv Q {| env := Env.set k v (env st); currentKey := None; currentValue := cv |}.
Proof.
  intros Hk [He _]. split; cbn [env currentKey]; [|done].
  intros k' [Hin|[-> _]]%keys_set_sub; [by apply He|done].
Qed.

Lemma parse_line_key_inv line st st' :
  (forall key value, classify line = Plain key value -> Q key) ->
  key_inv Q st -> parse_line line st = Ok st' -> key_inv Q st'.
Proof.
  intros Hline Hst. pose proof Hst as [He Hk].
  destruct (currentKey st) as [key|] eqn:Ek.
  - rewrite (parse_line_continuation _ _ _ Ek).
    destruct (endsWith line [BSL]); intros [= <-].
    + split; cbn [env currentKey]; [done|]. intros k [= <-]. by apply Hk.
    + apply key_inv_set; [by apply Hk|done].
  - rewrite parse_line_classify by done.
    destruct (classify line) as [|key value|key|] eqn:Ec; intros [= <-]; try done.
    specialize (Hline _ _ eq_refl).
    destruct (endsWith value [BSL]).
    + split; cbn [env currentKey]; [done|]. by intros k [= <-].
    + by apply key_inv_set.
Qed.

Lemma parse_lines_key_inv lines i st st' :
  (forall line key value, line ∈ lines -> classify line = Plain key value -> Q key) ->
  key_inv Q st ->
  for_each (fun _ line st => parse_line line st) i lines st = Ok st' -> key_inv Q st'.
Proof.
  revert i st. induction lines as [|line lines IH]; intros i st Hl Hst; cbn [for_each].
  - by intros [= <-].
  - destruct (parse_line line st) as [st1|] eqn:E; cbn [mbind result_bind]; [|done].
    apply IH.
    + intros l key value Hin. apply Hl. by right.
    + eapply parse_line_key_inv; [|exact Hst|exact E].
      intros key value. apply Hl. by left.
Qed.

Lemma parseEnvContent_key_inv content env :
  (forall line key value,
     line ∈ split_lf content -> classify line = Plain key value -> Q key) ->
  parseEnvContent content = Ok env -> forall k, k ∈ Env.keys env -> Q k.
Proof.
  intros Hl. unfold parseEnvContent, parse_lines.
  destruct (for_each _ _ _ _) as [st|] eqn:E; cbn [mbind result_bind]; [|done].
  intros [= <-]. apply parse_lines_key_inv in E; [|done|].
  - destruct E as [He Hk]. unfold parse_finish.
    destruct (currentKey st) as [key|]; [|done].
    intros k [Hin|[-> _]]%keys_set_sub; [by apply He|by apply Hk].
  - split; [|done]. cbn. by intros k ?%elem_of_nil.
Qed.
End keys_from_lines.

Lemma parsed_key_line content env k :
  parseEnvContent content = Ok env -> k ∈ Env.keys env ->
  exists line value, line ∈ split_lf content /\ classify line = Plain k value.
Proof.
  intros Hp. revert k.
  apply (parseEnvContent_key_inv
    (fun k => exists line value, line ∈ split_lf content /\ classify line = Plain k value)
    content env); [|done].
  intros line key value Hin Hc. by exists line, value.
Qed.

Lemma silent_parsed_keys content env k :
  validateEnvContent content = Ok [] -> parseEnvContent content = Ok env ->
  k ∈ Env.keys env -> test ENV_KEY k = true.
Proof.
  intros Hv Hp Hk. rewrite validateEnvContent_silent in Hv.
  destruct (parsed_key_line _ _ _ Hp Hk) as (line & value & Hin & Hc).
  apply list_elem_of_lookup in Hin as [i Hi]. specialize (Hv i line Hi).
  unfold silent_line in Hv. rewrite Hc in Hv. by destruct Hv.
Qed.

(** ** Every access in the code is found *)

Lemma match_at_PROCESS_ENV_intro n i c t :
  upper_start c = true ->
  exists m, match_at PATTERNS2.PROCESS_ENV n i (js "process.env." ++ c :: t) = Some m
    /\ groups m !! 0%nat = Some (js "process.env." ++ c :: run upper_char t).
Proof.
  intros Hc. eexists. split.
  - unfold match_at, PATTERNS2.PROCESS_ENV. cbn [source ignoreCase].
    let v := eval vm_compute in (js "process.env.") in
      change (js "process.env.") with v at 1.
    cbn [app].
    do 12 (rewrite m_nodes_lit, lit_ok;
           match goal with
           | |- context [if ?a =? ?b then _ else _] =>
               replace (a =? b) with true by (by vm_compute)
           end).
    cbn [m_nodes m_items]. fold upper_start. rewrite Hc.
    rewrite star_total by done. reflexivity.
  - fold upper_char.
    change (Some (take (length (js "process.env." ++ c :: t)
                        - length (skip upper_char t)) (js "process.env." ++ c :: t))
            = Some (js "process.env." ++ c :: run upper_char t)).
    f_equal. apply take_split.
    rewrite <- app_assoc. rewrite <- app_comm_cons. by rewrite run_skip.
Qed.

Lemma run_prefix_lookup p s j x :
  run p s !! j = Some x -> p x = true.
Proof.
  intros H. apply list_elem_of_lookup_2, list_elem_of_In in H.
  pose proof (forallb_run p s) as Hr. rewrite forallb_forall in Hr. by apply Hr.
Qed.

(** A match that starts before an access ends before it. *)
Lemma match_before_access n i pre rest m :
  pre <> [] ->
  match_at PATTERNS2.PROCESS_ENV n i (pre ++ js "process.env." ++ rest) = Some m ->
  (length (default [] (groups m !! 0%nat)) <= length pre)%nat.
Proof.
  intros Hpre (c & t & Hs & Hc & Hg)%match_at_PROCESS_ENV_input. rewrite Hg. cbn [default].
  destruct (decide (length (js "process.env." ++ c :: run upper_char t) <= length pre)%nat)
    as [|Hlt]; [done|]. exfalso.
  assert ((pre ++ js "process.env." ++ rest) !! length pre = Some 112) as Hp.
  { rewrite lookup_app_r by lia. by rewrite Nat.sub_diag. }
  rewrite Hs in Hp.
  assert (0 < length pre)%nat as Hpos by (destruct pre; [done|cbn; lia]).
  rewrite length_app in Hlt. cbn [length] in Hlt.
  change (length (js "process.env.")) with 12%nat in Hlt.
  destruct (decide (length pre < 12)%nat) as [Hl|Hl].
  - rewrite lookup_app_l in Hp by (change (length (js "process.env.")) with 12%nat; lia).
    revert Hp Hpos Hl. generalize (length pre). intros j.
    do 12 (destruct j as [|j];
           [intros Hp Hpos Hl; first [lia | by vm_compute in Hp]|]).
    intros _ _ ?. lia.
  - rewrite lookup_app_r in Hp by (change (length (js "process.env.")) with 12%nat; lia).
    change (length (js "process.env.")) with 12%nat in Hp.
    destruct (length pre - 12)%nat as [|j] eqn:Ej.
    + cbn in Hp. injection Hp as ->. by vm_compute in Hc.
    + cbn [lookup list_lookup] in Hp. change (t !! j = Some 112) in Hp.
      rewrite <- (run_skip upper_char t) in Hp.
      rewrite lookup_app_l in Hp by lia.
      apply run_prefix_lookup in Hp. by vm_compute in Hp.
Qed.

Lemma match_all_access n pre name post wait :
  test ENV_KEY name = true ->
  match post with c :: _ => upper_char c = false | [] => True end ->
  (wait <= length pre)%nat ->
  js "process.env." ++ name
  ∈ JSMore.match_all_from PATTERNS2.PROCESS_ENV n wait
      (pre ++ js "process.env." ++ name ++ post).
Proof.
  intros Hname Hpost. rewrite test_ENV_KEY in Hname.
  destruct name as [|c r]; [done|]. apply andb_true_iff in Hname as [Hc Hr].
  assert (run upper_char (r ++ post) = r) as Hrun.
  { destruct post as [|d post]; [|by apply run_app].
    rewrite app_nil_r. clear -Hr. induction r as [|x r IH]; [done|].
    cbn [forallb] in Hr. apply andb_true_iff in Hr as [Hx Hr]. cbn [run].
    rewrite Hx. by rewrite IH. }
  revert wait. induction pre as [|x pre IH]; intros wait Hw.
  - assert (wait = 0%nat) as -> by (cbn in Hw; lia). cbn [app].
    destruct (match_at_PROCESS_ENV_intro n 0 c (r ++ post) Hc) as (m & Hm & Hg).
    rewrite Hrun in Hg.
    assert (forall s, JSMore.match_all_from PATTERNS2.PROCESS_ENV n 0 s
              = match match_at PATTERNS2.PROCESS_ENV n 0 s with
                | Some m =>
                    let whole := default [] (groups m !! 0%nat) in
                    whole :: match s with
                             | _ :: s' => JSMore.match_all_from PATTERNS2.PROCESS_ENV n
                                            (Nat.pred (length whole)) s'
                             | [] => []
                             end
                | None =>
                    match s with
                    | _ :: s' => JSMore.match_all_from PATTERNS2.PROCESS_ENV n 0 s'
                    | [] => []
                    end
                end) as Hunf by (by intros [|? ?]).
    rewrite Hunf. change ((c :: r) ++ post) with (c :: r ++ post). rewrite Hm. cbn zeta.
    rewrite Hg. by left.
  - cbn [app]. destruct wait as [|w]; cbn [JSMore.match_all_from].
    + destruct (match_at PATTERNS2.PROCESS_ENV n 0 _) as [m|] eqn:Em.
      * right. apply IH.
        apply (match_before_access n 0 (x :: pre)) in Em; [|done].
        cbn [length] in Em. lia.
      * apply IH. lia.
    + apply IH. cbn [length] in Hw. lia.
Qed.

(** ** A continuation, from its opening line to its last *)

Lemma parse_continuation_lines ls last st key i :
  currentKey st = Some key ->
  Forall (fun l => endsWith l [BSL] = true) ls ->
  endsWith last [BSL] = false ->
  for_each (fun _ line st => parse_line line st) i (ls ++ [last]) st
  = Ok {| env := Env.set key (processValue (currentValue st ++ continued ls ++ last))
                   (env st);
          currentKey := None; currentValue := [] |}.
Proof.
  intros Hk Hls Hlast. revert i st Hk.
  induction Hls as [|l ls Hl _ IH]; intros i st Hk; cbn [app for_each].
  - rewrite (parse_line_continuation _ _ _ Hk), Hlast. done.
  - rewrite (parse_line_continuation _ _ _ Hk), Hl. cbn [mbind result_bind].
    rewrite IH by done. cbn [env currentValue]. unfold continued. cbn [map concat].
    by rewrite <- !app_assoc.
Qed.

(** ** The value of a key that several lines assign *)

Lemma own_assign_entries es (e : EnvObject) k :
  k <> js "__proto__" ->
  Env.own (assign_entries es e) k
  = match last (map EnvEntry.value (filter (fun x => EnvEntry.key x = k) es)) with
    | Some v => Some v
    | None => Env.own e k
    end.
Proof.
  intros Hk. unfold assign_entries. revert e.
  induction es as [|x es IH]; intros e; cbn [foldl]; [done|].
  rewrite IH. rewrite filter_cons.
  destruct (decide (EnvEntry.key x = k)) as [Hx|Hx].
  - cbn [map]. rewrite last_cons.
    destruct (last _); [done|]. rewrite own_set by congruence.
    by rewrite decide_True.
  - destruct (last _); [done|]. by rewrite own_set_other.
Qed.

(** ** Text that [readFile] and a file leave as it is *)

Lemma replace_crlf_no_CR s :
  Forall (fun c => c <> CR) s -> FileUtils.replace_crlf s = s.
Proof.
  induction 1 as [|c s Hc Hs IH]; [done|]. cbn [FileUtils.replace_crlf].
  destruct s as [|d s']; [done|].
  apply N.eqb_neq in Hc. rewrite Hc. cbn [andb]. by rewrite IH.
Qed.

Lemma Forall_join (P : N -> Prop) sep parts :
  Forall P sep -> Forall (Forall P) parts -> Forall P (join sep parts).
Proof.
  intros Hsep. induction 1 as [|p parts Hp Hps IH]; [done|]. cbn [join].
  destruct parts as [|q parts]; [done|].
  apply Forall_app. split; [done|]. apply Forall_app. split; [done|]. apply IH.
Qed.

Lemma key_char_plain c : key_char c = true -> c < 128 /\ c <> CR.
Proof. intros H. apply key_char_spec in H. unfold CR. lia. Qed.

Lemma example_content_plain (e : EnvObject) :
  identifier_keys e ->
  Forall (fun c => c < 128 /\ c <> CR)
         (stringifyEnv (map (fun k => (k, [])) (Env.keys e))).
Proof.
  intros [_ Hid]. unfold stringifyEnv. apply Forall_join.
  { by repeat constructor. }
  rewrite map_map. apply Forall_map, Forall_forall. intros k Hk.
  destruct (Hid k Hk) as [Hi _]. unfold stringify_entry. cbn [fst snd].
  change (shouldQuoteValue []) with false. cbn iota. rewrite app_nil_r.
  apply Forall_app. split; [|by repeat constructor].
  unfold is_identifier in Hi. destruct k as [|c r]; [done|].
  apply andb_true_iff in Hi as [Hc Hr]. apply Forall_forall. intros x Hx.
  apply key_char_plain. apply elem_of_cons in Hx as [->|Hx]; [by apply key_start_char|].
  rewrite forallb_forall in Hr. by apply Hr, list_elem_of_In.
Qed.

Lemma replace_crlf_line p s :
  Forall (fun c => c <> CR) p ->
  FileUtils.replace_crlf (p ++ CR :: LF :: s) = p ++ LF :: FileUtils.replace_crlf s.
Proof.
  induction 1 as [|c p Hc Hp IH]; [done|].
  change ((c :: p) ++ CR :: LF :: s) with (c :: (p ++ CR :: LF :: s)).
  cbn [FileUtils.replace_crlf]. apply N.eqb_neq in Hc.
  destruct (p ++ CR :: LF :: s) as [|d t] eqn:E; [by destruct p|].
  rewrite Hc. cbn [andb]. by rewrite IH.
Qed.

(** ** The parser on what it has read *)

Lemma parsed_values_no_terminator content :
  Forall (fun line => opens_continuation line = false) (split_lf content) ->
  forall kv, kv ∈ assign_entries (entries_from 0 (split_lf content)) [] ->
    forallb not_terminator kv.2 = true.
Proof.
  intros _. apply (assign_entries_values (fun v => forallb not_terminator v = true)).
  - intros x. apply entries_from_values.
  - by intros kv ?%elem_of_nil.
Qed.

Lemma empty_values_portable (e : EnvObject) :
  identifier_keys e -> forallb portable_entry (map (fun k => (k, [])) (Env.keys e)) = true.
Proof.
  intros [Hnd Hid]. apply portable_intro.
  - unfold identifier_keys. by rewrite keys_with_empty_values.
  - intros kv (k & -> & _)%list_elem_of_fmap. done.
Qed.

(** * More of the code *)

(** X1.  The parser returns an object for every content, and every key of
    that object is an identifier (a letter or underscore, then letters, digits
    and underscores) other than [__proto__], occurs once, and is the key of
    some KEY=VALUE line of the content. *)
Theorem parsed_keys content :
  exists env, parseEnvContent content = Ok env
    /\ NoDup (Env.keys env)
    /\ forall k, k ∈ Env.keys env ->
         is_identifier k = true /\ k <> js "__proto__"
         /\ exists line value, line ∈ split_lf content /\ classify line = Plain k value.
Proof.
  destruct (parseEnvContent_ok content) as [env Hp]. exists env. split; [done|].
  destruct (parseEnvContent_identifier_keys _ _ Hp) as [Hnd Hid]. split; [done|].
  intros k Hk. destruct (Hid k Hk) as [? ?]. split; [done|]. split; [done|].
  by eapply parsed_key_line.
Qed.

(** X2.  [parseEnvEntries] returns, for every content, one entry for each
    KEY=VALUE line and nothing else: the entry of the line of index i has the
    key of the line, its processed value, and the line number i + 1.  The
    entries come in strictly increasing line order. *)
Theorem parseEnvEntries_entries content :
  exists es, EnvParser2.parseEnvEntries content = Ok es
    /\ StronglySorted lt (map EnvEntry.line es)
    /\ forall e, e ∈ es <->
         exists i l v, split_lf content !! i = Some l
           /\ classify l = Plain (EnvEntry.key e) v
           /\ EnvEntry.value e = processValue v /\ EnvEntry.line e = (i + 1)%nat.
Proof.
  exists (entries_from 0 (split_lf content)). split; [apply parseEnvEntries_spec|].
  split; [apply entries_from_sorted|].
  intros e. rewrite elem_of_entries_from. split.
  - intros (j & l & Hj & (v & ? & ? & ?)%elem_of_line_entries). by exists j, l, v.
  - intros (j & l & v & Hj & ? & ? & ?). exists j, l. split; [done|].
    apply elem_of_line_entries. by exists v.
Qed.

(** X3.  Where no line of the content opens a continuation, the object that
    [parseEnvContent] returns is the one built by assigning the entries of
    [parseEnvEntries] in order. *)
Theorem parse_assigns_entries content :
  Forall (fun line => opens_continuation line = false) (split_lf content) ->
  exists es, EnvParser2.parseEnvEntries content = Ok es
    /\ parseEnvContent content
       = Ok (foldl (fun env e => Env.set (EnvEntry.key e) (EnvEntry.value e) env) [] es).
Proof.
  intros Hl. exists (entries_from 0 (split_lf content)).
  split; [apply parseEnvEntries_spec|]. by apply parseEnvContent_no_continuation.
Qed.

Lemma parse_assigns_entries_witness :
  exists es, EnvParser2.parseEnvEntries (js "A=1" ++ [LF] ++ js "# c" ++ [LF] ++ js "B=x y") = Ok es
    /\ parseEnvContent (js "A=1" ++ [LF] ++ js "# c" ++ [LF] ++ js "B=x y")
       = Ok (foldl (fun env e => Env.set (EnvEntry.key e) (EnvEntry.value e) env) [] es).
Proof.
  apply parse_assigns_entries. apply (bool_decide_unpack _). reflexivity.
Defined.

(** X4.  Where no line of the content opens a continuation, writing the
    parsed object with [stringifyEnv] and parsing the result gives the parsed
    object again. *)
Theorem parse_stringify_parse content env :
  Forall (fun line => opens_continuation line = false) (split_lf content) ->
  parseEnvContent content = Ok env ->
  parseEnvContent (stringifyEnv env) = Ok env.
Proof.
  intros Hl Hp. pose proof (parseEnvContent_identifier_keys _ _ Hp) as Hid.
  apply stringify_parse_back; [by destruct Hid|].
  apply portable_intro; [done|].
  rewrite parseEnvContent_no_continuation in Hp by done. injection Hp as <-.
  by apply parsed_values_no_terminator.
Qed.

Lemma parse_stringify_parse_witness :
  parseEnvContent (stringifyEnv [(js "A", js "1"); (js "B", js "x y")])
  = Ok [(js "A", js "1"); (js "B", js "x y")].
Proof.
  apply (parse_stringify_parse (js "A=1" ++ [LF] ++ js "B=x y"));
    [apply (bool_decide_unpack _)|]; reflexivity.
Defined.

(** X5.  [getMissingKeys] returns the keys of the source that are neither keys
    of the target nor names of inherited properties, and [getExtraKeys] the
    keys of the target that are neither keys of the source nor such names; no
    key is in both. *)
Theorem missing_and_extra_keys target source k :
  (k ∈ getMissingKeys target source <->
     k ∈ Env.keys source /\ (k ∉ Env.keys target) /\ (k ∉ Env.inherited))
  /\ (k ∈ getExtraKeys target source <->
        k ∈ Env.keys target /\ (k ∉ Env.keys source) /\ (k ∉ Env.inherited))
  /\ ~ (k ∈ getMissingKeys target source /\ k ∈ getExtraKeys target source).
Proof.
  split; [apply elem_of_getMissingKeys|]. split; [apply elem_of_getExtraKeys|].
  intros [(Hs & _)%elem_of_getMissingKeys (_ & Hn & _)%elem_of_getExtraKeys]. done.
Qed.

(** X6.  In the object that [mergeEnv] returns every key occurs once, and a
    key has the value of the last of the merged objects that has it. *)
Theorem mergeEnv_last_wins envs k :
  Forall (fun e => NoDup (Env.keys e)) envs ->
  NoDup (Env.keys (mergeEnv envs))
  /\ Env.own (mergeEnv envs) k = last_own envs k.
Proof. intros Hnd. split; [apply NoDup_keys_mergeEnv|by apply own_mergeEnv]. Qed.

Lemma mergeEnv_last_wins_witness :
  NoDup (Env.keys (mergeEnv [[(js "A", js "1"); (js "B", js "2")];
                             [(js "B", js "3"); (js "C", js "4")]]))
  /\ Env.own (mergeEnv [[(js "A", js "1"); (js "B", js "2")];
                        [(js "B", js "3"); (js "C", js "4")]]) (js "B")
     = last_own [[(js "A", js "1"); (js "B", js "2")];
                 [(js "B", js "3"); (js "C", js "4")]] (js "B").
Proof.
  apply mergeEnv_last_wins. apply (bool_decide_unpack _). reflexivity.
Defined.

(** X7.  For two objects whose keys are distinct identifiers, the keys of
    [mergeEnv(a, b)] are the keys of a in their order, followed by the keys
    of b that a does not have, in their order. *)
Theorem mergeEnv_key_order (a b : EnvObject) :
  NoDup (Env.keys a) -> NoDup (Env.keys b) ->
  forallb is_identifier (Env.keys a ++ Env.keys b) = true ->
  Env.keys (mergeEnv [a; b])
  = Env.keys a ++ filter (fun k => k ∉ Env.keys a) (Env.keys b).
Proof.
  intros Ha Hb _. change [a; b] with ([a] ++ [b]). rewrite mergeEnv_snoc_copy.
  change [a] with ([] ++ [a]). rewrite mergeEnv_snoc_copy.
  change (mergeEnv []) with (@nil (jsstring * jsstring)).
  rewrite (spread_copy a Ha). by apply keys_spread.
Qed.

Lemma mergeEnv_key_order_witness :
  Env.keys (mergeEnv [[(js "A", js "1"); (js "B", js "2")];
                      [(js "C", js "4"); (js "B", js "3")]])
  = Env.keys [(js "A", js "1"); (js "B", js "2")]
    ++ filter (fun k => k ∉ Env.keys [(js "A", js "1"); (js "B", js "2")])
              (Env.keys [(js "C", js "4"); (js "B", js "3")]).
Proof.
  apply mergeEnv_key_order; [apply (bool_decide_unpack _)|apply (bool_decide_unpack _)|];
    reflexivity.
Defined.

(** X8.  On an object whose keys are distinct identifiers other than
    [__proto__], [filterEnv] keeps the entries whose key is among the given
    keys, with their values and in their order, and nothing else. *)
Theorem filterEnv_keeps_listed (e : EnvObject) ks :
  NoDup (Env.keys e) ->
  forallb (fun k => is_identifier k && negb (bool_decide (k = js "__proto__")))
          (Env.keys e) = true ->
  EnvParser2.filterEnv e ks = filter (fun kv => kv.1 ∈ ks) e.
Proof.
  intros Hnd Hid. apply filterEnv_spec; [done|].
  intros Hin%list_elem_of_In. rewrite forallb_forall in Hid. apply Hid in Hin.
  apply andb_true_iff in Hin as [_ Hp]. apply negb_true_iff, bool_decide_eq_false in Hp.
  done.
Qed.

Lemma filterEnv_keeps_listed_witness :
  EnvParser2.filterEnv [(js "A", js "1"); (js "B", js "2"); (js "C", js "3")]
    [js "C"; js "A"; js "Z"]
  = filter (fun kv => kv.1 ∈ [js "C"; js "A"; js "Z"])
      [(js "A", js "1"); (js "B", js "2"); (js "C", js "3")].
Proof.
  apply filterEnv_keeps_listed; [apply (bool_decide_unpack _)|]; reflexivity.
Defined.

(** X9.  What a key has after each strategy of the sync command.  With
    overwrite, the value of the source and nothing from the target; with
    merge, the value of the source where the source has the key and that of
    the target otherwise; with preserve, the value of the target where the
    target has the key and otherwise that of the source, unless the key is the
    name of an inherited property, which is not copied. *)
Theorem sync_strategies s source target k :
  NoDup (Env.keys source) -> NoDup (Env.keys target) ->
  Env.own (SyncCommand.merged s source target) k
  = match s with
    | SyncCommand.overwrite => Env.own source k
    | SyncCommand.merge =>
        match Env.own source k with Some v => Some v | None => Env.own target k end
    | SyncCommand.preserve =>
        match Env.own target k with
        | Some v => Some v
        | None => if bool_decide (k ∈ Env.inherited) then None else Env.own source k
        end
    end.
Proof.
  intros Hs Ht. destruct s; cbn [SyncCommand.merged].
  - unfold Sync.merge. rewrite own_mergeEnv by (by repeat constructor).
    unfold last_own. cbn [foldl]. by destruct (Env.own source k), (Env.own target k).
  - by rewrite spread_copy.
  - by apply own_preserve.
Qed.

Lemma sync_strategies_witness :
  Env.own (SyncCommand.merged SyncCommand.preserve
             [(js "A", js "1"); (js "B", js "2")] [(js "B", js "3")]) (js "A")
  = match Env.own [(js "B", js "3")] (js "A") with
    | Some v => Some v
    | None => if bool_decide (js "A" ∈ Env.inherited) then None
              else Env.own [(js "A", js "1"); (js "B", js "2")] (js "A")
    end.
Proof.
  apply (sync_strategies SyncCommand.preserve); apply (bool_decide_unpack _); reflexivity.
Defined.

(** X10.  [getDifferentKeys] returns no key twice, and returns the empty
    list exactly when the two objects have the same keys with the same
    values. *)
Theorem getDifferentKeys_empty (a b : EnvObject) :
  NoDup (getDifferentKeys a b)
  /\ (getDifferentKeys a b = [] <-> forall k, Env.own a k = Env.own b k).
Proof.
  split; [|apply getDifferentKeys_nil].
  unfold getDifferentKeys. apply NoDup_filter, NoDup_array_from_set.
Qed.

(** X11.  The diff command succeeds on every pair of contents; every key it
    lists as added or as removed is also listed as changed; and its message
    is the one for identical files exactly when the two parsed objects have
    the same keys with the same values. *)
Theorem diffCommand_outcome fromContent toContent :
  exists a b o,
    parseEnvContent fromContent = Ok a /\ parseEnvContent toContent = Ok b
    /\ Diff.diffCommand fromContent toContent = Ok o
    /\ Diff.success o = true
    /\ (forall k, k ∈ Diff.added (Diff.details o) \/ k ∈ Diff.removed (Diff.details o) ->
                  k ∈ Diff.changed (Diff.details o))
    /\ (Diff.text o = Diff.identical_message <-> forall k, Env.own a k = Env.own b k).
Proof.
  destruct (parseEnvContent_ok fromContent) as [a Ha].
  destruct (parseEnvContent_ok toContent) as [b Hb].
  exists a, b. eexists. split; [done|]. split; [done|].
  split; [unfold Diff.diffCommand; rewrite Ha, Hb; reflexivity|].
  cbn [Diff.success Diff.text Diff.details]. split; [done|]. split.
  - intros k [Hk|Hk]; [by apply added_changed|by apply removed_changed].
  - rewrite message_identical. cbn [Diff.compare Diff.added Diff.removed Diff.changed].
    rewrite <- getDifferentKeys_nil. split; [by intros (_ & _ & ?)|].
    intros Hc. split; [|split; [|done]].
    + apply list_nil_iff. intros k Hk%added_changed. rewrite Hc in Hk.
      by apply elem_of_nil in Hk.
    + apply list_nil_iff. intros k Hk%removed_changed. rewrite Hc in Hk.
      by apply elem_of_nil in Hk.
Qed.

(** X12.  The keys the diff command lists as unchanged are the keys that
    both parsed objects have with the same value. *)
Theorem diffCommand_unchanged fromContent toContent :
  exists a b o,
    parseEnvContent fromContent = Ok a /\ parseEnvContent toContent = Ok b
    /\ Diff.diffCommand fromContent toContent = Ok o
    /\ forall k, k ∈ Diff.unchanged (Diff.details o) <->
         exists v, Env.own a k = Some v /\ Env.own b k = Some v.
Proof.
  destruct (parseEnvContent_ok fromContent) as [a Ha].
  destruct (parseEnvContent_ok toContent) as [b Hb].
  exists a, b. eexists. split; [done|]. split; [done|].
  split; [unfold Diff.diffCommand; rewrite Ha, Hb; reflexivity|].
  cbn [Diff.details]. apply elem_of_unchanged.
Qed.

(** X13.  What [formatEnvFile] of the sync command writes is read back by
    the parser as the same object, for an object whose keys are distinct
    identifiers other than [__proto__] and whose values hold no line
    terminator and are either quoted by [formatEnvFile] (they hold white
    space or one of the characters it tests for) or not themselves wrapped in
    quotes. *)
Theorem formatEnvFile_round_trip (m : EnvObject) :
  NoDup (Env.keys m) -> forallb sync_portable_entry m = true ->
  parseEnvContent (SyncCommand.formatEnvFile m) = Ok m.
Proof.
  intros Hnd Hm. unfold parseEnvContent, SyncCommand.formatEnvFile, parse_lines.
  destruct m as [|kv m]; [done|].
  assert (forall kv', kv' ∈ kv :: m -> sync_portable_entry kv' = true) as Hall.
  { intros kv' Hin%list_elem_of_In. rewrite forallb_forall in Hm. by apply Hm. }
  rewrite split_lf_join; [|done|].
  - rewrite parse_formatted_lines by done. cbn [mbind result_bind].
    unfold parse_finish. cbn [currentKey env parse_init].
    apply f_equal, foldl_set_fresh; [done| |].
    + intros k _. by intros ?%elem_of_nil.
    + apply Forall_forall. intros kv' Hin%Hall.
      by apply sync_portable_entry_spec in Hin as (c & r & _ & _ & _ & ? & _).
  - apply Forall_map, Forall_forall. intros [k v] Hin%Hall.
    apply sync_portable_entry_spec in Hin as (c & r & Hkv & Hc & Hr & _ & Hv & Hq).
    cbn [fst snd] in *. subst k. rewrite format_entry_line.
    apply key_value_line_no_LF; try done. by apply formatted_no_terminator.
Qed.

Lemma formatEnvFile_round_trip_witness :
  parseEnvContent
    (SyncCommand.formatEnvFile [(js "A", js "1"); (js "B", js "a b"); (js "C", js "x&y")])
  = Ok [(js "A", js "1"); (js "B", js "a b"); (js "C", js "x&y")].
Proof.
  apply formatEnvFile_round_trip; [|reflexivity].
  apply (bool_decide_unpack _). reflexivity.
Defined.

(** X14.  The lint command returns a result for every content.  Its error
    count is the number of messages of the validator, its warning count the
    number of findings of its own two checks, and it succeeds exactly when
    the validator has no message and, in strict mode, the two checks find
    nothing.  Without the warnings option it shows the messages of the
    validator only. *)
Theorem lintCommand_outcome content strict warnings :
  exists errs o,
    validateEnvContent content = Ok errs
    /\ LintCommand.lintCommand content strict warnings = Ok o
    /\ LintCommand.errorCount o = length errs
    /\ LintCommand.warningCount o = length (LintCommand.additional_issues content)
    /\ (LintCommand.success o = true <->
          errs = [] /\ (strict = true -> LintCommand.additional_issues content = []))
    /\ (warnings = false -> LintCommand.shown o = Lint.validation_issues errs).
Proof.
  destruct (parseEnvContent_ok content) as [env Hp].
  eexists _, _. split; [apply validateEnvContent_spec|].
  split.
  { unfold LintCommand.lintCommand. rewrite validateEnvContent_spec, Hp. reflexivity. }
  cbn [LintCommand.errorCount LintCommand.warningCount LintCommand.success
       LintCommand.shown].
  rewrite !lint_errors, !lint_warnings. unfold Lint.validation_issues.
  rewrite length_map. split; [done|]. split; [done|]. split.
  - rewrite andb_true_iff, orb_true_iff, negb_true_iff, !length_zero. split.
    + intros [? [->| ->]]; by split.
    + intros [? Hs]. split; [done|]. destruct strict; [right; by apply Hs|by left].
  - by intros ->.
Qed.

(** X15.  The issues that the lint command makes of the messages of the
    validator are all errors, carry line numbers between 1 and the number of
    lines of the content, and come in line order. *)
Theorem validation_issues_in_line_order content :
  exists errs,
    validateEnvContent content = Ok errs
    /\ StronglySorted le (map Lint.line (Lint.validation_issues errs))
    /\ Forall (fun i => Lint.sev i = Lint.error
                        /\ (1 <= Lint.line i <= length (split_lf content))%nat)
              (Lint.validation_issues errs).
Proof.
  eexists. split; [apply validateEnvContent_spec|].
  destruct (all_errors_sorted (split_lf content) 0 ∅) as [Hs Hb]. split; [done|].
  apply Forall_forall. intros x Hx. split.
  - unfold Lint.validation_issues in Hx. by apply list_elem_of_fmap in Hx as (e & -> & _).
  - rewrite Forall_forall in Hb. specialize (Hb (Lint.line x)). cbn in Hb.
    assert (Lint.line x ∈ map Lint.line (Lint.validation_issues
              (all_errors 0 (split_lf content) ∅))) as Hin.
    { apply list_elem_of_fmap. by exists x. }
    apply Hb in Hin. lia.
Qed.

(** X16.  The validator returns no message exactly when every line of the
    content is blank, a comment, or a line with a key of upper-case letters,
    digits and underscores that no earlier line carries, whose value, where
    the line has no export prefix, is quoted or free of white space. *)
Theorem validateEnvContent_silent_iff content :
  validateEnvContent content = Ok [] <->
  forall i line, split_lf content !! i = Some line ->
    silent_line (take i (split_lf content)) line.
Proof. apply validateEnvContent_silent. Qed.

(** X17.  When the validator has no message for a content, every key of the
    object that the parser returns for it consists of upper-case letters,
    digits and underscores. *)
Theorem silent_content_upper_keys content :
  validateEnvContent content = Ok [] ->
  exists env, parseEnvContent content = Ok env
    /\ forall k, k ∈ Env.keys env -> test ENV_KEY k = true.
Proof.
  intros Hv. destruct (parseEnvContent_ok content) as [env Hp]. exists env.
  split; [done|]. intros k. by apply silent_parsed_keys with content.
Qed.

Lemma silent_content_upper_keys_witness :
  exists env, parseEnvContent (js "A=1" ++ [LF] ++ js "# c" ++ [LF] ++ js "B_2=x") = Ok env
    /\ forall k, k ∈ Env.keys env -> test ENV_KEY k = true.
Proof.
  apply silent_content_upper_keys. reflexivity.
Defined.

(** X18.  [extractVariablesFromCode] returns no name twice, and every name
    it returns is an upper-case letter or underscore followed by upper-case
    letters, digits and underscores. *)
Theorem extractVariablesFromCode_names code :
  NoDup (EnvParser2.extractVariablesFromCode code)
  /\ forall name, name ∈ EnvParser2.extractVariablesFromCode code ->
       test ENV_KEY name = true.
Proof.
  unfold EnvParser2.extractVariablesFromCode. split; [apply NoDup_array_from_set|].
  intros name Hin. apply (proj1 (elem_of_array_from_set _ _)) in Hin.
  apply list_elem_of_fmap in Hin as (whole & -> & Hin).
  pose proof (match_all_from_Forall
    (fun whole => exists c r, upper_start c = true /\ forallb upper_char r = true
                              /\ whole = js "process.env." ++ c :: r)
    PATTERNS2.PROCESS_ENV (length code) 0 code) as HF.
  rewrite Forall_forall in HF.
  destruct (HF) with (x := whole) as (c & r & Hc & Hr & ->); [|done|].
  { intros i s' m (c & t & _ & Hc & Hg)%match_at_PROCESS_ENV_input. rewrite Hg.
    exists c, (run upper_char t). split; [done|]. split; [apply forallb_run|done]. }
  rewrite replace_first_prefix. cbn [app]. rewrite test_ENV_KEY. by rewrite Hc, Hr.
Qed.

(** X19.  [extractVariablesFromCode] finds every access: where the code
    holds process.env. followed by a name of upper-case letters, digits and
    underscores (not starting with a digit), and the name ends there, the
    name is returned. *)
Theorem extractVariablesFromCode_finds pre name post :
  test ENV_KEY name = true ->
  match post with c :: _ => upper_char c = false | [] => True end ->
  name ∈ EnvParser2.extractVariablesFromCode (pre ++ js "process.env." ++ name ++ post).
Proof.
  intros Hname Hpost. unfold EnvParser2.extractVariablesFromCode.
  apply elem_of_array_from_set, list_elem_of_fmap.
  exists (js "process.env." ++ name). split.
  - by rewrite replace_first_prefix.
  - apply match_all_access; [done|done|lia].
Qed.

Lemma extractVariablesFromCode_finds_witness :
  js "API_KEY"
  ∈ EnvParser2.extractVariablesFromCode
      (js "f(process.env.A, " ++ js "process.env." ++ js "API_KEY" ++ js ");").
Proof.
  apply (extractVariablesFromCode_finds (js "f(process.env.A, ") (js "API_KEY") (js ");"));
    reflexivity.
Defined.

(** X20.  The example text that the init command writes for a content
    holds ASCII code units only and [readFile] leaves it as it is; it is
    read back as the keys of the parsed content, in their order, with empty
    values; and the validate command on the content and that example
    succeeds, also in strict mode, with no missing and no extra key. *)
Theorem init_then_validate envContent strict :
  exists env example n,
    parseEnvContent envContent = Ok env
    /\ InitCommand.initCommand envContent = Ok (example, n)
    /\ n = length (Env.keys env)
    /\ Forall (fun c => c < 128) example
    /\ FileUtils.replace_crlf example = example
    /\ parseEnvContent example = Ok (map (fun k => (k, [])) (Env.keys env))
    /\ ValidateCommand.validateCommand envContent example strict
       = Ok {| ValidateCommand.success := true; ValidateCommand.valid := true;
               ValidateCommand.matched := length (Env.keys env);
               ValidateCommand.missing := []; ValidateCommand.extra := [] |}.
Proof.
  destruct (parseEnvContent_ok envContent) as [env Hp].
  pose proof (parseEnvContent_identifier_keys _ _ Hp) as Hid.
  assert (parseEnvContent (stringifyEnv (map (fun k => (k, [])) (Env.keys env)))
          = Ok (map (fun k => (k, [])) (Env.keys env))) as Hex.
  { apply stringify_parse_back; [|by apply empty_values_portable].
    rewrite keys_with_empty_values. by destruct Hid. }
  exists env, (stringifyEnv (map (fun k => (k, [])) (Env.keys env))), (length (Env.keys env)).
  split; [done|]. split.
  { unfold InitCommand.initCommand. rewrite Hp. cbn [mbind result_bind].
    rewrite exampleObject_spec by done. by rewrite keys_with_empty_values. }
  split; [done|].
  pose proof (example_content_plain env Hid) as Hplain.
  split; [eapply Forall_impl; [exact Hplain|]; by intros c [? _]|].
  split; [apply replace_crlf_no_CR; eapply Forall_impl; [exact Hplain|]; by intros c [_ ?]|].
  split; [done|].
  unfold ValidateCommand.validateCommand. rewrite Hp, Hex. cbn [mbind result_bind].
  rewrite keys_with_empty_values.
  rewrite getMissingKeys_nil.
  2:{ intros k. rewrite keys_with_empty_values. apply has_own_key. }
  rewrite getExtraKeys_nil.
  2:{ intros k Hk. apply has_own_key. by rewrite keys_with_empty_values. }
  rewrite filter_all by (apply Forall_forall; intros k; apply has_own_key).
  by destruct strict.
Qed.


(** X22.  A continuation from its opening line to its last.  After a
    KEY=VALUE line whose value ends in a backslash, every following line that
    ends in a backslash is taken as it is, without its backslash and followed
    by a newline, and the first line that does not end in a backslash closes
    the continuation: the key gets the processed concatenation of the opening
    value without its backslash, of those pieces, and of the closing line.
    No newline follows the opening value, and no line of the continuation is
    trimmed or skipped. *)
Theorem continued_entry first ls last key value st :
  currentKey st = None ->
  classify first = Plain key value -> endsWith value [BSL] = true ->
  Forall (fun l => endsWith l [BSL] = true) ls ->
  endsWith last [BSL] = false ->
  parse_lines (first :: ls ++ [last]) st
  = Ok {| env := Env.set key
                   (processValue (slice value 0 (-1) ++ continued ls ++ last)) (env st);
          currentKey := None; currentValue := [] |}.
Proof.
  intros Hk Hc Hv Hls Hlast. unfold parse_lines. cbn [for_each].
  rewrite parse_line_classify by done. rewrite Hc, Hv. cbn [mbind result_bind].
  by rewrite (parse_continuation_lines ls last _ key).
Qed.

Lemma continued_entry_witness :
  parse_lines ((js "KEY=a" ++ [BSL]) :: [js " # b" ++ [BSL]] ++ [js "c"]) parse_init
  = Ok {| env := Env.set (js "KEY")
                   (processValue (slice (js "a" ++ [BSL]) 0 (-1)
                                  ++ continued [js " # b" ++ [BSL]] ++ js "c"))
                   (env parse_init);
          currentKey := None; currentValue := [] |}.
Proof.
  apply (continued_entry (js "KEY=a" ++ [BSL]) [js " # b" ++ [BSL]] (js "c")
           (js "KEY") (js "a" ++ [BSL]) parse_init);
    [reflexivity|reflexivity|reflexivity|apply (bool_decide_unpack _); reflexivity
    |reflexivity].
Defined.

(** X23.  Where no line of the content opens a continuation, a key other
    than [__proto__] has in the parsed object the value of the last
    KEY=VALUE line that carries it, and is absent when no line carries it. *)
Theorem parse_last_line_wins content k :
  Forall (fun line => opens_continuation line = false) (split_lf content) ->
  k <> js "__proto__" ->
  exists es env,
    EnvParser2.parseEnvEntries content = Ok es /\ parseEnvContent content = Ok env
    /\ Env.own env k
       = last (map EnvEntry.value (filter (fun e => EnvEntry.key e = k) es)).
Proof.
  intros Hl Hk. eexists _, _. split; [apply parseEnvEntries_spec|].
  split; [by apply parseEnvContent_no_continuation|].
  rewrite own_assign_entries by done. by destruct (last _).
Qed.

Lemma parse_last_line_wins_witness :
  exists es env,
    EnvParser2.parseEnvEntries (js "A=1" ++ [LF] ++ js "B=2" ++ [LF] ++ js "A=3") = Ok es
    /\ parseEnvContent (js "A=1" ++ [LF] ++ js "B=2" ++ [LF] ++ js "A=3") = Ok env
    /\ Env.own env (js "A")
       = last (map EnvEntry.value (filter (fun e => EnvEntry.key e = js "A") es)).
Proof.
  apply parse_last_line_wins; apply (bool_decide_unpack _); reflexivity.
Defined.

(** X24.  [readFile] turns a text with Windows line endings into the same
    text with Unix line endings: for lines that hold no carriage return, the
    lines joined by CR LF are read as the lines joined by LF. *)
Theorem readFile_windows_line_endings lines :
  Forall (Forall (fun c => c <> CR)) lines ->
  FileUtils.replace_crlf (join [CR; LF] lines) = join [LF] lines.
Proof.
  induction 1 as [|p lines Hp Hl IH]; [done|]. cbn [join].
  destruct lines as [|q lines]; [by apply replace_crlf_no_CR|].
  change ([CR; LF] ++ ?x) with (CR :: LF :: x). rewrite replace_crlf_line by done.
  by rewrite IH.
Qed.

Lemma readFile_windows_line_endings_witness :
  FileUtils.replace_crlf (join [CR; LF] [js "A=1"; js ""; js "B=x y"])
  = join [LF] [js "A=1"; js ""; js "B=x y"].
Proof.
  apply readFile_windows_line_endings. apply (bool_decide_unpack _). reflexivity.
Defined.
